(** * who-imports: export resolution and consumer tracing

    A shallow embedding of [src/exports.ts] (registry builder and export
    resolver) and [src/consumers.ts] (consumer tracer and dependency
    aggregator), followed by the properties of the design document that
    concern them.

    Conventions of the embedding:
    - a string is a [string], the sequence of its UTF-8 bytes: the code
      compares and concatenates strings and splits them at ASCII
      characters, which goes byte by byte; [sanitizeNodeId] alone, whose
      regular expression matches every code unit, takes a string as the
      list of its UTF-16 code units;
    - a JavaScript [Map] is an insertion-ordered association list
      ([JsMap]): [set] on a present key replaces the value in place, on an
      absent key appends; [values] iterates in insertion order;
    - the [visited] set of the resolver is only ever tested and extended,
      so it is a [gset string]; since the source mutates it in place, the
      resolver returns the set it leaves behind;
    - [x?: string] fields are [option string]; JavaScript truthiness of an
      optional string ([undefined] and the empty string are falsy) is
      [truthy];
    - the facts the code reads off ts-morph nodes are record fields named
      after the accessor the code calls;
    - Node's [path] functions and [String.prototype.localeCompare] are
      taken abstractly ([Host]); for concrete runs [Posix] gives the POSIX
      [path] functions, and a comparison by code units stands in for the
      collation of [localeCompare], which is not modelled. *)

From Stdlib Require Import String Ascii ZArith Lia Permutation Sorted.
From stdpp Require Import base option list strings gmap.

Local Open Scope string_scope.

(** ** JavaScript helpers *)

(** [s ? s : undefined] for an optional string: [undefined] and [""] are
    falsy. *)
Definition truthy (o : option string) : option string :=
  match o with
  | Some s => if String.eqb s "" then None else Some s
  | None => None
  end.

(** [a || b] where [a] is an optional string. *)
Definition orElse (o : option string) (d : string) : string :=
  match truthy o with
  | Some s => s
  | None => d
  end.

(** [s.startsWith('.')] *)
Definition startsWithDot (s : string) : bool := String.prefix "." s.

(** Insertion-ordered maps with string keys (JavaScript [Map]). *)
Module JsMap.
Section Defs.
Context {V : Type}.

Fixpoint get (k : string) (m : list (string * V)) : option V :=
  match m with
  | [] => None
  | (k', v) :: m' => if String.eqb k k' then Some v else get k m'
  end.

Definition has (k : string) (m : list (string * V)) : bool :=
  match get k m with
  | Some _ => true
  | None => false
  end.

Fixpoint set (k : string) (v : V) (m : list (string * V))
  : list (string * V) :=
  match m with
  | [] => [(k, v)]
  | (k', v') :: m' =>
      if String.eqb k k' then (k', v) :: m' else (k', v') :: set k v m'
  end.

Definition keys (m : list (string * V)) : list string := fst <$> m.
Definition values (m : list (string * V)) : list V := snd <$> m.
End Defs.
End JsMap.

Abbreviation JsMap V := (list (string * V)).

(** ** Host functions *)

Record Host := {
  (** [path.relative(from, to)] *)
  relative : string -> string -> string;
  (** [path.dirname(p)] *)
  dirname : string -> string;
  (** [path.resolve(a, b)] *)
  resolve : string -> string -> string;
  (** [a.localeCompare(b)] *)
  localeCompare : string -> string -> Z
}.

(** Node's POSIX [path] functions over a fixed working directory, and a
    comparator in the order of the code units. *)
Module Posix.
Definition isSlash (c : ascii) : bool := Ascii.eqb c "/"%char.

Fixpoint segmentsGo (cur : string) (s : string) : list string :=
  match s with
  | EmptyString => [cur]
  | String c s' =>
      if isSlash c then cur :: segmentsGo "" s'
      else segmentsGo (cur +:+ String c "") s'
  end.

Definition segments (s : string) : list string := segmentsGo "" s.

(** One step of [normalizeString] for an absolute path; the stack holds
    the segments kept so far, innermost first. *)
Definition normStep (stack : list string) (seg : string) : list string :=
  if String.eqb seg "" then stack
  else if String.eqb seg "." then stack
  else if String.eqb seg ".." then tail stack
  else seg :: stack.

Definition normalize (segs : list string) : list string :=
  rev (fold_left normStep segs []).

Definition isAbsolute (p : string) : bool := String.prefix "/" p.

Fixpoint joinSlash (segs : list string) : string :=
  match segs with
  | [] => ""
  | [s] => s
  | s :: rest => s +:+ "/" +:+ joinSlash rest
  end.

Section Cwd.
Variable cwd : string.

(** [path.resolve(...args)]: arguments are taken right to left until
    an absolute one is met, the working directory closing the list. *)
Fixpoint resolveGo (argsRev : list string) (acc : string) : string :=
  match argsRev with
  | [] => cwd +:+ "/" +:+ acc
  | a :: rest =>
      if String.eqb a "" then resolveGo rest acc
      else if isAbsolute a then a +:+ "/" +:+ acc
      else resolveGo rest (a +:+ "/" +:+ acc)
  end.

Definition resolveSegs (args : list string) : list string :=
  normalize (segments (resolveGo (rev args) "")).

Definition resolveAll (args : list string) : string :=
  "/" +:+ joinSlash (resolveSegs args).

Fixpoint stripCommon (f t : list string) : list string * list string :=
  match f, t with
  | a :: f', b :: t' =>
      if String.eqb a b then stripCommon f' t' else (f, t)
  | _, _ => (f, t)
  end.

Definition relative (from to : string) : string :=
  if String.eqb from to then ""
  else
    let '(f, t) := stripCommon (resolveSegs [from]) (resolveSegs [to]) in
    joinSlash (((fun _ => "..") <$> f) ++ t).
End Cwd.

Fixpoint dropWhile (p : ascii -> bool) (l : list ascii) : list ascii :=
  match l with
  | [] => []
  | c :: l' => if p c then dropWhile p l' else l
  end.

(** [path.dirname]: trailing slashes are skipped, then the base name,
    and what precedes the slash before it is returned. *)
Definition dirname (p : string) : string :=
  match p with
  | EmptyString => "."
  | String c0 rest =>
      let hasRoot := isSlash c0 in
      let r1 := dropWhile isSlash (rev (list_ascii_of_string rest)) in
      let r2 := dropWhile (fun c => negb (isSlash c)) r1 in
      match r2 with
      | [] => if hasRoot then "/" else "."
      | _ :: r3 =>
          match r3 with
          | [] => if hasRoot then "//"
                  else String c0 ""
          | _ => String c0 (string_of_list_ascii (rev r3))
          end
      end
  end.

(** A consistent comparator for concrete runs. It is not the collation
    of [String.prototype.localeCompare], which depends on the locale and
    orders, for one, [a] before [B]. *)
Definition compareCodeUnits (a b : string) : Z :=
  match String.compare a b with
  | Lt => (-1)%Z
  | Eq => 0%Z
  | Gt => 1%Z
  end.

End Posix.

(** The host of the concrete runs. Its [localeCompare] is
    [Posix.compareCodeUnits]: a run shows the order of an engine only
    where the two agree. *)
Definition posixHost (cwd : string) : Host :=
  {| relative := Posix.relative cwd;
     dirname := Posix.dirname;
     resolve := fun a b => Posix.resolveAll cwd [a; b];
     localeCompare := Posix.compareCodeUnits |}.

(** ** Data model ([types.ts]) *)

Module ResolvedExport.
Record t := {
  originalModule : string;
  originalName : string;
  reExportChain : list string
}.
End ResolvedExport.

Module ExportEntry.
Record t := {
  module : string;
  name : string;
  isReExport : bool;
  sourceModule : option string;
  sourceName : option string
}.
End ExportEntry.

Module Consumer.
Record t := {
  module : string;
  via : option (list string)
}.
End Consumer.

Module ExportDependencyInfo.
Record t := {
  module : string;
  name : string;
  consumerCount : nat;
  consumers : list Consumer.t
}.
End ExportDependencyInfo.

(** Key: ["modulePath::exportName"] *)
Abbreviation ExportRegistry := (JsMap ExportEntry.t).

(** Key: ["originalModule::exportName"] *)
Abbreviation ConsumerMap := (JsMap (list Consumer.t)).

(** The template literal [`${modulePath}::${exportName}`]. *)
Definition mkKey (modulePath exportName : string) : string :=
  modulePath +:+ "::" +:+ exportName.

(** ** Export resolver ([resolveExport], [resolveFromStarExports]) *)

(** [{ ...resolved, reExportChain: [modulePath, ...resolved.reExportChain] }] *)
Definition prependChain (modulePath : string) (resolved : ResolvedExport.t)
  : ResolvedExport.t :=
  {| ResolvedExport.originalModule := ResolvedExport.originalModule resolved;
     ResolvedExport.originalName := ResolvedExport.originalName resolved;
     ResolvedExport.reExportChain :=
       modulePath :: ResolvedExport.reExportChain resolved |}.

(** What a call of the resolver yields: the value returned ([None] is
    [undefined]) and the [visited] set as the call leaves it. *)
Abbreviation Resolution := (option ResolvedExport.t * gset string)%type.

(** The tail shared by the two recursive calls of the resolver:
    [if (resolved) return { ...resolved, reExportChain: [modulePath, ...] }]
    and [return undefined] otherwise. *)
Definition throughModule (modulePath : string) (call : option Resolution)
  : option Resolution :=
  match call with
  | Some (Some resolved, visited) =>
      Some (Some (prependChain modulePath resolved), visited)
  | Some (None, visited) => Some (None, visited)
  | None => None
  end.

Section Resolver.
Variable host : Host.
Variable registry : ExportRegistry.
Variable basePath : string.

(** [resolveFromStarExports], with the mutually recursive
    [resolveExport] passed as [self]. *)
Definition resolveFromStarExports
    (self : string -> string -> gset string -> option Resolution)
    (modulePath exportName : string) (visited : gset string)
  : option Resolution :=
  let starKey := mkKey modulePath "*" in
  match JsMap.get starKey registry with
  | Some starEntry =>
      match truthy (ExportEntry.sourceModule starEntry) with
      | Some src =>
          let sourceRelative := relative host basePath src in
          throughModule modulePath
            (self sourceRelative exportName visited)
      | None => Some (None, visited)
      end
  | None => Some (None, visited)
  end.

(** [resolveExport] with an explicit [visited] argument. The recursion
    of the source is bounded by [fuel]; the outer [None] means the fuel
    ran out, never that the export is unresolved. *)
Fixpoint resolveExportFrom (fuel : nat) (modulePath exportName : string)
    (visited : gset string) : option Resolution :=
  match fuel with
  | O => None
  | S fuel' =>
      let key := mkKey modulePath exportName in
      if decide (key ∈ visited) then Some (None, visited)
      else
        let visited := {[key]} ∪ visited in
        match JsMap.get key registry with
        | None =>
            resolveFromStarExports (resolveExportFrom fuel')
              modulePath exportName visited
        | Some entry =>
            if negb (ExportEntry.isReExport entry) then
              Some (Some {| ResolvedExport.originalModule := modulePath;
                            ResolvedExport.originalName := exportName;
                            ResolvedExport.reExportChain := [] |},
                    visited)
            else
              match truthy (ExportEntry.sourceModule entry) with
              | Some src =>
                  let sourceRelative := relative host basePath src in
                  let sourceName :=
                    orElse (ExportEntry.sourceName entry) exportName in
                  throughModule modulePath
                    (resolveExportFrom fuel' sourceRelative sourceName
                       visited)
              | None => Some (None, visited)
              end
        end
  end.

(** Recursion depth that always suffices (see [resolveExportFrom_total]):
    after the first call, module paths come from the registry's source
    modules and names from the queried name and the registry's source
    names. *)
Definition resolveFuel : nat :=
  S (S (length registry * S (length registry))).

(** [resolveExport(modulePath, exportName, registry, files, basePath)]
    with the default [visited = new Set()]. The [files] argument is not
    read by the source. *)
Definition resolveExport (modulePath exportName : string)
  : option ResolvedExport.t :=
  match resolveExportFrom resolveFuel modulePath exportName ∅ with
  | Some (resolved, _) => resolved
  | None => None
  end.
End Resolver.

(** ** Source facts (what the code reads off ts-morph nodes) *)

Module ImportSpecifier.
Record t := {
  getName : string;
  (** [getAliasNode()?.getText()] *)
  getAliasNode : option string
}.
End ImportSpecifier.

Module ImportDeclaration.
Record t := {
  getModuleSpecifierValue : string;
  (** [getDefaultImport()?.getText()] *)
  getDefaultImport : option string;
  getNamedImports : list ImportSpecifier.t;
  (** [getNamespaceImport()?.getText()] *)
  getNamespaceImport : option string
}.
End ImportDeclaration.

Module ExportSpecifier.
Record t := {
  getName : string;
  getAliasNode : option string
}.
End ExportSpecifier.

Module ExportDeclaration.
Record t := {
  getModuleSpecifierValue : option string;
  isNamespaceExport : bool;
  getNamedExports : list ExportSpecifier.t
}.
End ExportDeclaration.

Module PropertyAccessExpression.
Record t := {
  (** the text of [getExpression()] when its kind is [Identifier] *)
  getExpression : option string;
  getName : string
}.
End PropertyAccessExpression.

Module SourceFile.
Record t := {
  getFilePath : string;
  (** the paths [getProject().getSourceFile] answers for *)
  getProject : list string;
  getImportDeclarations : list ImportDeclaration.t;
  getExportDeclarations : list ExportDeclaration.t;
  (** [getExportAssignments().length] *)
  getExportAssignments : nat;
  (** exported name, and for each of its declarations
      [decl.getSourceFile().getFilePath()] *)
  getExportedDeclarations : list (string * list string);
  (** [getDescendantsOfKind(SyntaxKind.PropertyAccessExpression)] *)
  getPropertyAccessExpressions : list PropertyAccessExpression.t
}.
End SourceFile.

(** Value type of the import map of [buildImportMap]. *)
Module ImportInfo.
Record t := {
  sourceModule : option string;
  sourceName : string
}.
End ImportInfo.

(** [project.getSourceFile(candidate)] as a truth value. *)
Definition projectHas (sourceFile : SourceFile.t) (candidate : string) : bool :=
  existsb (String.eqb candidate) (SourceFile.getProject sourceFile).

Definition extensions : list string := [".ts"; ".tsx"; "/index.ts"; "/index.tsx"].

(** The [for (const ext of extensions)] loop shared by [resolveModulePath]
    and [resolveImportPath]. *)
Fixpoint firstCandidate (sourceFile : SourceFile.t) (resolved : string)
    (exts : list string) : option string :=
  match exts with
  | [] => None
  | ext :: exts' =>
      let candidate := resolved +:+ ext in
      if projectHas sourceFile candidate then Some candidate
      else firstCandidate sourceFile resolved exts'
  end.

(** ** Export registry builder ([exports.ts]) *)

Section Builder.
Variable host : Host.

Definition resolveModulePath (sourceFile : SourceFile.t) (specifier : string)
  : option string :=
  if negb (startsWithDot specifier) then None
  else
    let sourceDir := dirname host (SourceFile.getFilePath sourceFile) in
    let resolved := resolve host sourceDir specifier in
    match firstCandidate sourceFile resolved extensions with
    | Some candidate => Some candidate
    | None => if projectHas sourceFile resolved then Some resolved else None
    end.

(** The body of the [for (const importDecl of ...)] loop of
    [buildImportMap]. *)
Definition addImportDeclaration (sourceFile : SourceFile.t)
    (importMap : JsMap ImportInfo.t) (importDecl : ImportDeclaration.t)
  : JsMap ImportInfo.t :=
  let moduleSpecifier := ImportDeclaration.getModuleSpecifierValue importDecl in
  let resolvedPath := resolveModulePath sourceFile moduleSpecifier in
  let importMap :=
    match ImportDeclaration.getDefaultImport importDecl with
    | Some defaultImport =>
        JsMap.set defaultImport
          {| ImportInfo.sourceModule := resolvedPath;
             ImportInfo.sourceName := "default" |} importMap
    | None => importMap
    end in
  let importMap :=
    fold_left
      (fun importMap namedImport =>
         let localName :=
           orElse (ImportSpecifier.getAliasNode namedImport)
                  (ImportSpecifier.getName namedImport) in
         let sourceName := ImportSpecifier.getName namedImport in
         JsMap.set localName
           {| ImportInfo.sourceModule := resolvedPath;
              ImportInfo.sourceName := sourceName |} importMap)
      (ImportDeclaration.getNamedImports importDecl) importMap in
  match ImportDeclaration.getNamespaceImport importDecl with
  | Some namespaceImport =>
      JsMap.set namespaceImport
        {| ImportInfo.sourceModule := resolvedPath;
           ImportInfo.sourceName := "*" |} importMap
  | None => importMap
  end.

Definition buildImportMap (sourceFile : SourceFile.t) : JsMap ImportInfo.t :=
  fold_left (addImportDeclaration sourceFile)
    (SourceFile.getImportDeclarations sourceFile) [].

(** The entry one named export of an export declaration registers. *)
Definition namedExportEntry (modulePath : string)
    (moduleSpecifier : option string) (sourceFile : SourceFile.t)
    (importMap : JsMap ImportInfo.t) (namedExport : ExportSpecifier.t)
  : string * ExportEntry.t :=
  let exportedName := ExportSpecifier.getName namedExport in
  let localName :=
    orElse (ExportSpecifier.getAliasNode namedExport) exportedName in
  let key := mkKey modulePath localName in
  match truthy moduleSpecifier with
  | Some specifier =>
      let resolvedPath := resolveModulePath sourceFile specifier in
      (key, {| ExportEntry.module := modulePath;
               ExportEntry.name := localName;
               ExportEntry.isReExport := true;
               ExportEntry.sourceModule :=
                 Some (orElse resolvedPath specifier);
               ExportEntry.sourceName := Some exportedName |})
  | None =>
      let importInfo :=
        match JsMap.get exportedName importMap with
        | Some info =>
            match truthy (ImportInfo.sourceModule info) with
            | Some src => Some (src, ImportInfo.sourceName info)
            | None => None
            end
        | None => None
        end in
      match importInfo with
      | Some (src, srcName) =>
          (key, {| ExportEntry.module := modulePath;
                   ExportEntry.name := localName;
                   ExportEntry.isReExport := true;
                   ExportEntry.sourceModule := Some src;
                   ExportEntry.sourceName := Some srcName |})
      | None =>
          (key, {| ExportEntry.module := modulePath;
                   ExportEntry.name := localName;
                   ExportEntry.isReExport := false;
                   ExportEntry.sourceModule := None;
                   ExportEntry.sourceName := None |})
      end
  end.

Definition starEntry (modulePath resolvedPath : string) : ExportEntry.t :=
  {| ExportEntry.module := modulePath;
     ExportEntry.name := "*";
     ExportEntry.isReExport := true;
     ExportEntry.sourceModule := Some resolvedPath;
     ExportEntry.sourceName := None |}.

Definition processExportDeclaration (exportDecl : ExportDeclaration.t)
    (modulePath : string) (registry : ExportRegistry)
    (sourceFile : SourceFile.t) (importMap : JsMap ImportInfo.t)
  : ExportRegistry :=
  let moduleSpecifier := ExportDeclaration.getModuleSpecifierValue exportDecl in
  match (if ExportDeclaration.isNamespaceExport exportDecl
         then truthy moduleSpecifier else None) with
  | Some specifier =>
      match truthy (resolveModulePath sourceFile specifier) with
      | Some resolvedPath =>
          JsMap.set (mkKey modulePath "*") (starEntry modulePath resolvedPath)
            registry
      | None => registry
      end
  | None =>
      fold_left
        (fun registry namedExport =>
           let '(key, entry) :=
             namedExportEntry modulePath moduleSpecifier sourceFile
               importMap namedExport in
           JsMap.set key entry registry)
        (ExportDeclaration.getNamedExports exportDecl) registry
  end.

Definition directEntry (modulePath name : string) : ExportEntry.t :=
  {| ExportEntry.module := modulePath;
     ExportEntry.name := name;
     ExportEntry.isReExport := false;
     ExportEntry.sourceModule := None;
     ExportEntry.sourceName := None |}.

Definition registerDefaultExport (modulePath : string)
    (registry : ExportRegistry) : ExportRegistry :=
  let key := mkKey modulePath "default" in
  if negb (JsMap.has key registry) then
    JsMap.set key (directEntry modulePath "default") registry
  else registry.

(** The body of the loop over [getExportedDeclarations()]. *)
Definition registerExportedDeclaration (sourceFile : SourceFile.t)
    (modulePath : string) (registry : ExportRegistry)
    (exported : string * list string) : ExportRegistry :=
  let '(name, declarations) := exported in
  let key := mkKey modulePath name in
  if JsMap.has key registry then registry
  else
    let isLocal :=
      existsb
        (fun declFilePath =>
           String.eqb declFilePath (SourceFile.getFilePath sourceFile))
        declarations in
    if isLocal then JsMap.set key (directEntry modulePath name) registry
    else registry.

(** The first loop of [extractExportsFromFile]: every export
    declaration, in source order. *)
Definition processExportDeclarations (sourceFile : SourceFile.t)
    (modulePath : string) (registry : ExportRegistry) : ExportRegistry :=
  let importMap := buildImportMap sourceFile in
  fold_left
    (fun registry exportDecl =>
       processExportDeclaration exportDecl modulePath registry sourceFile
         importMap)
    (SourceFile.getExportDeclarations sourceFile) registry.

(** The rest of [extractExportsFromFile]: default assignment, then
    inline exported declarations. *)
Definition registerDeclarations (sourceFile : SourceFile.t)
    (modulePath : string) (registry : ExportRegistry) : ExportRegistry :=
  let registry :=
    if (0 <? SourceFile.getExportAssignments sourceFile)%nat
    then registerDefaultExport modulePath registry
    else registry in
  fold_left (registerExportedDeclaration sourceFile modulePath)
    (SourceFile.getExportedDeclarations sourceFile) registry.

Definition extractExportsFromFile (sourceFile : SourceFile.t)
    (modulePath : string) (registry : ExportRegistry) : ExportRegistry :=
  registerDeclarations sourceFile modulePath
    (processExportDeclarations sourceFile modulePath registry).

Definition buildExportRegistry (files : JsMap SourceFile.t)
    (basePath : string) : ExportRegistry :=
  fold_left
    (fun registry '(filePath, sourceFile) =>
       let relativePath := relative host basePath filePath in
       extractExportsFromFile sourceFile relativePath registry)
    files [].
End Builder.

(** ** Consumer tracer and dependency aggregator ([consumers.ts]) *)

Section Sorting.
Context {A : Type}.
Variable compareFn : A -> A -> Z.

(** [Array.prototype.sort(compareFn)], a stable sort: an element stays
    ahead of the later elements it compares equal to. *)
Fixpoint sortInsert (x : A) (sorted : list A) : list A :=
  match sorted with
  | [] => [x]
  | y :: sorted' =>
      if (compareFn x y <=? 0)%Z then x :: sorted
      else y :: sortInsert x sorted'
  end.

Fixpoint arraySort (l : list A) : list A :=
  match l with
  | [] => []
  | x :: l' => sortInsert x (arraySort l')
  end.
End Sorting.

Section Consumers.
Variable host : Host.

Definition resolveImportPath (sourceFile : SourceFile.t) (specifier : string)
  : option string :=
  let sourceDir := dirname host (SourceFile.getFilePath sourceFile) in
  let resolved := resolve host sourceDir specifier in
  match firstCandidate sourceFile resolved extensions with
  | Some candidate => Some candidate
  | None => if projectHas sourceFile resolved then Some resolved else None
  end.

(** The [via] field [recordConsumer] computes from a resolution. *)
Definition viaOf (resolved : ResolvedExport.t) : option (list string) :=
  let chain := ResolvedExport.reExportChain resolved in
  if (0 <? length chain)%nat then
    let intermediaries :=
      List.filter
        (fun m => negb (String.eqb m (ResolvedExport.originalModule resolved)))
        chain in
    if (0 <? length intermediaries)%nat then Some intermediaries else None
  else None.

Definition recordConsumer (importedModule exportName consumerModule : string)
    (registry : ExportRegistry) (basePath : string) (consumers : ConsumerMap)
  : ConsumerMap :=
  if String.eqb importedModule consumerModule then consumers
  else
    match resolveExport host registry basePath importedModule exportName with
    | None => consumers
    | Some resolved =>
        let key := mkKey (ResolvedExport.originalModule resolved)
                         (ResolvedExport.originalName resolved) in
        let consumers :=
          if negb (JsMap.has key consumers) then JsMap.set key [] consumers
          else consumers in
        let consumer :=
          {| Consumer.module := consumerModule;
             Consumer.via := viaOf resolved |} in
        match JsMap.get key consumers with
        | Some recorded => JsMap.set key (recorded ++ [consumer])%list consumers
        | None => consumers
        end
    end.

Definition processNamespaceUsages (sourceFile : SourceFile.t)
    (namespaceName importedModule consumerModule : string)
    (registry : ExportRegistry) (basePath : string) (consumers : ConsumerMap)
  : ConsumerMap :=
  fold_left
    (fun consumers propAccess =>
       match PropertyAccessExpression.getExpression propAccess with
       | Some identifier =>
           if String.eqb identifier namespaceName then
             let propertyName := PropertyAccessExpression.getName propAccess in
             recordConsumer importedModule propertyName consumerModule
               registry basePath consumers
           else consumers
       | None => consumers
       end)
    (SourceFile.getPropertyAccessExpressions sourceFile) consumers.

Definition processImportDeclaration (importDecl : ImportDeclaration.t)
    (consumerModule : string) (registry : ExportRegistry)
    (files : JsMap SourceFile.t) (basePath : string)
    (consumers : ConsumerMap) (sourceFile : SourceFile.t) : ConsumerMap :=
  let moduleSpecifier := ImportDeclaration.getModuleSpecifierValue importDecl in
  if negb (startsWithDot moduleSpecifier) then consumers
  else
    match truthy (resolveImportPath sourceFile moduleSpecifier) with
    | None => consumers
    | Some resolvedPath =>
        if negb (JsMap.has resolvedPath files) then consumers
        else
          let importedModule := relative host basePath resolvedPath in
          let consumers :=
            match ImportDeclaration.getDefaultImport importDecl with
            | Some _ =>
                recordConsumer importedModule "default" consumerModule
                  registry basePath consumers
            | None => consumers
            end in
          let consumers :=
            fold_left
              (fun consumers namedImport =>
                 let importedName := ImportSpecifier.getName namedImport in
                 recordConsumer importedModule importedName consumerModule
                   registry basePath consumers)
              (ImportDeclaration.getNamedImports importDecl) consumers in
          match ImportDeclaration.getNamespaceImport importDecl with
          | Some namespaceName =>
              processNamespaceUsages sourceFile namespaceName importedModule
                consumerModule registry basePath consumers
          | None => consumers
          end
    end.

Definition processImportsInFile (sourceFile : SourceFile.t)
    (consumerModule : string) (registry : ExportRegistry)
    (files : JsMap SourceFile.t) (basePath : string)
    (consumers : ConsumerMap) : ConsumerMap :=
  fold_left
    (fun consumers importDecl =>
       processImportDeclaration importDecl consumerModule registry files
         basePath consumers sourceFile)
    (SourceFile.getImportDeclarations sourceFile) consumers.

Definition findConsumers (allFiles : JsMap SourceFile.t)
    (registry : ExportRegistry) (basePath : string)
    (consumerFiles : option (JsMap SourceFile.t)) : ConsumerMap :=
  let filesToScan := default allFiles consumerFiles in
  fold_left
    (fun consumers '(filePath, sourceFile) =>
       let consumerModule := relative host basePath filePath in
       processImportsInFile sourceFile consumerModule registry allFiles
         basePath consumers)
    filesToScan [].

(** The body of the loop of [deduplicateConsumers] over the [seen] map. *)
Definition dedupStep (seen : JsMap Consumer.t) (consumer : Consumer.t)
  : JsMap Consumer.t :=
  match JsMap.get (Consumer.module consumer) seen with
  | None => JsMap.set (Consumer.module consumer) consumer seen
  | Some existing =>
      match Consumer.via consumer, Consumer.via existing with
      | Some _, None => JsMap.set (Consumer.module consumer) consumer seen
      | _, _ => seen
      end
  end.

Definition deduplicateConsumers (consumers : list Consumer.t)
  : list Consumer.t :=
  let seen := fold_left dedupStep consumers [] in
  arraySort
    (fun a b => localeCompare host (Consumer.module a) (Consumer.module b))
    (JsMap.values seen).

(** The body of the loop of [buildDependencyOutput] over
    [registry.values()]; the state is [output] and [processedExports]. *)
Definition outputStep (registry : ExportRegistry) (consumers : ConsumerMap)
    (basePath : string)
    (state : list ExportDependencyInfo.t * gset string)
    (entry : ExportEntry.t) : list ExportDependencyInfo.t * gset string :=
  let '(output, processedExports) := state in
  if String.eqb (ExportEntry.name entry) "*" then state
  else
    match resolveExport host registry basePath (ExportEntry.module entry)
            (ExportEntry.name entry) with
    | None => state
    | Some resolved =>
        let originalKey :=
          mkKey (ResolvedExport.originalModule resolved)
                (ResolvedExport.originalName resolved) in
        if decide (originalKey ∈ processedExports) then state
        else
          let processedExports := {[originalKey]} ∪ processedExports in
          let exportConsumers :=
            default [] (JsMap.get originalKey consumers) in
          let uniqueConsumers := deduplicateConsumers exportConsumers in
          ((output ++
             [{| ExportDependencyInfo.module :=
                   ResolvedExport.originalModule resolved;
                 ExportDependencyInfo.name :=
                   ResolvedExport.originalName resolved;
                 ExportDependencyInfo.consumerCount :=
                   length uniqueConsumers;
                 ExportDependencyInfo.consumers := uniqueConsumers |}])%list,
           processedExports)
    end.

Definition compareRows (a b : ExportDependencyInfo.t) : Z :=
  let moduleCompare :=
    localeCompare host (ExportDependencyInfo.module a)
      (ExportDependencyInfo.module b) in
  if negb (moduleCompare =? 0)%Z then moduleCompare
  else localeCompare host (ExportDependencyInfo.name a)
         (ExportDependencyInfo.name b).

Definition buildDependencyOutput (registry : ExportRegistry)
    (consumers : ConsumerMap) (basePath : string)
  : list ExportDependencyInfo.t :=
  let '(output, _) :=
    fold_left (outputStep registry consumers basePath)
      (JsMap.values registry) ([], ∅) in
  arraySort compareRows output.
End Consumers.

(** ** Module export enumeration ([getAllExportsFromModule]) *)

(** [s.split('::')]: the pieces between the occurrences of the separator,
    found from the left. *)
Fixpoint splitColonsGo (cur s : string) : list string :=
  match s with
  | EmptyString => [cur]
  | String c s' =>
      match s' with
      | String c' s'' =>
          if Ascii.eqb c ":"%char && Ascii.eqb c' ":"%char
          then cur :: splitColonsGo "" s''
          else splitColonsGo (cur +:+ String c "") s'
      | EmptyString => [cur +:+ String c ""]
      end
  end.

Definition splitColons (s : string) : list string := splitColonsGo "" s.

(** What a call of [getAllExportsFromModule] yields: the map returned and
    the [visited] set of modules as the call leaves it. *)
Abbreviation Enumeration := (JsMap ResolvedExport.t * gset string)%type.

Section Enumerate.
Variable host : Host.
Variable registry : ExportRegistry.
Variable basePath : string.

(** The body of the loop over the registry keys ("Get direct exports").
    [key.split('::')[1]] is there for every key that passes the
    [startsWith] test (see [splitColons_second]); the last case is never
    reached. *)
Definition directExportStep (modulePath : string)
    (result : JsMap ResolvedExport.t) (key : string)
  : JsMap ResolvedExport.t :=
  if negb (String.prefix (modulePath +:+ "::") key) then result
  else
    match splitColons key with
    | _ :: exportName :: _ =>
        if String.eqb exportName "*" then result
        else
          match resolveExport host registry basePath modulePath exportName
          with
          | Some resolved => JsMap.set exportName resolved result
          | None => result
          end
    | _ => result
    end.

(** The body of the loop over [starExports]. *)
Definition starExportStep (modulePath : string)
    (result : JsMap ResolvedExport.t) (starExport : string * ResolvedExport.t)
  : JsMap ResolvedExport.t :=
  let '(name, resolved) := starExport in
  if negb (JsMap.has name result)
  then JsMap.set name (prependChain modulePath resolved) result
  else result.

(** [getAllExportsFromModule] with an explicit [visited] argument; the
    recursion is bounded by [fuel], the outer [None] meaning that the fuel
    ran out. *)
Fixpoint getAllExportsFrom (fuel : nat) (modulePath : string)
    (visited : gset string) : option Enumeration :=
  match fuel with
  | O => None
  | S fuel' =>
      if decide (modulePath ∈ visited) then Some ([], visited)
      else
        let visited := {[modulePath]} ∪ visited in
        let result :=
          fold_left (directExportStep modulePath) (JsMap.keys registry) [] in
        let starKey := mkKey modulePath "*" in
        match JsMap.get starKey registry with
        | Some starEntry =>
            match truthy (ExportEntry.sourceModule starEntry) with
            | Some src =>
                let sourceRelative := relative host basePath src in
                match getAllExportsFrom fuel' sourceRelative visited with
                | Some (starExports, visited') =>
                    Some (fold_left (starExportStep modulePath) starExports
                            result, visited')
                | None => None
                end
            | None => Some (result, visited)
            end
        | None => Some (result, visited)
        end
  end.

(** Recursion depth that always suffices (see [getAllExportsFrom_total]):
    after the first call, the modules are source modules of the registry,
    each visited once. *)
Definition enumerateFuel : nat := S (S (length registry)).

(** [getAllExportsFromModule(modulePath, registry, files, basePath)] with
    the default [visited = new Set()]. *)
Definition getAllExportsFromModule (modulePath : string)
  : JsMap ResolvedExport.t :=
  match getAllExportsFrom enumerateFuel modulePath ∅ with
  | Some (result, _) => result
  | None => []
  end.
End Enumerate.

(** ** Base path of the analysed folders ([parser.ts]) *)

Section Separator.
(** [path.sep] *)
Variable sep : ascii.

(** [p.split(path.sep)] *)
Fixpoint splitOnGo (cur s : string) : list string :=
  match s with
  | EmptyString => [cur]
  | String c s' =>
      if Ascii.eqb c sep then cur :: splitOnGo "" s'
      else splitOnGo (cur +:+ String c "") s'
  end.

Definition splitOn (s : string) : list string := splitOnGo "" s.

(** [parts.join(path.sep)] *)
Fixpoint joinWith (parts : list string) : string :=
  match parts with
  | [] => ""
  | [s] => s
  | s :: rest => s +:+ String sep "" +:+ joinWith rest
  end.

(** [Math.min(...parts.map((p) => p.length))] for a non-empty [parts]. *)
Definition minLength (parts : list (list string)) : nat :=
  match parts with
  | [] => 0
  | first :: rest => fold_left Nat.min (length <$> rest) (length first)
  end.

(** The loop of [findCommonAncestor] from index [i], with [remaining]
    indices to go up to [minLength]; it stops at the first index where
    the paths differ. *)
Fixpoint commonPartsFrom (parts : list (list string)) (i remaining : nat)
  : list string :=
  match remaining with
  | O => []
  | S remaining' =>
      match parts with
      | first :: _ =>
          match first !! i with
          | Some segment =>
              if forallb (fun p => bool_decide (p !! i = Some segment)) parts
              then segment :: commonPartsFrom parts (S i) remaining'
              else []
          | None => []
          end
      | [] => []
      end
  end.

Definition findCommonAncestor (paths : list string) : string :=
  match paths with
  | [] => "/"
  | [p] => p
  | _ =>
      let parts := splitOn <$> paths in
      let commonParts := commonPartsFrom parts 0 (minLength parts) in
      let joined := joinWith commonParts in
      if String.eqb joined "" then "/" else joined
  end.
End Separator.

(** ** Node identifiers and labels of the graph output ([dot.ts]) *)

(** A regular expression without the [u] flag matches the UTF-16 code
    units of a string one by one, a character outside the Basic
    Multilingual Plane being two of them. Where the code applies such an
    expression to every character, the string is the list of its code
    units. *)
Abbreviation CodeUnits := (list N).

(** The code units of the colon and of the underscore. *)
Definition colonUnit : N := 58.
Definition underscoreUnit : N := 95.

(** The class [[a-zA-Z0-9]]. *)
Definition isAlphaNumeric (u : N) : bool :=
  ((48 <=? u) && (u <=? 57) || (65 <=? u) && (u <=? 90)
   || (97 <=? u) && (u <=? 122))%N.

(** [str.replace(/[^a-zA-Z0-9]/g, '_')] *)
Definition sanitizeNodeId (str : CodeUnits) : CodeUnits :=
  (fun u => if isAlphaNumeric u then u else underscoreUnit) <$> str.

(** [sanitizeNodeId(`${module}::${name}`)] *)
Definition getExportNodeId (module name : CodeUnits) : CodeUnits :=
  sanitizeNodeId (module ++ [colonUnit; colonUnit] ++ name)%list.

Definition getModuleNodeId (module : CodeUnits) : CodeUnits :=
  sanitizeNodeId module.

(** A global [replace] whose pattern matches one ASCII character, on a
    string given by its bytes: every byte gives way to what [f] makes of
    it. The [f] it is used with leave every byte but one as it is. *)
Fixpoint mapChars (f : ascii -> string) (s : string) : string :=
  match s with
  | EmptyString => ""
  | String c s' => f c +:+ mapChars f s'
  end.

(** The double quote, the backslash and the line feed. *)
Definition quoteChar : ascii := ascii_of_nat 34.
Definition backslashChar : ascii := ascii_of_nat 92.
Definition lineFeedChar : ascii := ascii_of_nat 10.

(** [str.replace(/"/g, '\\"').replace(/\n/g, '\\n')]: a backslash before
    every double quote, then backslash and [n] for every line feed. *)
Definition escapeString (str : string) : string :=
  mapChars
    (fun c => if Ascii.eqb c lineFeedChar
              then String backslashChar (String "n"%char "")
              else String c "")
    (mapChars
       (fun c => if Ascii.eqb c quoteChar
                 then String backslashChar (String quoteChar "")
                 else String c "")
       str).

(** [parts[parts.length - 1]] of [module.split('/')]; the split is never
    empty. *)
Definition getShortModuleName (module : string) : string :=
  default "" (last (splitOn "/"%char module)).

(** ** Auxiliary definitions for the proofs *)

(** Module paths a recursive call of the resolver can be made on. *)
Definition sourceModulesOf (host : Host) (registry : ExportRegistry)
    (basePath : string) : list string :=
  omap (fun entry =>
          relative host basePath <$> truthy (ExportEntry.sourceModule entry))
       (JsMap.values registry).

(** Export names a call of the resolver started on [exportName] can be
    made on. *)
Definition sourceNamesOf (registry : ExportRegistry) (exportName : string)
    : list string :=
  exportName ::
  omap (fun entry => truthy (ExportEntry.sourceName entry))
       (JsMap.values registry).

(** Keys of those calls. *)
Definition candidateKeys (host : Host) (registry : ExportRegistry)
    (basePath exportName : string) : list string :=
  (fun p => mkKey p.1 p.2) <$>
  list_prod (sourceModulesOf host registry basePath)
            (sourceNamesOf registry exportName).

(** How many of the keys [l] are not yet in [visited]. *)
Definition unvisited (l : list string) (visited : gset string) : nat :=
  length (filter (fun k => k ∉ visited) l).

(** The value [resolveExport] returns when called with the given
    [visited] set. *)
Definition resolveExportWith (host : Host) (registry : ExportRegistry)
    (basePath : string) (visited : gset string)
    (modulePath exportName : string) : option ResolvedExport.t :=
  match resolveExportFrom host registry basePath (resolveFuel registry)
          modulePath exportName visited with
  | Some (resolved, _) => resolved
  | None => None
  end.

(** [modulePath] declares [exportName] itself: the registry entry of the
    key is not a re-export. *)
Definition declares (registry : ExportRegistry)
    (modulePath exportName : string) : Prop :=
  exists entry,
    JsMap.get (mkKey modulePath exportName) registry = Some entry /\
    ExportEntry.isReExport entry = false.

(** [modulePath] re-exports [exportName] explicitly, from
    [sourceName] of the module [sourcePath]. *)
Definition reExportsFrom (host : Host) (registry : ExportRegistry)
    (basePath modulePath exportName sourcePath sourceName : string) : Prop :=
  exists entry src,
    JsMap.get (mkKey modulePath exportName) registry = Some entry /\
    ExportEntry.isReExport entry = true /\
    truthy (ExportEntry.sourceModule entry) = Some src /\
    relative host basePath src = sourcePath /\
    orElse (ExportEntry.sourceName entry) exportName = sourceName.

(** [modulePath] re-exports everything of [sourcePath] ([export * from]). *)
Definition wildcardFrom (host : Host) (registry : ExportRegistry)
    (basePath modulePath sourcePath : string) : Prop :=
  exists star src,
    JsMap.get (mkKey modulePath "*") registry = Some star /\
    truthy (ExportEntry.sourceModule star) = Some src /\
    relative host basePath src = sourcePath.

(** One hop of a re-export chain: [modulePath] re-exports [exportName]
    from [sourceName] of [sourcePath], by name or, having no entry of its
    own for the name, through [export * from], which keeps the name. *)
Definition reExportHop (host : Host) (registry : ExportRegistry)
    (basePath modulePath exportName sourcePath sourceName : string) : Prop :=
  reExportsFrom host registry basePath modulePath exportName sourcePath
    sourceName \/
  (JsMap.get (mkKey modulePath exportName) registry = None /\
   wildcardFrom host registry basePath modulePath sourcePath /\
   sourceName = exportName).

(** What the loop of [deduplicateConsumers] maintains about [seen] with
    respect to the consumers handled so far. *)
Definition seenInvariant (handled : list Consumer.t) (seen : JsMap Consumer.t)
    : Prop :=
  NoDup (JsMap.keys seen) /\
  (forall k c, (k, c) ∈ seen -> Consumer.module c = k /\ c ∈ handled) /\
  (forall c, c ∈ handled ->
     exists kept, JsMap.get (Consumer.module c) seen = Some kept /\
                  (is_Some (Consumer.via c) -> is_Some (Consumer.via kept))).

(** What [buildDependencyOutput] puts in a row: the deduplicated
    consumers recorded under the row's key, and their number. *)
Definition rowOf (host : Host) (consumers : ConsumerMap)
    (row : ExportDependencyInfo.t) : Prop :=
  let recorded :=
    default [] (JsMap.get (mkKey (ExportDependencyInfo.module row)
                                 (ExportDependencyInfo.name row)) consumers) in
  ExportDependencyInfo.consumers row = deduplicateConsumers host recorded /\
  ExportDependencyInfo.consumerCount row
  = length (deduplicateConsumers host recorded).

(** A path in the re-export graph of the registry: from [modulePath::
    exportName], hop by hop through explicit re-exports and, for a name
    without an entry of its own, through wildcards, down to a direct
    declaration. The list holds the keys the path goes through; the
    result is what the path yields. *)
Inductive resolvesAlong (host : Host) (registry : ExportRegistry)
    (basePath : string)
  : string -> string -> list string -> ResolvedExport.t -> Prop :=
| along_direct modulePath exportName :
    declares registry modulePath exportName ->
    resolvesAlong host registry basePath modulePath exportName
      [mkKey modulePath exportName]
      {| ResolvedExport.originalModule := modulePath;
         ResolvedExport.originalName := exportName;
         ResolvedExport.reExportChain := [] |}
| along_explicit modulePath exportName sourcePath sourceName keys resolved :
    reExportsFrom host registry basePath modulePath exportName sourcePath
      sourceName ->
    resolvesAlong host registry basePath sourcePath sourceName keys resolved ->
    resolvesAlong host registry basePath modulePath exportName
      (mkKey modulePath exportName :: keys) (prependChain modulePath resolved)
| along_wildcard modulePath exportName sourcePath keys resolved :
    JsMap.get (mkKey modulePath exportName) registry = None ->
    wildcardFrom host registry basePath modulePath sourcePath ->
    resolvesAlong host registry basePath sourcePath exportName keys resolved ->
    resolvesAlong host registry basePath modulePath exportName
      (mkKey modulePath exportName :: keys) (prependChain modulePath resolved).

(** The record [recordConsumer] adds for [consumerModule] under [key]:
    some import of another module resolved to the export of that key. *)
Definition recordedBy (host : Host) (registry : ExportRegistry)
    (basePath consumerModule key : string) (consumer : Consumer.t) : Prop :=
  exists importedModule exportName resolved,
    importedModule ≠ consumerModule /\
    resolveExport host registry basePath importedModule exportName
    = Some resolved /\
    key = mkKey (ResolvedExport.originalModule resolved)
                (ResolvedExport.originalName resolved) /\
    consumer = {| Consumer.module := consumerModule;
                  Consumer.via := viaOf resolved |}.

(** [later] holds every record of [earlier], under the same key, in the
    same order and ahead of anything added. *)
Definition extendsRecords (earlier later : ConsumerMap) : Prop :=
  forall key recorded,
    JsMap.get key earlier = Some recorded ->
    exists added, JsMap.get key later = Some (recorded ++ added)%list.

(** [consumer.via] as a truth value. *)
Definition hasVia (consumer : Consumer.t) : bool :=
  match Consumer.via consumer with
  | Some _ => true
  | None => false
  end.

(** Among the records of one consumer module, the first that has [via],
    and the first of all when none has. *)
Definition preferredRecord (modulePath : string)
    (recorded : list Consumer.t) : option Consumer.t :=
  match List.find
          (fun c => String.eqb (Consumer.module c) modulePath && hasVia c)
          recorded with
  | Some c => Some c
  | None =>
      List.find (fun c => String.eqb (Consumer.module c) modulePath) recorded
  end.

(** The key [buildDependencyOutput] files a row under. *)
Definition rowKey (row : ExportDependencyInfo.t) : string :=
  mkKey (ExportDependencyInfo.module row) (ExportDependencyInfo.name row).

(** What the loop of [buildDependencyOutput] maintains: the rows and the
    processed keys match one to one, and every row is the original export
    of a registry entry other than a wildcard sentinel. *)
Definition outputInvariant (host : Host) (registry : ExportRegistry)
    (basePath : string)
    (state : list ExportDependencyInfo.t * gset string) : Prop :=
  NoDup (rowKey <$> state.1) /\
  (forall key, key ∈ state.2 <-> key ∈ rowKey <$> state.1) /\
  (forall row, row ∈ state.1 ->
     exists entry resolved,
       entry ∈ JsMap.values registry /\
       ExportEntry.name entry ≠ "*" /\
       resolveExport host registry basePath (ExportEntry.module entry)
         (ExportEntry.name entry) = Some resolved /\
       ExportDependencyInfo.module row
       = ResolvedExport.originalModule resolved /\
       ExportDependencyInfo.name row = ResolvedExport.originalName resolved).

(** No character of the string is a colon. *)
Fixpoint noColon (s : string) : bool :=
  match s with
  | EmptyString => true
  | String c s' => negb (Ascii.eqb c ":"%char) && noColon s'
  end.

(** The value [getAllExportsFromModule] returns when called with the
    given [visited] set. *)
Definition getAllExportsWith (host : Host) (registry : ExportRegistry)
    (basePath : string) (visited : gset string) (modulePath : string)
  : JsMap ResolvedExport.t :=
  match getAllExportsFrom host registry basePath (enumerateFuel registry)
          modulePath visited with
  | Some (result, _) => result
  | None => []
  end.

(** Every character of the string passes the test. *)
Fixpoint allChars (test : ascii -> bool) (s : string) : bool :=
  match s with
  | EmptyString => true
  | String c s' => test c && allChars test s'
  end.

(** Every double quote of the string comes right after a backslash;
    [guarded] tells whether the character before the string is one. *)
Fixpoint quotesGuarded (guarded : bool) (s : string) : bool :=
  match s with
  | EmptyString => true
  | String c s' =>
      (if Ascii.eqb c quoteChar then guarded else true)
      && quotesGuarded (Ascii.eqb c backslashChar) s'
  end.

(** ** Sample projects

    Small projects under [/p], as the fact extractor presents them, for
    running the definitions. *)

Module Fixtures.
Definition host : Host := posixHost "/p".
Definition basePath : string := "/p".

(** [export { name as alias } from specifier] with one specifier; without
    [from] when [specifier] is [None]. *)
Definition exportNamed (name : string) (alias : option string)
    (specifier : option string) : ExportDeclaration.t :=
  {| ExportDeclaration.getModuleSpecifierValue := specifier;
     ExportDeclaration.isNamespaceExport := false;
     ExportDeclaration.getNamedExports :=
       [{| ExportSpecifier.getName := name;
           ExportSpecifier.getAliasNode := alias |}] |}.

(** [export * from specifier] *)
Definition exportStar (specifier : string) : ExportDeclaration.t :=
  {| ExportDeclaration.getModuleSpecifierValue := Some specifier;
     ExportDeclaration.isNamespaceExport := true;
     ExportDeclaration.getNamedExports := [] |}.

(** [import { name as alias } from specifier]; without [as] when [alias]
    is [None]. *)
Definition importNamedAs (name : string) (alias : option string)
    (specifier : string) : ImportDeclaration.t :=
  {| ImportDeclaration.getModuleSpecifierValue := specifier;
     ImportDeclaration.getDefaultImport := None;
     ImportDeclaration.getNamedImports :=
       [{| ImportSpecifier.getName := name;
           ImportSpecifier.getAliasNode := alias |}];
     ImportDeclaration.getNamespaceImport := None |}.

(** [import { name } from specifier] *)
Definition importNamed (name specifier : string) : ImportDeclaration.t :=
  importNamedAs name None specifier.

Definition sourceFile (project : list string) (filePath : string)
    (imports : list ImportDeclaration.t) (exports : list ExportDeclaration.t)
    (exported : list (string * list string)) : SourceFile.t :=
  {| SourceFile.getFilePath := filePath;
     SourceFile.getProject := project;
     SourceFile.getImportDeclarations := imports;
     SourceFile.getExportDeclarations := exports;
     SourceFile.getExportAssignments := 0;
     SourceFile.getExportedDeclarations := exported;
     SourceFile.getPropertyAccessExpressions := [] |}.

(** Three hops: [A.ts] has [export { foo } from './B'], [B.ts] has
    [export { foo } from './C'], [C.ts] has [export const foo]. *)
Definition chainProject : list string := ["/p/A.ts"; "/p/B.ts"; "/p/C.ts"].
Definition chainFiles : JsMap SourceFile.t :=
  [("/p/A.ts", sourceFile chainProject "/p/A.ts" []
                 [exportNamed "foo" None (Some "./B")] [("foo", ["/p/C.ts"])]);
   ("/p/B.ts", sourceFile chainProject "/p/B.ts" []
                 [exportNamed "foo" None (Some "./C")] [("foo", ["/p/C.ts"])]);
   ("/p/C.ts", sourceFile chainProject "/p/C.ts" [] []
                 [("foo", ["/p/C.ts"])])].
Definition chainRegistry : ExportRegistry :=
  buildExportRegistry host chainFiles basePath.

(** Three hops, the first a wildcard: [A.ts] has [export * from './B'],
    [B.ts] has [export { foo } from './C'], [C.ts] has [export const foo]. *)
Definition starChainFiles : JsMap SourceFile.t :=
  [("/p/A.ts", sourceFile chainProject "/p/A.ts" []
                 [exportStar "./B"] [("foo", ["/p/C.ts"])]);
   ("/p/B.ts", sourceFile chainProject "/p/B.ts" []
                 [exportNamed "foo" None (Some "./C")] [("foo", ["/p/C.ts"])]);
   ("/p/C.ts", sourceFile chainProject "/p/C.ts" [] []
                 [("foo", ["/p/C.ts"])])].
Definition starChainRegistry : ExportRegistry :=
  buildExportRegistry host starChainFiles basePath.

(** A cycle: [A.ts] has [export { X } from './B'], [B.ts] has
    [export { X } from './A']. *)
Definition cycleProject : list string := ["/p/A.ts"; "/p/B.ts"].
Definition cycleFiles : JsMap SourceFile.t :=
  [("/p/A.ts", sourceFile cycleProject "/p/A.ts" []
                 [exportNamed "X" None (Some "./B")] []);
   ("/p/B.ts", sourceFile cycleProject "/p/B.ts" []
                 [exportNamed "X" None (Some "./A")] [])].
Definition cycleRegistry : ExportRegistry :=
  buildExportRegistry host cycleFiles basePath.

(** Explicit against wildcard: [M.ts] has [export { foo } from './P'] and
    [export * from './Q']; [P.ts] and [Q.ts] both have [export const foo]. *)
Definition wildcardProject : list string := ["/p/M.ts"; "/p/P.ts"; "/p/Q.ts"].
Definition wildcardFiles : JsMap SourceFile.t :=
  [("/p/M.ts", sourceFile wildcardProject "/p/M.ts" []
                 [exportNamed "foo" None (Some "./P"); exportStar "./Q"]
                 [("foo", ["/p/P.ts"])]);
   ("/p/P.ts", sourceFile wildcardProject "/p/P.ts" [] []
                 [("foo", ["/p/P.ts"])]);
   ("/p/Q.ts", sourceFile wildcardProject "/p/Q.ts" [] []
                 [("foo", ["/p/Q.ts"])])].
Definition wildcardRegistry : ExportRegistry :=
  buildExportRegistry host wildcardFiles basePath.

(** A chain that comes back: [A.ts] has [export { X } from './B'] and
    [export const Y]; [B.ts] has [export { Y as X } from './A']; [C.ts]
    has [import { X } from './A']. *)
Definition backProject : list string := ["/p/A.ts"; "/p/B.ts"; "/p/C.ts"].
Definition backFiles : JsMap SourceFile.t :=
  [("/p/A.ts", sourceFile backProject "/p/A.ts" []
                 [exportNamed "X" None (Some "./B")]
                 [("X", ["/p/A.ts"]); ("Y", ["/p/A.ts"])]);
   ("/p/B.ts", sourceFile backProject "/p/B.ts" []
                 [exportNamed "Y" (Some "X") (Some "./A")]
                 [("X", ["/p/A.ts"])]);
   ("/p/C.ts", sourceFile backProject "/p/C.ts"
                 [importNamed "X" "./A"] [] [])].
Definition backRegistry : ExportRegistry :=
  buildExportRegistry host backFiles basePath.

(** A module importing its own export through a barrel: [A.ts] has
    [export const X] and [import { X as Mine } from './barrel'];
    [barrel.ts] has [export { X } from './A']. *)
Definition barrelProject : list string := ["/p/A.ts"; "/p/barrel.ts"].
Definition barrelFiles : JsMap SourceFile.t :=
  [("/p/A.ts", sourceFile barrelProject "/p/A.ts"
                 [importNamedAs "X" (Some "Mine") "./barrel"] []
                 [("X", ["/p/A.ts"])]);
   ("/p/barrel.ts", sourceFile barrelProject "/p/barrel.ts" []
                 [exportNamed "X" None (Some "./A")] [("X", ["/p/A.ts"])])].
Definition barrelRegistry : ExportRegistry :=
  buildExportRegistry host barrelFiles basePath.

(** One consumer, two paths: [A.ts] has [export const X], [barrel.ts] has
    [export { X } from './A'], and [D.ts] has [import { X } from './A'] and
    [import { X as X2 } from './barrel']. *)
Definition twiceProject : list string :=
  ["/p/A.ts"; "/p/barrel.ts"; "/p/D.ts"].
Definition twiceFiles : JsMap SourceFile.t :=
  [("/p/A.ts", sourceFile twiceProject "/p/A.ts" [] [] [("X", ["/p/A.ts"])]);
   ("/p/barrel.ts", sourceFile twiceProject "/p/barrel.ts" []
                 [exportNamed "X" None (Some "./A")] [("X", ["/p/A.ts"])]);
   ("/p/D.ts", sourceFile twiceProject "/p/D.ts"
                 [importNamed "X" "./A";
                  importNamedAs "X" (Some "X2") "./barrel"]
                 [] [])].
Definition twiceRegistry : ExportRegistry :=
  buildExportRegistry host twiceFiles basePath.
Definition twiceConsumers : ConsumerMap :=
  findConsumers host twiceFiles twiceRegistry basePath None.

(** A module importing from itself: [S.ts] has [export const X] and
    [import { X as Mine } from './S']. *)
Definition selfImport : ImportDeclaration.t :=
  importNamedAs "X" (Some "Mine") "./S".
Definition selfFile : SourceFile.t :=
  sourceFile ["/p/S.ts"] "/p/S.ts" [selfImport] [] [("X", ["/p/S.ts"])].

(** A package binding exported again: [M.ts] has
    [import { map } from 'lodash'] and [export { map as lodashMap }]. *)
Definition bindingFile : SourceFile.t :=
  sourceFile ["/p/M.ts"] "/p/M.ts" [importNamed "map" "lodash"]
    [exportNamed "map" (Some "lodashMap") None] [].

(** A barrel with a wildcard: [S.ts] has [export * from './P'] and
    [export { foo } from './Q']; [P.ts] has [export const foo] and
    [export const bar]; [Q.ts] has [export const foo]. *)
Definition barrelStarProject : list string := ["/p/S.ts"; "/p/P.ts"; "/p/Q.ts"].
Definition barrelStarFiles : JsMap SourceFile.t :=
  [("/p/S.ts", sourceFile barrelStarProject "/p/S.ts" []
                 [exportStar "./P"; exportNamed "foo" None (Some "./Q")]
                 [("foo", ["/p/Q.ts"]); ("bar", ["/p/P.ts"])]);
   ("/p/P.ts", sourceFile barrelStarProject "/p/P.ts" [] []
                 [("foo", ["/p/P.ts"]); ("bar", ["/p/P.ts"])]);
   ("/p/Q.ts", sourceFile barrelStarProject "/p/Q.ts" [] []
                 [("foo", ["/p/Q.ts"])])].
Definition barrelStarRegistry : ExportRegistry :=
  buildExportRegistry host barrelStarFiles basePath.

(** A default export: [D.ts] has [export default main] and
    [export function main]. *)
Definition defaultFile : SourceFile.t :=
  {| SourceFile.getFilePath := "/p/D.ts";
     SourceFile.getProject := ["/p/D.ts"];
     SourceFile.getImportDeclarations := [];
     SourceFile.getExportDeclarations := [];
     SourceFile.getExportAssignments := 1;
     SourceFile.getExportedDeclarations :=
       [("default", ["/p/D.ts"]); ("main", ["/p/D.ts"])];
     SourceFile.getPropertyAccessExpressions := [] |}.

(** A namespace import: [N.ts] has [import * as A from './A'] and the
    expressions [A.X] and [other.Y]. *)
Definition namespaceImport : ImportDeclaration.t :=
  {| ImportDeclaration.getModuleSpecifierValue := "./A";
     ImportDeclaration.getDefaultImport := None;
     ImportDeclaration.getNamedImports := [];
     ImportDeclaration.getNamespaceImport := Some "A" |}.
Definition namespaceFile : SourceFile.t :=
  {| SourceFile.getFilePath := "/p/N.ts";
     SourceFile.getProject := ["/p/N.ts"; "/p/A.ts"];
     SourceFile.getImportDeclarations := [namespaceImport];
     SourceFile.getExportDeclarations := [];
     SourceFile.getExportAssignments := 0;
     SourceFile.getExportedDeclarations := [];
     SourceFile.getPropertyAccessExpressions :=
       [{| PropertyAccessExpression.getExpression := Some "A";
           PropertyAccessExpression.getName := "X" |};
        {| PropertyAccessExpression.getExpression := Some "other";
           PropertyAccessExpression.getName := "Y" |}] |}.

(** Two wildcards: [M.ts] has [export * from './a'] and
    [export * from './b']. *)
Definition starsProject : list string := ["/p/M.ts"; "/p/a.ts"; "/p/b.ts"].
Definition starsFile : SourceFile.t :=
  sourceFile starsProject "/p/M.ts" [] [exportStar "./a"; exportStar "./b"] [].

(** Two wildcards and a named re-export: [M.ts] has
    [export * from './a'], [export * from './b'] and
    [export { foo } from './a']. *)
Definition starsNamedFile : SourceFile.t :=
  sourceFile starsProject "/p/M.ts" []
    [exportStar "./a"; exportStar "./b"; exportNamed "foo" None (Some "./a")]
    [].

(** A package re-export: [M.ts] has [export { map } from 'lodash']. *)
Definition packageFile : SourceFile.t :=
  sourceFile ["/p/M.ts"] "/p/M.ts" []
    [exportNamed "map" None (Some "lodash")] [].
End Fixtures.

(** * Properties *)

(** ** The POSIX host on sample paths *)

Example posix_relative_1 : Posix.relative "/w" "/p" "/p/B.ts" = "B.ts".
Proof. reflexivity. Qed.
Example posix_relative_2 : Posix.relative "/w" "/p/q" "/p/B.ts" = "../B.ts".
Proof. reflexivity. Qed.
Example posix_relative_3 : Posix.relative "/w" "/w" "lodash" = "lodash".
Proof. reflexivity. Qed.
Example posix_relative_4 : Posix.relative "/w/x" "/p" "lodash" = "../w/x/lodash".
Proof. reflexivity. Qed.
Example posix_dirname_1 : Posix.dirname "/p/sub/m.ts" = "/p/sub".
Proof. reflexivity. Qed.
Example posix_dirname_2 : Posix.dirname "/m.ts" = "/".
Proof. reflexivity. Qed.
Example posix_dirname_3 : Posix.dirname "m.ts" = ".".
Proof. reflexivity. Qed.
Example posix_resolve_1 : Posix.resolveAll "/w" ["/p/sub"; "../a"] = "/p/a".
Proof. reflexivity. Qed.
Example posix_resolve_2 : Posix.resolveAll "/w" ["/p"; "./a"] = "/p/a".
Proof. reflexivity. Qed.

(** ** Insertion-ordered maps *)

Section JsMapFacts.
Context {V : Type}.
Implicit Types (m : JsMap V) (k : string) (v : V).

Lemma get_set_eq k v m : JsMap.get k (JsMap.set k v m) = Some v.
Proof.
  induction m as [|[k' v'] m IH]; simpl.
  - by rewrite String.eqb_refl.
  - destruct (String.eqb k k') eqn:E; simpl; rewrite E; [done | apply IH].
Qed.

Lemma get_set_ne k k' v m :
  k ≠ k' -> JsMap.get k' (JsMap.set k v m) = JsMap.get k' m.
Proof.
  intros Hne. induction m as [|[k1 v1] m IH]; simpl.
  - destruct (String.eqb k' k) eqn:E; [|done].
    apply String.eqb_eq in E. congruence.
  - destruct (String.eqb k k1) eqn:E; simpl.
    + apply String.eqb_eq in E. subst k1.
      destruct (String.eqb k' k) eqn:E'; [|done].
      apply String.eqb_eq in E'. congruence.
    + by rewrite IH.
Qed.

Lemma get_set k k' v m :
  JsMap.get k' (JsMap.set k v m)
  = if String.eqb k' k then Some v else JsMap.get k' m.
Proof.
  destruct (String.eqb k' k) eqn:E.
  - apply String.eqb_eq in E. subst. apply get_set_eq.
  - apply String.eqb_neq in E. by apply get_set_ne.
Qed.

Lemma has_true k m : JsMap.has k m = true <-> is_Some (JsMap.get k m).
Proof.
  unfold JsMap.has. destruct (JsMap.get k m); split; intros H;
    try done; try by eexists.
Qed.

Lemma has_false k m : JsMap.has k m = false <-> JsMap.get k m = None.
Proof. unfold JsMap.has. by destruct (JsMap.get k m). Qed.

Lemma get_Some_key k v m : JsMap.get k m = Some v -> k ∈ JsMap.keys m.
Proof.
  induction m as [|[k' v'] m IH]; simpl; [done|].
  destruct (String.eqb k k') eqn:E.
  - apply String.eqb_eq in E. subst. intros _. apply list_elem_of_here.
  - intros H. apply list_elem_of_further. by apply IH.
Qed.

Lemma get_None_key k m : JsMap.get k m = None -> k ∉ JsMap.keys m.
Proof.
  induction m as [|[k' v'] m IH]; simpl.
  - intros _ H. by apply not_elem_of_nil in H.
  - destruct (String.eqb k k') eqn:E; [done|].
    apply String.eqb_neq in E. intros H Hin.
    apply elem_of_cons in Hin as [?|Hin]; [done|]. by apply IH.
Qed.

Lemma get_Some_value k v m : JsMap.get k m = Some v -> v ∈ JsMap.values m.
Proof.
  induction m as [|[k' v'] m IH]; simpl; [done|].
  destruct (String.eqb k k').
  - intros [= ->]. apply list_elem_of_here.
  - intros H. apply list_elem_of_further. by apply IH.
Qed.

Lemma keys_set k v m :
  JsMap.keys (JsMap.set k v m)
  = if JsMap.has k m then JsMap.keys m else (JsMap.keys m ++ [k])%list.
Proof.
  unfold JsMap.has.
  induction m as [|[k' v'] m IH]; simpl; [done|].
  destruct (String.eqb k k') eqn:E; simpl; [done|].
  unfold JsMap.keys in *. rewrite IH.
  by destruct (JsMap.get k m).
Qed.

(** A key is held at most once, whatever is [set]. *)
Lemma keys_set_NoDup k v m :
  NoDup (JsMap.keys m) -> NoDup (JsMap.keys (JsMap.set k v m)).
Proof.
  intros Hnd. rewrite keys_set.
  destruct (JsMap.has k m) eqn:E; [done|].
  apply has_false, get_None_key in E.
  apply NoDup_app. split_and!; [done| |apply NoDup_singleton].
  intros x Hx Hx'. apply list_elem_of_singleton in Hx'. by subst.
Qed.

Lemma length_set k v m : length m <= length (JsMap.set k v m).
Proof.
  induction m as [|[k' v'] m IH]; simpl; [lia|].
  destruct (String.eqb k k'); simpl; lia.
Qed.
End JsMapFacts.

(** ** The resolver terminates *)

Lemma unvisited_add_le (l : list string) (k : string) (visited : gset string) :
  unvisited l ({[k]} ∪ visited) <= unvisited l visited.
Proof.
  unfold unvisited. induction l as [|x l IH]; [done|].
  rewrite !filter_cons.
  destruct (decide (x ∉ {[k]} ∪ visited)) as [Hx|Hx];
    destruct (decide (x ∉ visited)) as [Hx'|Hx']; simpl; try lia.
  exfalso. apply Hx'. intros ?. apply Hx. set_solver.
Qed.

Lemma unvisited_add_lt (l : list string) (k : string) (visited : gset string) :
  k ∈ l -> k ∉ visited ->
  unvisited l ({[k]} ∪ visited) < unvisited l visited.
Proof.
  unfold unvisited. induction l as [|x l IH]; intros Hin Hk.
  - by apply not_elem_of_nil in Hin.
  - revert IH. rewrite !filter_cons. intros IH.
    pose proof (unvisited_add_le l k visited) as Hle. unfold unvisited in Hle.
    destruct (decide (x = k)) as [->|Hne].
    + destruct (decide (k ∉ {[k]} ∪ visited)) as [Hx|Hx]; [set_solver|].
      destruct (decide (k ∉ visited)); [simpl; lia | done].
    + apply elem_of_cons in Hin as [?|Hin]; [congruence|].
      specialize (IH Hin Hk).
      destruct (decide (x ∉ {[k]} ∪ visited)) as [Hx|Hx];
        destruct (decide (x ∉ visited)) as [Hx'|Hx']; simpl; try lia.
      exfalso. apply Hx'. intros ?. apply Hx. set_solver.
Qed.

Lemma unvisited_le_length (l : list string) (visited : gset string) :
  unvisited l visited <= length l.
Proof. unfold unvisited. apply length_filter. Qed.

Lemma length_omap_le {A B} (f : A -> option B) (l : list A) :
  length (omap f l) <= length l.
Proof.
  induction l as [|x l IH]; [done|].
  cbn. destruct (f x); cbn; lia.
Qed.

Section ResolverFacts.
Variable host : Host.
Variable registry : ExportRegistry.
Variable basePath : string.

Local Abbreviation resolveFrom := (resolveExportFrom host registry basePath).
Local Abbreviation srcModules := (sourceModulesOf host registry basePath).
Local Abbreviation srcNames := (sourceNamesOf registry).
Local Abbreviation candidates := (candidateKeys host registry basePath).

(** More fuel never changes an answer already obtained. *)
Lemma resolveExportFrom_mono fuel fuel' modulePath exportName visited x :
  resolveFrom fuel modulePath exportName visited = Some x ->
  fuel <= fuel' ->
  resolveFrom fuel' modulePath exportName visited = Some x.
Proof.
  revert fuel' modulePath exportName visited x.
  induction fuel as [|fuel IH]; intros fuel' m n visited x H Hle;
    [done|].
  destruct fuel' as [|fuel']; [lia|].
  assert (fuel <= fuel') as Hle' by lia.
  simpl in *. destruct (decide _); [done|].
  destruct (JsMap.get (mkKey m n) registry) as [entry|].
  - destruct (negb (ExportEntry.isReExport entry)); [done|].
    destruct (truthy (ExportEntry.sourceModule entry)) as [src|]; [|done].
    unfold throughModule in *.
    destruct (resolveFrom fuel _ _ _) as [r|] eqn:E; [|done].
    by rewrite (IH _ _ _ _ _ E Hle').
  - unfold resolveFromStarExports in *.
    destruct (JsMap.get (mkKey m "*") registry) as [star|]; [|done].
    destruct (truthy (ExportEntry.sourceModule star)) as [src|]; [|done].
    unfold throughModule in *.
    destruct (resolveFrom fuel _ _ _) as [r|] eqn:E; [|done].
    by rewrite (IH _ _ _ _ _ E Hle').
Qed.

Lemma source_module_candidate key entry src :
  JsMap.get key registry = Some entry ->
  truthy (ExportEntry.sourceModule entry) = Some src ->
  relative host basePath src ∈ srcModules.
Proof.
  intros Hget Hsrc. unfold sourceModulesOf.
  apply list_elem_of_omap. exists entry. split.
  - by eapply get_Some_value.
  - by rewrite Hsrc.
Qed.

Lemma source_name_candidate key entry exportName name :
  JsMap.get key registry = Some entry ->
  name ∈ srcNames exportName ->
  orElse (ExportEntry.sourceName entry) name ∈ srcNames exportName.
Proof.
  intros Hget Hin. unfold orElse.
  destruct (truthy (ExportEntry.sourceName entry)) as [s|] eqn:E; [|done].
  unfold sourceNamesOf. apply list_elem_of_further.
  apply list_elem_of_omap. exists entry. split; [|done].
  by eapply get_Some_value.
Qed.

Lemma candidate_key exportName m n :
  m ∈ srcModules -> n ∈ srcNames exportName ->
  mkKey m n ∈ candidates exportName.
Proof.
  intros Hm Hn. unfold candidateKeys.
  apply list_elem_of_fmap. exists (m, n). split; [done|].
  apply list_elem_of_In, in_prod; by apply list_elem_of_In.
Qed.

Lemma candidates_length exportName :
  length (candidates exportName) <= length registry * S (length registry).
Proof.
  unfold candidateKeys, sourceModulesOf, sourceNamesOf.
  rewrite length_fmap, length_prod. simpl.
  pose proof (length_omap_le
    (fun entry => relative host basePath <$>
                  truthy (ExportEntry.sourceModule entry))
    (JsMap.values registry)) as H1.
  pose proof (length_omap_le
    (fun entry => truthy (ExportEntry.sourceName entry))
    (JsMap.values registry)) as H2.
  unfold JsMap.values in *. rewrite length_fmap in H1, H2.
  apply Nat.mul_le_mono; lia.
Qed.

(** Inside the candidate keys, a call answers as soon as the fuel exceeds
    the number of candidate keys not yet visited. *)
Lemma resolveExportFrom_candidates fuel exportName m n visited :
  m ∈ srcModules -> n ∈ srcNames exportName ->
  unvisited (candidates exportName) visited < fuel ->
  is_Some (resolveFrom fuel m n visited).
Proof.
  revert m n visited.
  induction fuel as [|fuel IH]; intros m n visited Hm Hn Hlt; [lia|].
  simpl. destruct (decide _) as [|Hnew]; [by eexists|].
  pose proof (unvisited_add_lt _ _ _ (candidate_key _ _ _ Hm Hn) Hnew) as Hdec.
  assert (unvisited (candidates exportName) ({[mkKey m n]} ∪ visited) < fuel)
    as Hfuel by lia.
  destruct (JsMap.get (mkKey m n) registry) as [entry|] eqn:Hget.
  - destruct (negb (ExportEntry.isReExport entry)); [by eexists|].
    destruct (truthy (ExportEntry.sourceModule entry)) as [src|] eqn:Hsrc;
      [|by eexists].
    destruct (IH (relative host basePath src)
                 (orElse (ExportEntry.sourceName entry) n)
                 ({[mkKey m n]} ∪ visited)) as [[[r|] v'] ->];
      eauto using source_module_candidate, source_name_candidate.
  - unfold resolveFromStarExports.
    destruct (JsMap.get (mkKey m "*") registry) as [star|] eqn:Hstar;
      [|by eexists].
    destruct (truthy (ExportEntry.sourceModule star)) as [src|] eqn:Hsrc;
      [|by eexists].
    destruct (IH (relative host basePath src) n
                 ({[mkKey m n]} ∪ visited)) as [[[r|] v'] ->];
      eauto using source_module_candidate.
Qed.

(** From any visited set, [resolveFuel] is enough for any query. *)
Lemma resolveExportFrom_total modulePath exportName visited :
  is_Some (resolveFrom (resolveFuel registry) modulePath exportName visited).
Proof.
  unfold resolveFuel.
  remember (S (length registry * S (length registry))) as fuel eqn:Efuel.
  simpl.
  destruct (decide _) as [|Hnew]; [by eexists|].
  assert (exportName ∈ srcNames exportName) as Hn
    by apply list_elem_of_here.
  assert (unvisited (candidates exportName)
            ({[mkKey modulePath exportName]} ∪ visited) < fuel) as Hfuel.
  { pose proof (unvisited_le_length (candidates exportName)
                  ({[mkKey modulePath exportName]} ∪ visited)).
    pose proof (candidates_length exportName). lia. }
  destruct (JsMap.get (mkKey modulePath exportName) registry)
    as [entry|] eqn:Hget.
  - destruct (negb (ExportEntry.isReExport entry)); [by eexists|].
    destruct (truthy (ExportEntry.sourceModule entry)) as [src|] eqn:Hsrc;
      [|by eexists].
    destruct (resolveExportFrom_candidates fuel exportName
                (relative host basePath src)
                (orElse (ExportEntry.sourceName entry) exportName)
                ({[mkKey modulePath exportName]} ∪ visited))
      as [[[r|] v'] ->];
      eauto using source_module_candidate, source_name_candidate.
  - unfold resolveFromStarExports.
    destruct (JsMap.get (mkKey modulePath "*") registry) as [star|] eqn:Hstar;
      [|by eexists].
    destruct (truthy (ExportEntry.sourceModule star)) as [src|] eqn:Hsrc;
      [|by eexists].
    destruct (resolveExportFrom_candidates fuel exportName
                (relative host basePath src) exportName
                ({[mkKey modulePath exportName]} ∪ visited))
      as [[[r|] v'] ->];
      eauto using source_module_candidate.
Qed.

(** Any run that answers agrees with the run on [resolveFuel]. *)
Lemma resolveExportFrom_stable fuel modulePath exportName visited x :
  resolveFrom fuel modulePath exportName visited = Some x ->
  resolveFrom (resolveFuel registry) modulePath exportName visited = Some x.
Proof.
  intros H.
  destruct (resolveExportFrom_total modulePath exportName visited)
    as [y Hy].
  destruct (Nat.le_ge_cases fuel (resolveFuel registry)) as [Hle|Hle].
  - by eapply resolveExportFrom_mono.
  - pose proof (resolveExportFrom_mono _ _ _ _ _ _ Hy Hle). congruence.
Qed.
End ResolverFacts.

(** ** Equations of the resolver *)

Section ResolverEquations.
Variable host : Host.
Variable registry : ExportRegistry.
Variable basePath : string.

Local Abbreviation resolveFrom := (resolveExportFrom host registry basePath).
Local Abbreviation resolveWith := (resolveExportWith host registry basePath).

Lemma resolveExport_with modulePath exportName :
  resolveExport host registry basePath modulePath exportName
  = resolveWith ∅ modulePath exportName.
Proof. reflexivity. Qed.

Lemma resolveExportWith_run fuel visited modulePath exportName r visited' :
  resolveFrom fuel modulePath exportName visited = Some (r, visited') ->
  resolveWith visited modulePath exportName = r.
Proof.
  intros H. unfold resolveExportWith.
  by rewrite (resolveExportFrom_stable _ _ _ _ _ _ _ _ H).
Qed.

(** Cycle guard: a key already visited is unresolved. *)
Lemma resolveExportWith_visited visited modulePath exportName :
  mkKey modulePath exportName ∈ visited ->
  resolveWith visited modulePath exportName = None.
Proof.
  intros Hin. apply (resolveExportWith_run 1 _ _ _ _ visited).
  simpl. by rewrite decide_True.
Qed.

(** A direct export resolves to itself. *)
Lemma resolveExportWith_direct visited modulePath exportName entry :
  mkKey modulePath exportName ∉ visited ->
  JsMap.get (mkKey modulePath exportName) registry = Some entry ->
  ExportEntry.isReExport entry = false ->
  resolveWith visited modulePath exportName
  = Some {| ResolvedExport.originalModule := modulePath;
            ResolvedExport.originalName := exportName;
            ResolvedExport.reExportChain := [] |}.
Proof.
  intros Hnew Hget Hdirect.
  apply (resolveExportWith_run 1 _ _ _ _
           ({[mkKey modulePath exportName]} ∪ visited)).
  simpl. rewrite decide_False by done. by rewrite Hget, Hdirect.
Qed.

(** A re-export follows its source, the current key being visited. *)
Lemma resolveExportWith_reExport visited modulePath exportName entry src :
  mkKey modulePath exportName ∉ visited ->
  JsMap.get (mkKey modulePath exportName) registry = Some entry ->
  ExportEntry.isReExport entry = true ->
  truthy (ExportEntry.sourceModule entry) = Some src ->
  resolveWith visited modulePath exportName
  = prependChain modulePath <$>
    resolveWith ({[mkKey modulePath exportName]} ∪ visited)
      (relative host basePath src)
      (orElse (ExportEntry.sourceName entry) exportName).
Proof.
  intros Hnew Hget Hre Hsrc.
  destruct (resolveExportFrom_total host registry basePath
              (relative host basePath src)
              (orElse (ExportEntry.sourceName entry) exportName)
              ({[mkKey modulePath exportName]} ∪ visited)) as [[r v'] Hr].
  rewrite (resolveExportWith_run _ _ _ _ _ _ Hr).
  apply (resolveExportWith_run (S (resolveFuel registry)) _ _ _ _
           v').
  remember (resolveFuel registry) as fuel.
  simpl. rewrite decide_False by done. rewrite Hget, Hre, Hsrc. simpl.
  rewrite Hr. by destruct r.
Qed.

(** A re-export without a source module is unresolved. *)
Lemma resolveExportWith_noSource visited modulePath exportName entry :
  JsMap.get (mkKey modulePath exportName) registry = Some entry ->
  ExportEntry.isReExport entry = true ->
  truthy (ExportEntry.sourceModule entry) = None ->
  resolveWith visited modulePath exportName = None.
Proof.
  intros Hget Hre Hsrc.
  destruct (decide (mkKey modulePath exportName ∈ visited)) as [Hin|Hnew];
    [by apply resolveExportWith_visited|].
  apply (resolveExportWith_run 1 _ _ _ _
           ({[mkKey modulePath exportName]} ∪ visited)).
  simpl. rewrite decide_False by done. by rewrite Hget, Hre, Hsrc.
Qed.

(** Without an entry of its own, a name follows the module's wildcard. *)
Lemma resolveExportWith_star visited modulePath exportName star src :
  mkKey modulePath exportName ∉ visited ->
  JsMap.get (mkKey modulePath exportName) registry = None ->
  JsMap.get (mkKey modulePath "*") registry = Some star ->
  truthy (ExportEntry.sourceModule star) = Some src ->
  resolveWith visited modulePath exportName
  = prependChain modulePath <$>
    resolveWith ({[mkKey modulePath exportName]} ∪ visited)
      (relative host basePath src) exportName.
Proof.
  intros Hnew Hget Hstar Hsrc.
  destruct (resolveExportFrom_total host registry basePath
              (relative host basePath src) exportName
              ({[mkKey modulePath exportName]} ∪ visited)) as [[r v'] Hr].
  rewrite (resolveExportWith_run _ _ _ _ _ _ Hr).
  apply (resolveExportWith_run (S (resolveFuel registry)) _ _ _ _ v').
  remember (resolveFuel registry) as fuel.
  simpl. rewrite decide_False by done. rewrite Hget.
  unfold resolveFromStarExports. rewrite Hstar, Hsrc. simpl.
  rewrite Hr. by destruct r.
Qed.

Lemma resolveExportWith_noStar visited modulePath exportName :
  JsMap.get (mkKey modulePath exportName) registry = None ->
  (forall star, JsMap.get (mkKey modulePath "*") registry = Some star ->
                truthy (ExportEntry.sourceModule star) = None) ->
  resolveWith visited modulePath exportName = None.
Proof.
  intros Hget Hstar.
  destruct (decide (mkKey modulePath exportName ∈ visited)) as [Hin|Hnew];
    [by apply resolveExportWith_visited|].
  apply (resolveExportWith_run 1 _ _ _ _
           ({[mkKey modulePath exportName]} ∪ visited)).
  simpl. rewrite decide_False by done. rewrite Hget.
  unfold resolveFromStarExports.
  destruct (JsMap.get (mkKey modulePath "*") registry) as [star|] eqn:E;
    [|done].
  by rewrite (Hstar _ eq_refl).
Qed.

(** The set a call leaves behind holds the set it was given and the key
    it was made on. *)
Lemma resolveExportFrom_visited fuel modulePath exportName visited r visited' :
  resolveFrom fuel modulePath exportName visited = Some (r, visited') ->
  mkKey modulePath exportName ∈ visited' /\ visited ⊆ visited'.
Proof.
  revert modulePath exportName visited r visited'.
  induction fuel as [|fuel IH]; intros m n visited r visited' H; [done|].
  simpl in H. destruct (decide _) as [Hin|Hnew].
  { injection H as <- <-. done. }
  assert (forall m' n' call,
            throughModule m call = Some (r, visited') ->
            call = resolveFrom fuel m' n' ({[mkKey m n]} ∪ visited) ->
            mkKey m n ∈ visited' /\ visited ⊆ visited') as Hrec.
  { intros m' n' call Hcall ->. unfold throughModule in Hcall.
    destruct (resolveFrom fuel m' n' _) as [[[r0|] v0]|] eqn:E; [| |done];
      injection Hcall as <- <-;
      destruct (IH _ _ _ _ _ E) as [_ Hsub]; set_solver. }
  destruct (JsMap.get (mkKey m n) registry) as [entry|].
  - destruct (negb (ExportEntry.isReExport entry)).
    { injection H as <- <-. set_solver. }
    destruct (truthy (ExportEntry.sourceModule entry)) as [src|].
    + eapply Hrec; [exact H | reflexivity].
    + injection H as <- <-. set_solver.
  - unfold resolveFromStarExports in H.
    destruct (JsMap.get (mkKey m "*") registry) as [star|].
    2:{ injection H as <- <-. set_solver. }
    destruct (truthy (ExportEntry.sourceModule star)) as [src|].
    + eapply Hrec; [exact H | reflexivity].
    + injection H as <- <-. set_solver.
Qed.
End ResolverEquations.

(** ** Properties of resolution *)

Section ResolverProperties.
Variable host : Host.
Variable registry : ExportRegistry.
Variable basePath : string.

Local Abbreviation resolveFrom := (resolveExportFrom host registry basePath).
Local Abbreviation resolveWith := (resolveExportWith host registry basePath).
Local Abbreviation resolveTop := (resolveExport host registry basePath).

Lemma resolveExportWith_declares visited modulePath exportName :
  mkKey modulePath exportName ∉ visited ->
  declares registry modulePath exportName ->
  resolveWith visited modulePath exportName
  = Some {| ResolvedExport.originalModule := modulePath;
            ResolvedExport.originalName := exportName;
            ResolvedExport.reExportChain := [] |}.
Proof.
  intros Hnew (entry & Hget & Hdirect).
  by eapply resolveExportWith_direct.
Qed.

Lemma resolveExportWith_reExportsFrom visited m n m' n' :
  mkKey m n ∉ visited ->
  reExportsFrom host registry basePath m n m' n' ->
  resolveWith visited m n
  = prependChain m <$> resolveWith ({[mkKey m n]} ∪ visited) m' n'.
Proof.
  intros Hnew (entry & src & Hget & Hre & Hsrc & <- & <-).
  by eapply resolveExportWith_reExport.
Qed.

(** A declaring key and a re-exporting key are different keys. *)
Lemma declares_not_reExportsFrom m n m' n' m'' n'' :
  declares registry m n ->
  reExportsFrom host registry basePath m' n' m'' n'' ->
  mkKey m n ≠ mkKey m' n'.
Proof.
  intros (e & Hget & Hdirect) (e' & src & Hget' & Hre & _) Heq.
  rewrite Heq in Hget. congruence.
Qed.

(** Re-exports are functional in the key. *)
Lemma reExportsFrom_same_key m n m1 n1 m' n' m2 n2 :
  reExportsFrom host registry basePath m n m1 n1 ->
  reExportsFrom host registry basePath m' n' m2 n2 ->
  mkKey m n = mkKey m' n' ->
  m1 = m2 /\ (n1 = n2 \/ (n1 = n /\ n2 = n')).
Proof.
  intros (e & src & Hget & _ & Hsrc & <- & <-)
         (e' & src' & Hget' & _ & Hsrc' & <- & <-) Heq.
  rewrite Heq in Hget. assert (e = e') as <- by congruence.
  assert (src = src') as <- by congruence. split; [done|].
  unfold orElse. destruct (truthy (ExportEntry.sourceName e)); auto.
Qed.

(** Whatever resolves, resolves to a key the registry holds as a direct
    declaration. *)
Lemma resolveExportFrom_original fuel m n visited resolved visited' :
  resolveFrom fuel m n visited = Some (Some resolved, visited') ->
  declares registry (ResolvedExport.originalModule resolved)
    (ResolvedExport.originalName resolved).
Proof.
  revert m n visited resolved visited'.
  induction fuel as [|fuel IH]; intros m n visited r v' H; [done|].
  simpl in H. destruct (decide _); [done|].
  assert (forall m' n' visited0,
            throughModule m (resolveFrom fuel m' n' visited0)
            = Some (Some r, v') ->
            declares registry (ResolvedExport.originalModule r)
              (ResolvedExport.originalName r)) as Hrec.
  { intros m' n' visited0 Hcall. unfold throughModule in Hcall.
    destruct (resolveFrom fuel m' n' visited0) as [[[r0|] v0]|] eqn:E;
      try done.
    injection Hcall as <- <-. simpl. by eapply IH. }
  destruct (JsMap.get (mkKey m n) registry) as [entry|] eqn:Hget.
  - destruct (ExportEntry.isReExport entry) eqn:Hre; simpl in H.
    + destruct (truthy (ExportEntry.sourceModule entry)); [|done].
      by eapply Hrec.
    + injection H as <- <-. simpl. by exists entry.
  - unfold resolveFromStarExports in H.
    destruct (JsMap.get (mkKey m "*") registry) as [star|]; [|done].
    destruct (truthy (ExportEntry.sourceModule star)); [|done].
    by eapply Hrec.
Qed.

Lemma resolveExport_original m n resolved :
  resolveTop m n = Some resolved ->
  declares registry (ResolvedExport.originalModule resolved)
    (ResolvedExport.originalName resolved).
Proof.
  unfold resolveExport. intros H.
  destruct (resolveFrom (resolveFuel registry) m n ∅) as [[r v']|] eqn:E;
    [|done].
  subst r. by eapply resolveExportFrom_original.
Qed.
End ResolverProperties.

(** *** Idempotence and the empty chain *)

(** C9. A key the registry holds as a direct declaration resolves to
    itself with an empty chain; a successful resolution has an empty chain
    exactly when the queried key is such a direct declaration; and what a
    resolution returns as the original export is a direct declaration,
    which resolves to itself with an empty chain. *)
Theorem resolveExport_idempotent (host : Host) (registry : ExportRegistry)
    (basePath modulePath exportName : string) :
  (declares registry modulePath exportName ->
   resolveExport host registry basePath modulePath exportName
   = Some {| ResolvedExport.originalModule := modulePath;
             ResolvedExport.originalName := exportName;
             ResolvedExport.reExportChain := [] |}) /\
  (forall resolved,
     resolveExport host registry basePath modulePath exportName
     = Some resolved ->
     (ResolvedExport.reExportChain resolved = [] <->
      declares registry modulePath exportName) /\
     resolveExport host registry basePath
       (ResolvedExport.originalModule resolved)
       (ResolvedExport.originalName resolved)
     = Some {| ResolvedExport.originalModule :=
                 ResolvedExport.originalModule resolved;
               ResolvedExport.originalName :=
                 ResolvedExport.originalName resolved;
               ResolvedExport.reExportChain := [] |}).
Proof.
  assert (forall m n, declares registry m n ->
            resolveExport host registry basePath m n
            = Some {| ResolvedExport.originalModule := m;
                      ResolvedExport.originalName := n;
                      ResolvedExport.reExportChain := [] |}) as Hdirect.
  { intros m n Hd. rewrite resolveExport_with.
    apply resolveExportWith_declares; [set_solver | done]. }
  split; [apply Hdirect|].
  intros resolved Hres. split.
  - split.
    + intros Hnil. rewrite resolveExport_with in Hres.
      destruct (JsMap.get (mkKey modulePath exportName) registry)
        as [entry|] eqn:Hget.
      * destruct (ExportEntry.isReExport entry) eqn:Hre; [|by exists entry].
        destruct (truthy (ExportEntry.sourceModule entry)) as [src|] eqn:Hsrc.
        -- rewrite (resolveExportWith_reExport _ _ _ _ _ _ _ _
                      (not_elem_of_empty _) Hget Hre Hsrc) in Hres.
           destruct (resolveExportWith _ _ _ _ _ _); [|done].
           injection Hres as <-. done.
        -- by rewrite (resolveExportWith_noSource _ _ _ _ _ _ _
                         Hget Hre Hsrc) in Hres.
      * destruct (JsMap.get (mkKey modulePath "*") registry)
          as [star|] eqn:Hstar.
        -- destruct (truthy (ExportEntry.sourceModule star))
             as [src|] eqn:Hsrc.
           ++ rewrite (resolveExportWith_star _ _ _ _ _ _ _ _
                         (not_elem_of_empty _) Hget Hstar Hsrc) in Hres.
              destruct (resolveExportWith _ _ _ _ _ _); [|done].
              injection Hres as <-. done.
           ++ rewrite resolveExportWith_noStar in Hres; [done|done|].
              intros star' Hstar'. congruence.
        -- rewrite resolveExportWith_noStar in Hres; [done|done|].
           intros star' Hstar'. congruence.
    + intros Hd. rewrite (Hdirect _ _ Hd) in Hres. by injection Hres as <-.
  - apply Hdirect. by eapply resolveExport_original.
Qed.

Lemma resolveExport_idempotent_witness :
  resolveExport Fixtures.host Fixtures.chainRegistry Fixtures.basePath
    "C.ts" "foo"
  = Some {| ResolvedExport.originalModule := "C.ts";
            ResolvedExport.originalName := "foo";
            ResolvedExport.reExportChain := [] |}.
Proof.
  apply (proj1 (resolveExport_idempotent Fixtures.host Fixtures.chainRegistry
                  Fixtures.basePath "C.ts" "foo")).
  eexists. split; reflexivity.
Defined.

(** *** Chain ordering *)

Lemma length_append (s t : string) :
  String.length (s +:+ t) = String.length s + String.length t.
Proof.
  induction s as [|c s IH]; [done|].
  change (String c s +:+ t) with (String c (s +:+ t)).
  cbn [String.length]. by rewrite IH.
Qed.

Lemma append_inv_tail (a b t : string) : a +:+ t = b +:+ t -> a = b.
Proof.
  revert b. induction a as [|c a IH]; intros [|d b] H.
  - done.
  - apply (f_equal String.length) in H. rewrite !length_append in H.
    cbn [String.length] in H. lia.
  - apply (f_equal String.length) in H. rewrite !length_append in H.
    cbn [String.length] in H. lia.
  - change (String c a +:+ t) with (String c (a +:+ t)) in H.
    change (String d b +:+ t) with (String d (b +:+ t)) in H.
    injection H as -> H. by rewrite (IH _ H).
Qed.

Lemma mkKey_same_name (m m' n : string) : mkKey m n = mkKey m' n -> m = m'.
Proof. unfold mkKey. apply append_inv_tail. Qed.

Section Hops.
Variable host : Host.
Variable registry : ExportRegistry.
Variable basePath : string.

(** A hop is one recursive call of the resolver, which puts the module
    in front of the chain. *)
Lemma resolveExportWith_hop visited m n m' n' :
  mkKey m n ∉ visited ->
  reExportHop host registry basePath m n m' n' ->
  resolveExportWith host registry basePath visited m n
  = prependChain m <$>
    resolveExportWith host registry basePath ({[mkKey m n]} ∪ visited) m' n'.
Proof.
  intros Hnew [Hexplicit|(Hnone & (star & src & Hstar & Hsrc & <-) & ->)].
  - by apply resolveExportWith_reExportsFrom.
  - by eapply resolveExportWith_star.
Qed.

Lemma declares_not_hop m n m' n' m'' n'' :
  declares registry m n ->
  reExportHop host registry basePath m' n' m'' n'' ->
  mkKey m n ≠ mkKey m' n'.
Proof.
  intros Hd [Hexplicit|(Hnone & _)].
  - by eapply declares_not_reExportsFrom.
  - destruct Hd as (e & Hget & _). intros Heq. rewrite Heq in Hget. congruence.
Qed.

Lemma wildcardFrom_same m m1 m2 :
  wildcardFrom host registry basePath m m1 ->
  wildcardFrom host registry basePath m m2 -> m1 = m2.
Proof.
  intros (star & src & Hstar & Hsrc & <-) (star' & src' & Hstar' & Hsrc' & <-).
  congruence.
Qed.
End Hops.

(** C7. When [A] re-exports a name from [B], [B] re-exports it from [C]
    and [C] declares it, resolving from [A] gives the original export in
    [C] with the chain [A; B], outermost first and without [C]. Each of
    the two hops is a re-export by name, which may rename ([x] in [A],
    [y] in [B], [z] in [C]), or an [export * from] of a module without an
    entry of its own for the name. *)
Theorem resolveExport_three_hops (host : Host) (registry : ExportRegistry)
    (basePath A B C x y z : string) :
  reExportHop host registry basePath A x B y ->
  reExportHop host registry basePath B y C z ->
  declares registry C z ->
  resolveExport host registry basePath A x
  = Some {| ResolvedExport.originalModule := C;
            ResolvedExport.originalName := z;
            ResolvedExport.reExportChain := [A; B] |}.
Proof.
  intros HA HB HC.
  pose proof (declares_not_hop _ _ _ _ _ _ _ _ _ HC HA) as HCA.
  pose proof (declares_not_hop _ _ _ _ _ _ _ _ _ HC HB) as HCB.
  assert (mkKey B y ≠ mkKey A x) as HBA.
  { intros Heq.
    destruct HA as [HA|(HAnone & HAstar & ->)],
             HB as [HB|(HBnone & HBstar & ->)].
    - destruct (reExportsFrom_same_key _ _ _ _ _ _ _ _ _ _ _ HB HA Heq)
        as [-> Hn].
      apply HCB. destruct Hn as [->|[-> _]]; done.
    - destruct HA as (e & src & Hget & _). rewrite <- Heq in Hget. congruence.
    - destruct HB as (e & src & Hget & _). rewrite Heq in Hget. congruence.
    - apply mkKey_same_name in Heq as ->.
      rewrite (wildcardFrom_same _ _ _ _ _ _ HBstar HAstar) in HC.
      destruct HC as (e & Hget & _). congruence. }
  rewrite resolveExport_with.
  rewrite (resolveExportWith_hop _ _ _ _ A x B y); [|set_solver|done].
  rewrite (resolveExportWith_hop _ _ _ _ B y C z); [|set_solver|done].
  rewrite resolveExportWith_declares; [done|set_solver|done].
Qed.

(** The chain [A.ts -*-> B.ts -> C.ts], whose first hop is a wildcard. *)
Lemma resolveExport_three_hops_witness :
  resolveExport Fixtures.host Fixtures.starChainRegistry Fixtures.basePath
    "A.ts" "foo"
  = Some {| ResolvedExport.originalModule := "C.ts";
            ResolvedExport.originalName := "foo";
            ResolvedExport.reExportChain := ["A.ts"; "B.ts"] |}.
Proof.
  apply (resolveExport_three_hops Fixtures.host Fixtures.starChainRegistry
           Fixtures.basePath "A.ts" "B.ts" "C.ts" "foo" "foo" "foo").
  - right. split_and!; [reflexivity| |reflexivity].
    do 2 eexists. repeat split; reflexivity.
  - left. do 2 eexists. repeat split; reflexivity.
  - eexists. split; reflexivity.
Defined.

(** *** Wildcard precedence *)

(** C6. A key with an entry of its own is resolved from that entry alone,
    [resolveFromStarExports] being reached only when the key has none: a
    direct entry resolves to itself and an explicit re-export from [P]
    gives what [P] gives, with [M] put in front of the chain (and a
    re-export entry without source module is unresolved). So when [M]
    re-exports [n] from [P], which declares it, and also has a wildcard
    on [Q], which declares [n] too, [M::n] resolves to the export of [P]
    and, [Q] being another module, not to the one of [Q]. *)
Theorem resolveExport_explicit_before_wildcard (host : Host)
    (registry : ExportRegistry) (basePath M n : string) :
  (declares registry M n ->
   resolveExport host registry basePath M n
   = Some {| ResolvedExport.originalModule := M;
             ResolvedExport.originalName := n;
             ResolvedExport.reExportChain := [] |}) /\
  (forall P n',
     reExportsFrom host registry basePath M n P n' ->
     resolveExport host registry basePath M n
     = prependChain M <$>
       resolveExportWith host registry basePath {[mkKey M n]} P n') /\
  (forall entry,
     JsMap.get (mkKey M n) registry = Some entry ->
     ExportEntry.isReExport entry = true ->
     truthy (ExportEntry.sourceModule entry) = None ->
     resolveExport host registry basePath M n = None) /\
  (forall P n' Q,
     reExportsFrom host registry basePath M n P n' ->
     declares registry P n' ->
     wildcardFrom host registry basePath M Q ->
     declares registry Q n ->
     resolveExport host registry basePath M n
     = Some {| ResolvedExport.originalModule := P;
               ResolvedExport.originalName := n';
               ResolvedExport.reExportChain := [M] |} /\
     (P ≠ Q ->
      resolveExport host registry basePath M n
      ≠ Some {| ResolvedExport.originalModule := Q;
                ResolvedExport.originalName := n;
                ResolvedExport.reExportChain := [M] |})).
Proof.
  assert (forall P n',
            reExportsFrom host registry basePath M n P n' ->
            resolveExport host registry basePath M n
            = prependChain M <$>
              resolveExportWith host registry basePath {[mkKey M n]} P n')
    as Hexplicit.
  { intros P n' HP. rewrite resolveExport_with.
    rewrite (resolveExportWith_reExportsFrom _ _ _ _ M n P n');
      [|set_solver|done].
    by replace ({[mkKey M n]} ∪ ∅ : gset string) with
      ({[mkKey M n]} : gset string) by set_solver. }
  split_and!; [|exact Hexplicit| |].
  - intros Hd. rewrite resolveExport_with.
    apply resolveExportWith_declares; [set_solver|done].
  - intros entry Hget Hre Hsrc. rewrite resolveExport_with.
    by eapply resolveExportWith_noSource.
  - intros P n' Q HP HdP _ _.
    assert (resolveExport host registry basePath M n
            = Some {| ResolvedExport.originalModule := P;
                      ResolvedExport.originalName := n';
                      ResolvedExport.reExportChain := [M] |}) as Hres.
    { rewrite (Hexplicit _ _ HP).
      rewrite resolveExportWith_declares; [done| |done].
      pose proof (declares_not_reExportsFrom _ _ _ _ _ _ _ _ _ HdP HP).
      set_solver. }
    split; [done|]. intros Hne. rewrite Hres. congruence.
Qed.

Lemma resolveExport_explicit_before_wildcard_witness :
  resolveExport Fixtures.host Fixtures.wildcardRegistry Fixtures.basePath
    "M.ts" "foo"
  = Some {| ResolvedExport.originalModule := "P.ts";
            ResolvedExport.originalName := "foo";
            ResolvedExport.reExportChain := ["M.ts"] |} /\
  ("P.ts" ≠ "Q.ts" ->
   resolveExport Fixtures.host Fixtures.wildcardRegistry Fixtures.basePath
     "M.ts" "foo"
   ≠ Some {| ResolvedExport.originalModule := "Q.ts";
             ResolvedExport.originalName := "foo";
             ResolvedExport.reExportChain := ["M.ts"] |}).
Proof.
  apply (proj2 (proj2 (proj2 (resolveExport_explicit_before_wildcard
                                Fixtures.host Fixtures.wildcardRegistry
                                Fixtures.basePath "M.ts" "foo")))
           "P.ts" "foo" "Q.ts").
  - do 2 eexists. repeat split; reflexivity.
  - eexists. split; reflexivity.
  - do 2 eexists. repeat split; reflexivity.
  - eexists. split; reflexivity.
Defined.

(** *** Termination and cycle safety *)

(** C5. The resolver terminates: on every registry, for every query and
    every [visited] set, the recursion answers within [resolveFuel] nested
    calls, and with the same answer for any larger bound;
    [resolveExport] returns the value of that run. When [A::X] is
    a re-export of [B::X] and [B::X] one of [A::X], [resolveExport A X] is
    unresolved. The key of a call is in [visited] before the call
    recurses: the recursive call, through an explicit re-export or through
    a wildcard, is made on [visited] extended with the key, the set a call
    leaves behind contains its key, and a call on a key already in
    [visited] returns unresolved at once. *)
Theorem resolveExport_terminates (host : Host) (registry : ExportRegistry)
    (basePath : string) :
  (forall modulePath exportName visited,
     exists answer,
       forall fuel, resolveFuel registry <= fuel ->
         resolveExportFrom host registry basePath fuel modulePath exportName
           visited = Some answer) /\
  (forall modulePath exportName,
     exists visited',
       forall fuel, resolveFuel registry <= fuel ->
         resolveExportFrom host registry basePath fuel modulePath exportName ∅
         = Some (resolveExport host registry basePath modulePath exportName,
                 visited')) /\
  (forall A B X,
     reExportsFrom host registry basePath A X B X ->
     reExportsFrom host registry basePath B X A X ->
     resolveExport host registry basePath A X = None) /\
  (forall fuel m n visited m' n',
     mkKey m n ∉ visited ->
     reExportsFrom host registry basePath m n m' n' ->
     resolveExportFrom host registry basePath (S fuel) m n visited
     = throughModule m
         (resolveExportFrom host registry basePath fuel m' n'
            ({[mkKey m n]} ∪ visited))) /\
  (forall fuel m n visited Q,
     mkKey m n ∉ visited ->
     JsMap.get (mkKey m n) registry = None ->
     wildcardFrom host registry basePath m Q ->
     resolveExportFrom host registry basePath (S fuel) m n visited
     = throughModule m
         (resolveExportFrom host registry basePath fuel Q n
            ({[mkKey m n]} ∪ visited))) /\
  (forall fuel m n visited answer visited',
     resolveExportFrom host registry basePath fuel m n visited
     = Some (answer, visited') ->
     mkKey m n ∈ visited' /\ visited ⊆ visited') /\
  (forall fuel m n visited,
     mkKey m n ∈ visited ->
     resolveExportFrom host registry basePath (S fuel) m n visited
     = Some (None, visited)).
Proof.
  split_and!.
  - intros m n visited.
    destruct (resolveExportFrom_total host registry basePath m n visited)
      as [answer Hanswer].
    exists answer. intros fuel Hle. by eapply resolveExportFrom_mono.
  - intros m n. unfold resolveExport.
    destruct (resolveExportFrom_total host registry basePath m n ∅)
      as [[r visited'] Hanswer].
    exists visited'. intros fuel Hle. rewrite Hanswer.
    by eapply resolveExportFrom_mono.
  - intros A B X HA HB. rewrite resolveExport_with.
    rewrite (resolveExportWith_reExportsFrom _ _ _ _ A X B X);
      [|set_solver|done].
    destruct (decide (mkKey B X = mkKey A X)) as [Heq|Hne].
    + rewrite resolveExportWith_visited; [done|]. rewrite Heq. set_solver.
    + rewrite (resolveExportWith_reExportsFrom _ _ _ _ B X A X);
        [|set_solver|done].
      rewrite resolveExportWith_visited; [done|set_solver].
  - intros fuel m n visited m' n' Hnew
      (entry & src & Hget & Hre & Hsrc & <- & <-).
    simpl. rewrite decide_False by done. by rewrite Hget, Hre, Hsrc.
  - intros fuel m n visited Q Hnew Hget (star & src & Hstar & Hsrc & <-).
    simpl. rewrite decide_False by done. rewrite Hget.
    unfold resolveFromStarExports. by rewrite Hstar, Hsrc.
  - intros fuel m n visited answer visited' H.
    by eapply resolveExportFrom_visited.
  - intros fuel m n visited Hin. simpl. by rewrite decide_True.
Qed.

Lemma resolveExport_terminates_witness :
  resolveExport Fixtures.host Fixtures.cycleRegistry Fixtures.basePath
    "A.ts" "X" = None.
Proof.
  apply (proj1 (proj2 (proj2 (resolveExport_terminates Fixtures.host
                                Fixtures.cycleRegistry Fixtures.basePath)))
           "A.ts" "B.ts" "X").
  - do 2 eexists. repeat split; reflexivity.
  - do 2 eexists. repeat split; reflexivity.
Defined.

(** ** Sorting *)

Section SortingFacts.
Context {A : Type}.
Variable compareFn : A -> A -> Z.

Lemma sortInsert_Permutation (x : A) (l : list A) :
  sortInsert compareFn x l ≡ₚ x :: l.
Proof.
  induction l as [|y l IH]; simpl; [done|].
  destruct (compareFn x y <=? 0)%Z; [done|].
  rewrite IH. apply Permutation_swap.
Qed.

(** Sorting only reorders. *)
Lemma arraySort_Permutation (l : list A) : arraySort compareFn l ≡ₚ l.
Proof.
  induction l as [|x l IH]; simpl; [done|].
  by rewrite sortInsert_Permutation, IH.
Qed.
End SortingFacts.

(** ** Deduplication of consumers *)

Section DedupFacts.
Implicit Types (seen : JsMap Consumer.t) (c : Consumer.t).

Lemma elem_of_set k (v : Consumer.t) seen k' v' :
  (k', v') ∈ JsMap.set k v seen -> (k', v') ∈ seen \/ (k' = k /\ v' = v).
Proof.
  induction seen as [|[k0 v0] seen IH]; simpl.
  - intros H. apply list_elem_of_singleton in H. injection H as -> ->. auto.
  - destruct (String.eqb k k0) eqn:E.
    + apply String.eqb_eq in E. subst k0. intros H.
      apply elem_of_cons in H as [H|H].
      * injection H as -> ->. auto.
      * left. by apply list_elem_of_further.
    + intros H. apply elem_of_cons in H as [H|H].
      * left. rewrite H. apply list_elem_of_here.
      * destruct (IH H) as [?|?]; [left|by right].
        by apply list_elem_of_further.
Qed.

Lemma dedupStep_invariant handled seen c :
  seenInvariant handled seen ->
  seenInvariant (handled ++ [c]) (dedupStep seen c).
Proof.
  intros (Hnd & Hsound & Hcomplete).
  assert (forall seen',
            seen' = JsMap.set (Consumer.module c) c seen ->
            (forall kept, JsMap.get (Consumer.module c) seen = Some kept ->
                          Consumer.via kept = None) ->
            seenInvariant (handled ++ [c]) seen') as Hset.
  { intros seen' -> Hold. split_and!.
    - by apply keys_set_NoDup.
    - intros k c' Hin. apply elem_of_set in Hin as [Hin|[-> ->]].
      + destruct (Hsound _ _ Hin). split; [done|]. set_solver.
      + split; [done|]. set_solver.
    - intros c' Hin. rewrite get_set.
      destruct (String.eqb (Consumer.module c') (Consumer.module c)) eqn:E.
      + exists c. split; [done|].
        apply String.eqb_eq in E.
        apply elem_of_app in Hin as [Hin|Hin].
        * destruct (Hcomplete _ Hin) as (kept & Hget & Hvia).
          rewrite E in Hget. rewrite (Hold _ Hget) in Hvia.
          intros Hc'. destruct (Hvia Hc') as [? ?]. done.
        * apply list_elem_of_singleton in Hin. by subst.
      + apply String.eqb_neq in E.
        apply elem_of_app in Hin as [Hin|Hin].
        * by apply Hcomplete.
        * apply list_elem_of_singleton in Hin. by subst. }
  unfold dedupStep.
  destruct (JsMap.get (Consumer.module c) seen) as [existing|] eqn:Hget.
  - destruct (Consumer.via c) as [via|] eqn:Hvia;
      destruct (Consumer.via existing) as [via'|] eqn:Hvia'.
    2:{ apply Hset; [done|]. intros kept [= <-]. done. }
    all: split_and!; [done| |].
    all: try (intros k c' Hin; destruct (Hsound _ _ Hin); split; [done|];
              set_solver).
    all: intros c' Hin; apply elem_of_app in Hin as [Hin|Hin];
      [by apply Hcomplete|];
      apply list_elem_of_singleton in Hin; subst c';
      exists existing; split; [done|]; rewrite Hvia, Hvia'; try done.
  - apply Hset; [done|]. intros kept ?. congruence.
Qed.

Lemma dedup_loop_invariant handled seen consumers :
  seenInvariant handled seen ->
  seenInvariant (handled ++ consumers) (fold_left dedupStep consumers seen).
Proof.
  revert handled seen.
  induction consumers as [|c consumers IH]; intros handled seen Hinv; simpl.
  - by rewrite app_nil_r.
  - replace (handled ++ c :: consumers)%list
      with ((handled ++ [c]) ++ consumers)%list by by rewrite <- app_assoc.
    apply IH. by apply dedupStep_invariant.
Qed.

Lemma get_Some_elem k c seen : JsMap.get k seen = Some c -> (k, c) ∈ seen.
Proof.
  induction seen as [|[k' c'] seen IH]; simpl; [done|].
  destruct (String.eqb k k') eqn:E.
  - apply String.eqb_eq in E. intros [= ->]. subst. apply list_elem_of_here.
  - intros H. apply list_elem_of_further. by apply IH.
Qed.

Lemma count_one {B} (f : Consumer.t -> B) `{EqDecision B}
    (l : list Consumer.t) (kept : Consumer.t) :
  NoDup (f <$> l) -> kept ∈ l ->
  length (filter (fun c => f c = f kept) l) = 1.
Proof.
  induction l as [|x l IH]; intros Hnd Hin.
  - by apply not_elem_of_nil in Hin.
  - rewrite fmap_cons in Hnd. apply NoDup_cons in Hnd as [Hx Hnd].
    rewrite filter_cons. destruct (decide (f x = f kept)) as [Heq|Hne].
    + simpl. f_equal. apply length_zero_iff_nil.
      destruct (filter (fun c => f c = f kept) l) as [|y rest] eqn:E; [done|].
      assert (y ∈ filter (fun c => f c = f kept) l) as Hy
        by (rewrite E; apply list_elem_of_here).
      apply list_elem_of_filter in Hy as [Hfy Hy].
      exfalso. apply Hx. rewrite Heq, <- Hfy. by apply list_elem_of_fmap_2.
    + apply elem_of_cons in Hin as [->|Hin]; [done|]. by apply IH.
Qed.

(** [deduplicateConsumers] keeps recorded consumers only, at most one per
    consumer module, one for every recorded module, and one with [via]
    when some record of the module has it. *)
Lemma deduplicateConsumers_spec (host : Host) (recorded : list Consumer.t) :
  let unique := deduplicateConsumers host recorded in
  NoDup (Consumer.module <$> unique) /\
  (forall kept, kept ∈ unique -> kept ∈ recorded) /\
  (forall c, c ∈ recorded ->
     exists kept, kept ∈ unique /\
                  Consumer.module kept = Consumer.module c /\
                  (is_Some (Consumer.via c) -> is_Some (Consumer.via kept))).
Proof.
  unfold deduplicateConsumers. simpl.
  set (seen := fold_left dedupStep recorded []).
  assert (seenInvariant recorded seen) as (Hnd & Hsound & Hcomplete).
  { apply (dedup_loop_invariant [] [] recorded). split_and!.
    - apply NoDup_nil_2.
    - intros k c Hin. by apply not_elem_of_nil in Hin.
    - intros c Hin. by apply not_elem_of_nil in Hin. }
  assert (Consumer.module <$> JsMap.values seen = JsMap.keys seen) as Hkeys.
  { unfold JsMap.values, JsMap.keys. rewrite <- list_fmap_compose.
    apply list_fmap_ext. intros i [k c] Hin. simpl.
    apply list_elem_of_lookup_2 in Hin. by destruct (Hsound _ _ Hin). }
  split_and!.
  - rewrite arraySort_Permutation. by rewrite Hkeys.
  - intros kept Hin. rewrite arraySort_Permutation in Hin.
    apply list_elem_of_fmap in Hin as ([k c] & -> & Hin).
    by destruct (Hsound _ _ Hin).
  - intros c Hin. destruct (Hcomplete _ Hin) as (kept & Hget & Hvia).
    exists kept. split_and!; [|by destruct (Hsound _ _ (get_Some_elem _ _ _ Hget))|done].
    rewrite arraySort_Permutation. by eapply get_Some_value.
Qed.
End DedupFacts.

(** ** The aggregated output *)

Section OutputFacts.
Variable host : Host.
Variable registry : ExportRegistry.
Variable consumers : ConsumerMap.
Variable basePath : string.

Lemma outputStep_rows state entry :
  Forall (rowOf host consumers) state.1 ->
  Forall (rowOf host consumers)
    (outputStep host registry consumers basePath state entry).1.
Proof.
  destruct state as [output processed]. simpl. intros Hrows.
  unfold outputStep.
  destruct (String.eqb (ExportEntry.name entry) "*"); [done|].
  destruct (resolveExport host registry basePath _ _) as [resolved|]; [|done].
  destruct (decide _); [done|]. simpl.
  apply Forall_app. split; [done|].
  apply Forall_singleton. by split.
Qed.

Lemma outputLoop_rows entries state :
  Forall (rowOf host consumers) state.1 ->
  Forall (rowOf host consumers)
    (fold_left (outputStep host registry consumers basePath) entries state).1.
Proof.
  revert state. induction entries as [|entry entries IH]; intros state H;
    simpl; [done|].
  apply IH. by apply outputStep_rows.
Qed.

(** Every row of the output holds the deduplicated consumers of its key
    and their number. *)
Lemma buildDependencyOutput_rows row :
  row ∈ buildDependencyOutput host registry consumers basePath ->
  rowOf host consumers row.
Proof.
  unfold buildDependencyOutput.
  pose proof (outputLoop_rows (JsMap.values registry) ([], ∅)
                (Forall_nil_2 _)) as Hrows.
  destruct (fold_left _ _ _) as [output processed]. simpl in Hrows.
  rewrite arraySort_Permutation. intros Hin.
  by eapply Forall_forall in Hrows.
Qed.
End OutputFacts.

(** C10. In every row [buildDependencyOutput] produces, [consumerCount] is
    the length of the row's [consumers] list. *)
Theorem buildDependencyOutput_consumerCount (host : Host)
    (registry : ExportRegistry) (consumers : ConsumerMap) (basePath : string)
    (row : ExportDependencyInfo.t) :
  row ∈ buildDependencyOutput host registry consumers basePath ->
  ExportDependencyInfo.consumerCount row
  = length (ExportDependencyInfo.consumers row).
Proof.
  intros Hin.
  destruct (buildDependencyOutput_rows _ _ _ _ _ Hin) as [Hcons Hcount].
  by rewrite Hcons, Hcount.
Qed.

Lemma buildDependencyOutput_consumerCount_witness :
  let row := {| ExportDependencyInfo.module := "A.ts";
                ExportDependencyInfo.name := "X";
                ExportDependencyInfo.consumerCount := 1;
                ExportDependencyInfo.consumers :=
                  [{| Consumer.module := "D.ts";
                      Consumer.via := Some ["barrel.ts"] |}] |} in
  buildDependencyOutput Fixtures.host Fixtures.twiceRegistry
    Fixtures.twiceConsumers Fixtures.basePath = [row] /\
  ExportDependencyInfo.consumerCount row
  = length (ExportDependencyInfo.consumers row).
Proof.
  split; [reflexivity|].
  apply (buildDependencyOutput_consumerCount Fixtures.host
           Fixtures.twiceRegistry Fixtures.twiceConsumers Fixtures.basePath).
  apply list_elem_of_here.
Defined.

(** C8. In every row of the aggregated output the consumers are
    deduplicated by consumer module: no module occurs twice, every
    consumer kept was recorded under the row's original export, and for
    every record under that export exactly one consumer of the row has
    its module, one with [via] whenever the record has [via]. *)
Theorem buildDependencyOutput_deduplicated (host : Host)
    (registry : ExportRegistry) (consumers : ConsumerMap) (basePath : string)
    (row : ExportDependencyInfo.t) :
  row ∈ buildDependencyOutput host registry consumers basePath ->
  let recorded :=
    default [] (JsMap.get (mkKey (ExportDependencyInfo.module row)
                                 (ExportDependencyInfo.name row)) consumers) in
  NoDup (Consumer.module <$> ExportDependencyInfo.consumers row) /\
  (forall kept, kept ∈ ExportDependencyInfo.consumers row -> kept ∈ recorded) /\
  (forall c, c ∈ recorded ->
     length (filter (fun kept => Consumer.module kept = Consumer.module c)
               (ExportDependencyInfo.consumers row)) = 1 /\
     exists kept,
       kept ∈ ExportDependencyInfo.consumers row /\
       Consumer.module kept = Consumer.module c /\
       (is_Some (Consumer.via c) -> is_Some (Consumer.via kept))).
Proof.
  intros Hin recorded.
  destruct (buildDependencyOutput_rows _ _ _ _ _ Hin) as [Hcons _].
  fold recorded in Hcons. rewrite Hcons.
  destruct (deduplicateConsumers_spec host recorded)
    as (Hnd & Hsound & Hcomplete).
  split_and!; [done|done|].
  intros c Hc. destruct (Hcomplete _ Hc) as (kept & Hkept & Hmod & Hvia).
  split; [|by exists kept].
  rewrite <- Hmod. by apply count_one.
Qed.

Lemma buildDependencyOutput_deduplicated_witness :
  JsMap.get "A.ts::X" Fixtures.twiceConsumers
  = Some [{| Consumer.module := "D.ts"; Consumer.via := None |};
          {| Consumer.module := "D.ts"; Consumer.via := Some ["barrel.ts"] |}] /\
  NoDup (Consumer.module <$>
           [{| Consumer.module := "D.ts";
               Consumer.via := Some ["barrel.ts"] |}]).
Proof.
  split; [reflexivity|].
  apply (buildDependencyOutput_deduplicated Fixtures.host
           Fixtures.twiceRegistry Fixtures.twiceConsumers Fixtures.basePath
           {| ExportDependencyInfo.module := "A.ts";
              ExportDependencyInfo.name := "X";
              ExportDependencyInfo.consumerCount := 1;
              ExportDependencyInfo.consumers :=
                [{| Consumer.module := "D.ts";
                    Consumer.via := Some ["barrel.ts"] |}] |}).
  vm_compute. apply list_elem_of_here.
Defined.

(** ** Recording consumers *)

Lemma viaOf_filter (resolved : ResolvedExport.t) :
  viaOf resolved
  = match List.filter
            (fun m => negb (String.eqb m (ResolvedExport.originalModule resolved)))
            (ResolvedExport.reExportChain resolved) with
    | [] => None
    | m :: kept => Some (m :: kept)
    end.
Proof.
  unfold viaOf.
  destruct (ResolvedExport.reExportChain resolved) as [|m chain]; [done|].
  change (0 <? length (m :: chain))%nat with true. cbv iota.
  by destruct (List.filter _ (m :: chain)).
Qed.

Lemma filter_absent (x : string) (l : list string) :
  x ∉ l -> List.filter (fun m => negb (String.eqb m x)) l = l.
Proof.
  induction l as [|y l IH]; intros Hx; simpl; [done|].
  apply not_elem_of_cons in Hx as [Hne Hx].
  destruct (String.eqb y x) eqn:E.
  - apply String.eqb_eq in E. congruence.
  - simpl. by rewrite IH.
Qed.

Lemma filter_removes (x : string) (l : list string) :
  x ∉ List.filter (fun m => negb (String.eqb m x)) l.
Proof.
  intros Hin. apply list_elem_of_In, filter_In in Hin as [_ Hne].
  by rewrite String.eqb_refl in Hne.
Qed.

(** What a call of [recordConsumer] that is not skipped leaves under the
    key of the resolved export. *)
Lemma recordConsumer_appends (host : Host) (registry : ExportRegistry)
    (basePath importedModule exportName consumerModule : string)
    (consumers : ConsumerMap) (resolved : ResolvedExport.t) :
  importedModule ≠ consumerModule ->
  resolveExport host registry basePath importedModule exportName
  = Some resolved ->
  JsMap.get (mkKey (ResolvedExport.originalModule resolved)
                   (ResolvedExport.originalName resolved))
    (recordConsumer host importedModule exportName consumerModule registry
       basePath consumers)
  = Some (default [] (JsMap.get
                        (mkKey (ResolvedExport.originalModule resolved)
                               (ResolvedExport.originalName resolved))
                        consumers)
          ++ [{| Consumer.module := consumerModule;
                 Consumer.via := viaOf resolved |}])%list.
Proof.
  intros Hne Hres. unfold recordConsumer.
  apply String.eqb_neq in Hne. rewrite Hne, Hres.
  set (key := mkKey _ _). unfold JsMap.has.
  destruct (JsMap.get key consumers) as [recorded|] eqn:Hget; simpl.
  - by rewrite Hget, get_set_eq.
  - by rewrite get_set_eq, get_set_eq.
Qed.

(** C1, as the code has it. The chain of a resolution can contain the
    original module. [recordConsumer] records as [via] the chain with
    every occurrence of the original module taken out, and no [via] when
    nothing is left; the recorded [via] never contains the original
    module, and it is the chain unchanged whenever the original module
    does not occur in the chain and the chain is not empty. *)
Theorem recordConsumer_via (host : Host) (registry : ExportRegistry)
    (basePath importedModule exportName consumerModule : string)
    (consumers : ConsumerMap) (resolved : ResolvedExport.t) :
  importedModule ≠ consumerModule ->
  resolveExport host registry basePath importedModule exportName
  = Some resolved ->
  let key := mkKey (ResolvedExport.originalModule resolved)
                   (ResolvedExport.originalName resolved) in
  let chain := ResolvedExport.reExportChain resolved in
  let kept :=
    List.filter
      (fun m => negb (String.eqb m (ResolvedExport.originalModule resolved)))
      chain in
  JsMap.get key
    (recordConsumer host importedModule exportName consumerModule registry
       basePath consumers)
  = Some (default [] (JsMap.get key consumers)
          ++ [{| Consumer.module := consumerModule;
                 Consumer.via := match kept with
                                 | [] => None
                                 | _ => Some kept
                                 end |}])%list /\
  (ResolvedExport.originalModule resolved ∉ kept) /\
  (ResolvedExport.originalModule resolved ∉ chain -> kept = chain).
Proof.
  intros Hne Hres key chain kept. split_and!.
  - unfold key. rewrite (recordConsumer_appends _ _ _ _ _ _ _ _ Hne Hres).
    rewrite viaOf_filter. fold chain. fold kept. by destruct kept.
  - apply filter_removes.
  - apply filter_absent.
Qed.

Lemma recordConsumer_via_witness :
  JsMap.get "C.ts::foo"
    (recordConsumer Fixtures.host "A.ts" "foo" "D.ts" Fixtures.chainRegistry
       Fixtures.basePath [])
  = Some [{| Consumer.module := "D.ts";
             Consumer.via := Some ["A.ts"; "B.ts"] |}].
Proof.
  apply (recordConsumer_via Fixtures.host Fixtures.chainRegistry
           Fixtures.basePath "A.ts" "foo" "D.ts" []
           {| ResolvedExport.originalModule := "C.ts";
              ResolvedExport.originalName := "foo";
              ResolvedExport.reExportChain := ["A.ts"; "B.ts"] |}).
  - discriminate.
  - reflexivity.
Defined.

(** C1 fails as stated: in the project where [A.ts] re-exports [X] from
    [B.ts] and [B.ts] re-exports the [Y] of [A.ts] as [X], resolving
    [A.ts::X] succeeds with a chain that contains the original module
    [A.ts], and the [via] recorded for the import of [X] in [C.ts] is not
    that chain. *)
Lemma resolveExport_chain_contains_original :
  let resolved := {| ResolvedExport.originalModule := "A.ts";
                     ResolvedExport.originalName := "Y";
                     ResolvedExport.reExportChain := ["A.ts"; "B.ts"] |} in
  resolveExport Fixtures.host Fixtures.backRegistry Fixtures.basePath
    "A.ts" "X" = Some resolved /\
  ResolvedExport.originalModule resolved
    ∈ ResolvedExport.reExportChain resolved /\
  findConsumers Fixtures.host Fixtures.backFiles Fixtures.backRegistry
    Fixtures.basePath None
  = [("A.ts::Y", [{| Consumer.module := "C.ts";
                     Consumer.via := Some ["B.ts"] |}])] /\
  Some ["B.ts"] ≠ Some (ResolvedExport.reExportChain resolved).
Proof.
  simpl. split_and!.
  - reflexivity.
  - apply list_elem_of_here.
  - reflexivity.
  - discriminate.
Qed.

(** A self-import records nothing. *)
Lemma recordConsumer_self (host : Host) (registry : ExportRegistry)
    (basePath modulePath exportName : string) (consumers : ConsumerMap) :
  recordConsumer host modulePath exportName modulePath registry basePath
    consumers = consumers.
Proof. unfold recordConsumer. by rewrite String.eqb_refl. Qed.

(** C3, as the code has it. An import declaration whose specifier
    resolves to the importing module itself leaves the consumer map as it
    was, whatever it imports (default, named or namespace members): the
    guard of [recordConsumer] compares the module the import names with
    the consumer. An import of the module's own export through another
    module that re-exports it is not covered by the guard. *)
Theorem processImportDeclaration_self (host : Host)
    (importDecl : ImportDeclaration.t) (consumerModule : string)
    (registry : ExportRegistry) (files : JsMap SourceFile.t)
    (basePath : string) (consumers : ConsumerMap) (sourceFile : SourceFile.t) :
  (forall exportName,
     recordConsumer host consumerModule exportName consumerModule registry
       basePath consumers = consumers) /\
  (forall resolvedPath,
     resolveImportPath host sourceFile
       (ImportDeclaration.getModuleSpecifierValue importDecl)
     = Some resolvedPath ->
     relative host basePath resolvedPath = consumerModule ->
     processImportDeclaration host importDecl consumerModule registry files
       basePath consumers sourceFile = consumers).
Proof.
  split; [intros; apply recordConsumer_self|].
  intros resolvedPath Hpath Hself. unfold processImportDeclaration.
  destruct (negb (startsWithDot _)); [done|]. rewrite Hpath.
  destruct (truthy (Some resolvedPath)) as [p|] eqn:Hp; [|done].
  assert (p = resolvedPath) as ->.
  { simpl in Hp. by destruct (String.eqb resolvedPath ""); simplify_eq. }
  destruct (negb (JsMap.has resolvedPath files)); [done|].
  rewrite Hself.
  assert (forall (l : list ImportSpecifier.t),
            fold_left
              (fun consumers namedImport =>
                 recordConsumer host consumerModule
                   (ImportSpecifier.getName namedImport) consumerModule
                   registry basePath consumers) l consumers = consumers)
    as Hnamed.
  { induction l as [|x l IH]; simpl; [done|].
    by rewrite recordConsumer_self. }
  assert (forall namespaceName (l : list PropertyAccessExpression.t),
            fold_left
              (fun consumers propAccess =>
                 match PropertyAccessExpression.getExpression propAccess with
                 | Some identifier =>
                     if String.eqb identifier namespaceName then
                       recordConsumer host consumerModule
                         (PropertyAccessExpression.getName propAccess)
                         consumerModule registry basePath consumers
                     else consumers
                 | None => consumers
                 end) l consumers = consumers) as Hspace.
  { intros namespaceName. induction l as [|x l IH]; simpl; [done|].
    destruct (PropertyAccessExpression.getExpression x) as [identifier|];
      [|done].
    destruct (String.eqb identifier namespaceName); [|done].
    by rewrite recordConsumer_self. }
  destruct (ImportDeclaration.getDefaultImport importDecl);
    rewrite ?recordConsumer_self, Hnamed;
    destruct (ImportDeclaration.getNamespaceImport importDecl); try done;
    apply Hspace.
Qed.

Lemma processImportDeclaration_self_witness :
  processImportDeclaration Fixtures.host Fixtures.selfImport
    "S.ts" [("S.ts::X", directEntry "S.ts" "X")]
    [("/p/S.ts", Fixtures.selfFile)] Fixtures.basePath [] Fixtures.selfFile
  = [].
Proof.
  apply (proj2 (processImportDeclaration_self Fixtures.host
                  Fixtures.selfImport "S.ts"
                  [("S.ts::X", directEntry "S.ts" "X")]
                  [("/p/S.ts", Fixtures.selfFile)] Fixtures.basePath []
                  Fixtures.selfFile) "/p/S.ts").
  - reflexivity.
  - reflexivity.
Defined.

(** C3 fails as stated: [A.ts] declares [X] and imports it through
    [barrel.ts], which re-exports it; the consumer map then names [A.ts]
    as a consumer of its own [A.ts::X], and so does the output. *)
Lemma findConsumers_own_export_through_barrel :
  findConsumers Fixtures.host Fixtures.barrelFiles Fixtures.barrelRegistry
    Fixtures.basePath None
  = [("A.ts::X", [{| Consumer.module := "A.ts";
                     Consumer.via := Some ["barrel.ts"] |}])] /\
  buildDependencyOutput Fixtures.host Fixtures.barrelRegistry
    (findConsumers Fixtures.host Fixtures.barrelFiles Fixtures.barrelRegistry
       Fixtures.basePath None) Fixtures.basePath
  = [{| ExportDependencyInfo.module := "A.ts";
        ExportDependencyInfo.name := "X";
        ExportDependencyInfo.consumerCount := 1;
        ExportDependencyInfo.consumers :=
          [{| Consumer.module := "A.ts";
              Consumer.via := Some ["barrel.ts"] |}] |}].
Proof. split; reflexivity. Qed.

(** ** The registry builder *)

Lemma fold_left_invariant {A B} (P : A -> Prop) (f : A -> B -> A)
    (l : list B) (init : A) :
  P init -> (forall acc x, P acc -> P (f acc x)) -> P (fold_left f l init).
Proof.
  intros Hinit Hstep. revert init Hinit.
  induction l as [|x l IH]; intros init Hinit; simpl; [done|].
  apply IH. by apply Hstep.
Qed.

Section BuilderFacts.
Variable host : Host.
Implicit Types (registry : ExportRegistry) (sourceFile : SourceFile.t).

(** A specifier that does not start with a dot is never resolved. *)
Lemma resolveModulePath_package sourceFile specifier :
  startsWithDot specifier = false ->
  resolveModulePath host sourceFile specifier = None.
Proof. intros H. unfold resolveModulePath. by rewrite H. Qed.

Lemma processExportDeclaration_NoDup exportDecl modulePath registry sourceFile
    importMap :
  NoDup (JsMap.keys registry) ->
  NoDup (JsMap.keys (processExportDeclaration host exportDecl modulePath
                       registry sourceFile importMap)).
Proof.
  intros Hnd. unfold processExportDeclaration.
  destruct (if ExportDeclaration.isNamespaceExport exportDecl then _ else _).
  - destruct (truthy (resolveModulePath _ _ _)); [|done].
    by apply keys_set_NoDup.
  - apply fold_left_invariant; [done|].
    intros acc namedExport Hacc.
    destruct (namedExportEntry _ _ _ _ _ _). by apply keys_set_NoDup.
Qed.

Lemma registerDefaultExport_NoDup modulePath registry :
  NoDup (JsMap.keys registry) ->
  NoDup (JsMap.keys (registerDefaultExport modulePath registry)).
Proof.
  intros Hnd. unfold registerDefaultExport.
  destruct (negb _); [|done]. by apply keys_set_NoDup.
Qed.

Lemma registerExportedDeclaration_NoDup sourceFile modulePath registry exported :
  NoDup (JsMap.keys registry) ->
  NoDup (JsMap.keys (registerExportedDeclaration sourceFile modulePath
                       registry exported)).
Proof.
  intros Hnd. destruct exported as [name declarations]. simpl.
  destruct (JsMap.has _ _); [done|].
  destruct (existsb _ _); [|done]. by apply keys_set_NoDup.
Qed.

Lemma extractExportsFromFile_NoDup sourceFile modulePath registry :
  NoDup (JsMap.keys registry) ->
  NoDup (JsMap.keys (extractExportsFromFile host sourceFile modulePath
                       registry)).
Proof.
  intros Hnd. unfold extractExportsFromFile, registerDeclarations,
    processExportDeclarations.
  apply fold_left_invariant.
  - destruct (0 <? _)%nat; [apply registerDefaultExport_NoDup|];
      apply fold_left_invariant; auto using processExportDeclaration_NoDup.
  - intros acc x. apply registerExportedDeclaration_NoDup.
Qed.

(** The registry holds every key at most once. *)
Lemma buildExportRegistry_NoDup files basePath :
  NoDup (JsMap.keys (buildExportRegistry host files basePath)).
Proof.
  unfold buildExportRegistry. apply fold_left_invariant.
  - apply NoDup_nil_2.
  - intros acc [filePath sourceFile]. apply extractExportsFromFile_NoDup.
Qed.

(** Registering a default export leaves every present key as it is. *)
Lemma registerDefaultExport_keeps modulePath registry k :
  JsMap.has k registry = true ->
  JsMap.get k (registerDefaultExport modulePath registry)
  = JsMap.get k registry.
Proof.
  intros Hk. unfold registerDefaultExport.
  destruct (JsMap.has (mkKey modulePath "default") registry) eqn:E; [done|].
  simpl. apply get_set_ne. intros <-. congruence.
Qed.

(** So does registering an inline exported declaration. *)
Lemma registerExportedDeclaration_keeps sourceFile modulePath registry
    exported k :
  JsMap.has k registry = true ->
  JsMap.get k (registerExportedDeclaration sourceFile modulePath registry
                 exported)
  = JsMap.get k registry.
Proof.
  intros Hk. destruct exported as [name declarations]. simpl.
  destruct (JsMap.has (mkKey modulePath name) registry) eqn:E; [done|].
  destruct (existsb _ _); [|done].
  apply get_set_ne. intros <-. congruence.
Qed.

Lemma registerDeclarations_keeps sourceFile modulePath registry k :
  JsMap.has k registry = true ->
  JsMap.get k (registerDeclarations sourceFile modulePath registry)
  = JsMap.get k registry.
Proof.
  intros Hk. unfold registerDeclarations.
  set (afterDefault := if (0 <? _)%nat then _ else _).
  assert (JsMap.get k afterDefault = JsMap.get k registry) as Hdefault.
  { unfold afterDefault. destruct (0 <? _)%nat; [|done].
    by apply registerDefaultExport_keeps. }
  rewrite <- Hdefault.
  assert (JsMap.has k afterDefault = true) as Hk'.
  { unfold JsMap.has in *. by rewrite Hdefault. }
  clear Hdefault. revert Hk'. generalize afterDefault.
  induction (SourceFile.getExportedDeclarations sourceFile) as [|x l IH];
    intros acc Hacc; simpl; [done|].
  rewrite IH.
  - by apply registerExportedDeclaration_keeps.
  - unfold JsMap.has.
    by rewrite registerExportedDeclaration_keeps.
Qed.

(** An export declaration writes its keys whatever the registry holds:
    for a wildcard, *)
Lemma processExportDeclaration_star exportDecl modulePath registry sourceFile
    importMap specifier resolvedPath :
  ExportDeclaration.isNamespaceExport exportDecl = true ->
  truthy (ExportDeclaration.getModuleSpecifierValue exportDecl)
  = Some specifier ->
  truthy (resolveModulePath host sourceFile specifier) = Some resolvedPath ->
  JsMap.get (mkKey modulePath "*")
    (processExportDeclaration host exportDecl modulePath registry sourceFile
       importMap)
  = Some (starEntry modulePath resolvedPath).
Proof.
  intros Hstar Hspec Hpath. unfold processExportDeclaration.
  rewrite Hstar, Hspec, Hpath. apply get_set_eq.
Qed.

(** and for the last named export of a declaration. *)
Lemma processExportDeclaration_last exportDecl modulePath registry sourceFile
    importMap earlier namedExport :
  (if ExportDeclaration.isNamespaceExport exportDecl
   then truthy (ExportDeclaration.getModuleSpecifierValue exportDecl)
   else None) = None ->
  ExportDeclaration.getNamedExports exportDecl
  = (earlier ++ [namedExport])%list ->
  let written :=
    namedExportEntry host modulePath
      (ExportDeclaration.getModuleSpecifierValue exportDecl) sourceFile
      importMap namedExport in
  JsMap.get written.1
    (processExportDeclaration host exportDecl modulePath registry sourceFile
       importMap)
  = Some written.2.
Proof.
  intros Hnamed Hlist written. unfold processExportDeclaration.
  rewrite Hnamed, Hlist, fold_left_app. simpl. fold written.
  destruct written as [key entry]. apply get_set_eq.
Qed.

(** An export declaration leaves every key but [module::*], which only a
    wildcard sets, and the keys of its named exports. *)
Lemma processExportDeclaration_leaves exportDecl modulePath registry sourceFile
    importMap k :
  (ExportDeclaration.isNamespaceExport exportDecl = true ->
   k ≠ mkKey modulePath "*") ->
  (forall namedExport,
     namedExport ∈ ExportDeclaration.getNamedExports exportDecl ->
     (namedExportEntry host modulePath
        (ExportDeclaration.getModuleSpecifierValue exportDecl) sourceFile
        importMap namedExport).1 ≠ k) ->
  JsMap.get k
    (processExportDeclaration host exportDecl modulePath registry sourceFile
       importMap)
  = JsMap.get k registry.
Proof.
  intros Hstar Hnamed. unfold processExportDeclaration.
  destruct (if ExportDeclaration.isNamespaceExport exportDecl
            then truthy (ExportDeclaration.getModuleSpecifierValue exportDecl)
            else None) as [specifier|] eqn:Hbranch.
  - destruct (truthy (resolveModulePath host sourceFile specifier));
      [|done].
    destruct (ExportDeclaration.isNamespaceExport exportDecl); [|done].
    apply get_set_ne. intros <-. by apply Hstar.
  - revert registry Hnamed.
    induction (ExportDeclaration.getNamedExports exportDecl)
      as [|namedExport l IH]; intros registry Hnamed; [done|].
    cbn [fold_left]. rewrite IH.
    + specialize (Hnamed namedExport (list_elem_of_here _ _)).
      destruct (namedExportEntry _ _ _ _ _ namedExport) as [key entry].
      by apply get_set_ne.
    + intros other Hother. apply Hnamed. by apply list_elem_of_further.
Qed.

(** The loop over the export declarations runs in source order: a key
    ends with the entry of the last declaration that sets it. *)
Lemma processExportDeclarations_last sourceFile modulePath registry
    before exportDecl after k entry :
  SourceFile.getExportDeclarations sourceFile
  = (before ++ exportDecl :: after)%list ->
  (forall earlier,
     JsMap.get k
       (processExportDeclaration host exportDecl modulePath earlier
          sourceFile (buildImportMap host sourceFile))
     = Some entry) ->
  (forall later earlier,
     later ∈ after ->
     JsMap.get k
       (processExportDeclaration host later modulePath earlier sourceFile
          (buildImportMap host sourceFile))
     = JsMap.get k earlier) ->
  JsMap.get k (processExportDeclarations host sourceFile modulePath registry)
  = Some entry.
Proof.
  intros Hlist Hsets Hleaves. unfold processExportDeclarations.
  rewrite Hlist, fold_left_app. cbn [fold_left].
  specialize (Hsets (fold_left
                       (fun registry exportDecl =>
                          processExportDeclaration host exportDecl modulePath
                            registry sourceFile
                            (buildImportMap host sourceFile))
                       before registry)).
  revert Hsets. generalize (processExportDeclaration host exportDecl modulePath
                              (fold_left
                                 (fun registry exportDecl =>
                                    processExportDeclaration host exportDecl
                                      modulePath registry sourceFile
                                      (buildImportMap host sourceFile))
                                 before registry)
                              sourceFile (buildImportMap host sourceFile)).
  clear Hlist. induction after as [|later after IH]; intros acc Hacc; [done|].
  cbn [fold_left]. apply IH.
  - intros later' earlier Hin. apply Hleaves. by apply list_elem_of_further.
  - rewrite Hleaves; [done|]. apply list_elem_of_here.
Qed.
End BuilderFacts.

Section UnresolvedSpecifier.
Variable host : Host.
Variables (modulePath specifier : string) (sourceFile : SourceFile.t).
Variable importMap : JsMap ImportInfo.t.
Variable moduleSpecifier : option string.
Hypothesis specifier_truthy : truthy moduleSpecifier = Some specifier.
Hypothesis specifier_unresolved :
  resolveModulePath host sourceFile specifier = None.

Local Abbreviation written :=
  (namedExportEntry host modulePath moduleSpecifier sourceFile importMap).
Local Abbreviation step :=
  (fun (registry : ExportRegistry) namedExport =>
     let '(key, entry) := written namedExport in JsMap.set key entry registry).

(** What a named re-export from an unresolved specifier registers. *)
Lemma namedExportEntry_unresolved namedExport :
  (written namedExport).1
  = mkKey modulePath
      (orElse (ExportSpecifier.getAliasNode namedExport)
              (ExportSpecifier.getName namedExport)) /\
  ExportEntry.isReExport (written namedExport).2 = true /\
  ExportEntry.sourceModule (written namedExport).2 = Some specifier.
Proof.
  unfold namedExportEntry.
  rewrite specifier_truthy, specifier_unresolved. done.
Qed.

Lemma unresolved_step_keeps (registry : ExportRegistry) namedExport k :
  (exists entry, JsMap.get k registry = Some entry /\
                 ExportEntry.isReExport entry = true /\
                 ExportEntry.sourceModule entry = Some specifier) ->
  exists entry, JsMap.get k (step registry namedExport) = Some entry /\
                ExportEntry.isReExport entry = true /\
                ExportEntry.sourceModule entry = Some specifier.
Proof.
  intros (entry & Hget & Hentry).
  destruct (namedExportEntry_unresolved namedExport) as (_ & Hre & Hsrc).
  simpl. destruct (written namedExport) as [key entry'] eqn:E. simpl in *.
  rewrite get_set. destruct (String.eqb k key); eauto.
Qed.

Lemma unresolved_loop_registers (l : list ExportSpecifier.t)
    (registry : ExportRegistry) namedExport :
  namedExport ∈ l ->
  exists entry,
    JsMap.get (mkKey modulePath
                 (orElse (ExportSpecifier.getAliasNode namedExport)
                         (ExportSpecifier.getName namedExport)))
      (fold_left step l registry) = Some entry /\
    ExportEntry.isReExport entry = true /\
    ExportEntry.sourceModule entry = Some specifier.
Proof.
  intros Hin. apply list_elem_of_split in Hin as (l1 & l2 & ->).
  rewrite fold_left_app. simpl.
  apply (fold_left_invariant
           (fun registry => exists entry, JsMap.get _ registry = Some entry /\ _)).
  - destruct (namedExportEntry_unresolved namedExport) as (Hkey & Hre & Hsrc).
    destruct (written namedExport) as [key entry] eqn:E. simpl in *.
    subst key. exists entry. by rewrite get_set_eq.
  - intros acc x. apply unresolved_step_keeps.
Qed.
End UnresolvedSpecifier.

(** C4, as the code has it. For a re-export declaration whose specifier
    is not resolved (as is every specifier that does not start with a
    dot): a wildcard leaves the registry as it was, so no key is produced
    for it; a named re-export does produce its key, with an entry marked
    as a re-export whose source module is the specifier as written. No
    case raises an error. *)
Theorem processExportDeclaration_unresolved (host : Host)
    (exportDecl : ExportDeclaration.t) (modulePath : string)
    (registry : ExportRegistry) (sourceFile : SourceFile.t)
    (importMap : JsMap ImportInfo.t) (specifier : string) :
  truthy (ExportDeclaration.getModuleSpecifierValue exportDecl)
  = Some specifier ->
  resolveModulePath host sourceFile specifier = None ->
  (ExportDeclaration.isNamespaceExport exportDecl = true ->
   processExportDeclaration host exportDecl modulePath registry sourceFile
     importMap = registry) /\
  (ExportDeclaration.isNamespaceExport exportDecl = false ->
   forall namedExport,
     namedExport ∈ ExportDeclaration.getNamedExports exportDecl ->
     exists entry,
       JsMap.get (mkKey modulePath
                    (orElse (ExportSpecifier.getAliasNode namedExport)
                            (ExportSpecifier.getName namedExport)))
         (processExportDeclaration host exportDecl modulePath registry
            sourceFile importMap) = Some entry /\
       ExportEntry.isReExport entry = true /\
       ExportEntry.sourceModule entry = Some specifier).
Proof.
  intros Hspec Hpath. split; intros Hstar; unfold processExportDeclaration;
    rewrite Hstar.
  - by rewrite Hspec, Hpath.
  - intros namedExport Hin.
    by apply (unresolved_loop_registers host modulePath specifier sourceFile
                importMap _ Hspec Hpath).
Qed.

Lemma processExportDeclaration_unresolved_witness :
  exists entry,
    JsMap.get "M.ts::map"
      (processExportDeclaration Fixtures.host
         (Fixtures.exportNamed "map" None (Some "lodash")) "M.ts" []
         Fixtures.packageFile []) = Some entry /\
    ExportEntry.isReExport entry = true /\
    ExportEntry.sourceModule entry = Some "lodash".
Proof.
  apply (proj2 (processExportDeclaration_unresolved Fixtures.host
                  (Fixtures.exportNamed "map" None (Some "lodash")) "M.ts" []
                  Fixtures.packageFile [] "lodash" eq_refl eq_refl)
           eq_refl
           {| ExportSpecifier.getName := "map";
              ExportSpecifier.getAliasNode := None |}).
  apply list_elem_of_here.
Defined.

(** C4 fails as stated: for [export { map } from 'lodash'] the specifier
    is not resolved, and the builder registers the key [M.ts::map]. *)
Lemma extractExportsFromFile_package_key :
  resolveModulePath Fixtures.host Fixtures.packageFile "lodash" = None /\
  extractExportsFromFile Fixtures.host Fixtures.packageFile "M.ts" []
  = [("M.ts::map",
      {| ExportEntry.module := "M.ts";
         ExportEntry.name := "map";
         ExportEntry.isReExport := true;
         ExportEntry.sourceModule := Some "lodash";
         ExportEntry.sourceName := Some "map" |})] /\
  JsMap.has "M.ts::map"
    (extractExportsFromFile Fixtures.host Fixtures.packageFile "M.ts" [])
  = true.
Proof. split_and!; reflexivity. Qed.

(** C2, as the code has it. The registry holds every key at most once.
    Export declarations are written unconditionally, in source order: a
    wildcard writes [module::*] and the last named export of a
    declaration writes its key whatever the registry already holds, and a
    declaration leaves every key but those of its named exports and, for
    a wildcard, [module::*]; so a key that an export declaration sets, and no export
    declaration after it in the file touches, ends with the entry of that
    declaration, whatever the declarations before it wrote: for one key
    the last export declaration wins. The two later steps, default
    assignment and inline exported declarations, never overwrite: every
    key present after the export declarations keeps its entry, and
    [registerDefaultExport] returns the registry unchanged when
    [module::default] is present. *)
Theorem extractExportsFromFile_precedence (host : Host)
    (sourceFile : SourceFile.t) (modulePath : string)
    (registry : ExportRegistry) :
  (NoDup (JsMap.keys registry) ->
   NoDup (JsMap.keys (extractExportsFromFile host sourceFile modulePath
                        registry))) /\
  (forall files basePath,
     NoDup (JsMap.keys (buildExportRegistry host files basePath))) /\
  (forall k entry,
     JsMap.get k (processExportDeclarations host sourceFile modulePath
                    registry) = Some entry ->
     JsMap.get k (extractExportsFromFile host sourceFile modulePath registry)
     = Some entry) /\
  (JsMap.has (mkKey modulePath "default") registry = true ->
   registerDefaultExport modulePath registry = registry) /\
  (forall exportDecl importMap specifier resolvedPath,
     ExportDeclaration.isNamespaceExport exportDecl = true ->
     truthy (ExportDeclaration.getModuleSpecifierValue exportDecl)
     = Some specifier ->
     truthy (resolveModulePath host sourceFile specifier)
     = Some resolvedPath ->
     JsMap.get (mkKey modulePath "*")
       (processExportDeclaration host exportDecl modulePath registry
          sourceFile importMap)
     = Some (starEntry modulePath resolvedPath)) /\
  (forall exportDecl importMap earlier namedExport,
     ExportDeclaration.isNamespaceExport exportDecl = false ->
     ExportDeclaration.getNamedExports exportDecl
     = (earlier ++ [namedExport])%list ->
     JsMap.get
       (namedExportEntry host modulePath
          (ExportDeclaration.getModuleSpecifierValue exportDecl) sourceFile
          importMap namedExport).1
       (processExportDeclaration host exportDecl modulePath registry
          sourceFile importMap)
     = Some (namedExportEntry host modulePath
               (ExportDeclaration.getModuleSpecifierValue exportDecl)
               sourceFile importMap namedExport).2) /\
  (forall exportDecl importMap k,
     (ExportDeclaration.isNamespaceExport exportDecl = true ->
      k ≠ mkKey modulePath "*") ->
     (forall namedExport,
        namedExport ∈ ExportDeclaration.getNamedExports exportDecl ->
        (namedExportEntry host modulePath
           (ExportDeclaration.getModuleSpecifierValue exportDecl) sourceFile
           importMap namedExport).1 ≠ k) ->
     JsMap.get k
       (processExportDeclaration host exportDecl modulePath registry
          sourceFile importMap)
     = JsMap.get k registry) /\
  (forall before exportDecl after k entry,
     SourceFile.getExportDeclarations sourceFile
     = (before ++ exportDecl :: after)%list ->
     (forall earlier,
        JsMap.get k
          (processExportDeclaration host exportDecl modulePath earlier
             sourceFile (buildImportMap host sourceFile))
        = Some entry) ->
     (forall later earlier,
        later ∈ after ->
        JsMap.get k
          (processExportDeclaration host later modulePath earlier sourceFile
             (buildImportMap host sourceFile))
        = JsMap.get k earlier) ->
     JsMap.get k (extractExportsFromFile host sourceFile modulePath registry)
     = Some entry).
Proof.
  assert (forall k entry,
            JsMap.get k (processExportDeclarations host sourceFile modulePath
                           registry) = Some entry ->
            JsMap.get k (extractExportsFromFile host sourceFile modulePath
                           registry) = Some entry) as Hkeeps.
  { intros k entry Hget. unfold extractExportsFromFile.
    rewrite registerDeclarations_keeps; [done|].
    unfold JsMap.has. by rewrite Hget. }
  split_and!.
  - apply extractExportsFromFile_NoDup.
  - apply buildExportRegistry_NoDup.
  - exact Hkeeps.
  - intros Hhas. unfold registerDefaultExport. by rewrite Hhas.
  - intros. by eapply processExportDeclaration_star.
  - intros exportDecl importMap earlier namedExport Hnamed Hlist.
    apply (processExportDeclaration_last host exportDecl modulePath registry
             sourceFile importMap earlier namedExport); [|done].
    by rewrite Hnamed.
  - intros. by apply processExportDeclaration_leaves.
  - intros before exportDecl after k entry Hlist Hsets Hleaves.
    apply Hkeeps. by eapply processExportDeclarations_last.
Qed.

(** In [export * from './a'; export * from './b'; export { foo } from
    './a'] the second wildcard is the last declaration to set [M.ts::*]. *)
Lemma extractExportsFromFile_precedence_witness :
  JsMap.get "M.ts::*"
    (extractExportsFromFile Fixtures.host Fixtures.starsNamedFile "M.ts" [])
  = Some (starEntry "M.ts" "/p/b.ts").
Proof.
  apply (proj2 (proj2 (proj2 (proj2 (proj2 (proj2 (proj2
           (extractExportsFromFile_precedence Fixtures.host
              Fixtures.starsNamedFile "M.ts" [])))))))
           [Fixtures.exportStar "./a"] (Fixtures.exportStar "./b")
           [Fixtures.exportNamed "foo" None (Some "./a")]).
  - reflexivity.
  - intros earlier.
    exact (processExportDeclaration_star Fixtures.host
             (Fixtures.exportStar "./b") "M.ts" earlier
             Fixtures.starsNamedFile _ "./b" "/p/b.ts"
             eq_refl eq_refl eq_refl).
  - intros later earlier Hlater. apply list_elem_of_singleton in Hlater as ->.
    apply processExportDeclaration_leaves; [done|].
    intros namedExport HnamedExport.
    apply list_elem_of_singleton in HnamedExport as ->. done.
Defined.

(** C2 fails as stated: with [export * from './a'] followed by
    [export * from './b'], the key [M.ts::*] set by the first declaration
    is overwritten by the second. *)
Lemma extractExportsFromFile_last_wildcard_wins :
  JsMap.get "M.ts::*"
    (processExportDeclaration Fixtures.host (Fixtures.exportStar "./a") "M.ts"
       [] Fixtures.starsFile [])
  = Some (starEntry "M.ts" "/p/a.ts") /\
  extractExportsFromFile Fixtures.host Fixtures.starsFile "M.ts" []
  = [("M.ts::*", starEntry "M.ts" "/p/b.ts")].
Proof. split; reflexivity. Qed.

(** * Further properties *)

(** ** Resolution and the re-export graph *)

Section ResolutionPaths.
Variable host : Host.
Variable registry : ExportRegistry.
Variable basePath : string.

Local Abbreviation along := (resolvesAlong host registry basePath).

(** What a run of the resolver returns is the end of a path of the graph
    that starts at the query and avoids the keys already visited. *)
Lemma resolveExportFrom_along fuel m n visited resolved visited' :
  resolveExportFrom host registry basePath fuel m n visited
  = Some (Some resolved, visited') ->
  exists keys,
    along m n keys resolved /\ NoDup keys /\
    (forall k, k ∈ keys -> k ∉ visited).
Proof.
  revert m n visited resolved visited'.
  induction fuel as [|fuel IH]; intros m n visited r v' H; [done|].
  simpl in H. destruct (decide _) as [|Hnew]; [done|].
  assert (forall m' n' r',
            throughModule m
              (resolveExportFrom host registry basePath fuel m' n'
                 ({[mkKey m n]} ∪ visited)) = Some (Some r', v') ->
            exists keys r0,
              r' = prependChain m r0 /\ along m' n' keys r0 /\
              NoDup (mkKey m n :: keys) /\
              (forall k, k ∈ mkKey m n :: keys -> k ∉ visited)) as Hrec.
  { intros m' n' r' Hcall. unfold throughModule in Hcall.
    destruct (resolveExportFrom _ _ _ fuel m' n' _) as [[[r0|] v0]|] eqn:E;
      try done.
    injection Hcall as <- <-.
    destruct (IH _ _ _ _ _ E) as (keys & Halong & Hnd & Hfresh).
    exists keys, r0. split_and!; [done|done| |].
    - apply NoDup_cons. split; [|done].
      intros Hin. apply (Hfresh _ Hin). set_solver.
    - intros k Hk. apply elem_of_cons in Hk as [->|Hk]; [done|].
      specialize (Hfresh _ Hk). set_solver. }
  destruct (JsMap.get (mkKey m n) registry) as [entry|] eqn:Hget.
  - destruct (ExportEntry.isReExport entry) eqn:Hre; simpl in H.
    + destruct (truthy (ExportEntry.sourceModule entry)) as [src|] eqn:Hsrc;
        [|done].
      destruct (Hrec _ _ _ H) as (keys & r0 & -> & Halong & Hnd & Hfresh).
      exists (mkKey m n :: keys). split_and!; [|done|done].
      eapply along_explicit; [|exact Halong].
      exists entry, src. by split_and!.
    + injection H as <- <-. exists [mkKey m n]. split_and!.
      * apply along_direct. by exists entry.
      * apply NoDup_singleton.
      * intros k Hk. apply list_elem_of_singleton in Hk. by subst.
  - unfold resolveFromStarExports in H.
    destruct (JsMap.get (mkKey m "*") registry) as [star|] eqn:Hstar; [|done].
    destruct (truthy (ExportEntry.sourceModule star)) as [src|] eqn:Hsrc;
      [|done].
    destruct (Hrec _ _ _ H) as (keys & r0 & -> & Halong & Hnd & Hfresh).
    exists (mkKey m n :: keys). split_and!; [|done|done].
    eapply along_wildcard; [done| |exact Halong].
    exists star, src. by split_and!.
Qed.

(** A path whose keys are pairwise distinct and not yet visited is the
    one the resolver follows. *)
Lemma along_resolveExportWith m n keys resolved visited :
  along m n keys resolved ->
  NoDup keys -> (forall k, k ∈ keys -> k ∉ visited) ->
  resolveExportWith host registry basePath visited m n = Some resolved.
Proof.
  intros Halong. revert visited.
  induction Halong as [m n Hd|m n m' n' keys r Hre Halong IH
                      |m n m' keys r Hget Hstar Halong IH];
    intros visited Hnd Hfresh.
  - apply resolveExportWith_declares; [|done].
    apply Hfresh, list_elem_of_here.
  - apply NoDup_cons in Hnd as [Hhead Hnd].
    rewrite (resolveExportWith_reExportsFrom _ _ _ _ m n m' n');
      [|apply Hfresh, list_elem_of_here|done].
    rewrite IH; [done|done|].
    intros k Hk. specialize (Hfresh k (list_elem_of_further _ _ _ Hk)).
    set_solver.
  - apply NoDup_cons in Hnd as [Hhead Hnd].
    destruct Hstar as (star & src & Hstar & Hsrc & <-).
    rewrite (resolveExportWith_star _ _ _ _ _ _ _ _
               (Hfresh _ (list_elem_of_here _ _)) Hget Hstar Hsrc).
    rewrite IH; [done|done|].
    intros k Hk. specialize (Hfresh k (list_elem_of_further _ _ _ Hk)).
    set_solver.
Qed.
End ResolutionPaths.

(** X1. [resolveExport] returns a resolution exactly when the re-export
    graph of the registry has a path with pairwise distinct keys from the
    queried key to a direct declaration, and the resolution is the one
    that path yields. *)
Theorem resolveExport_iff_path (host : Host) (registry : ExportRegistry)
    (basePath modulePath exportName : string) (resolved : ResolvedExport.t) :
  resolveExport host registry basePath modulePath exportName = Some resolved
  <-> exists keys,
        NoDup keys /\
        resolvesAlong host registry basePath modulePath exportName keys
          resolved.
Proof.
  split.
  - unfold resolveExport. intros H.
    destruct (resolveExportFrom _ _ _ _ _ _ _) as [[r v']|] eqn:E; [|done].
    subst r.
    destruct (resolveExportFrom_along _ _ _ _ _ _ _ _ _ E)
      as (keys & Halong & Hnd & _).
    by exists keys.
  - intros (keys & Hnd & Halong). rewrite resolveExport_with.
    eapply along_resolveExportWith; [done|done|]. set_solver.
Qed.

Lemma resolveExport_iff_path_witness :
  resolveExport Fixtures.host Fixtures.wildcardRegistry Fixtures.basePath
    "M.ts" "foo"
  = Some {| ResolvedExport.originalModule := "P.ts";
            ResolvedExport.originalName := "foo";
            ResolvedExport.reExportChain := ["M.ts"] |}.
Proof.
  apply (proj2 (resolveExport_iff_path Fixtures.host Fixtures.wildcardRegistry
                  Fixtures.basePath "M.ts" "foo" _)).
  exists ["M.ts::foo"; "P.ts::foo"]. split.
  - apply NoDup_cons. split; [|apply NoDup_singleton].
    intros H. apply list_elem_of_singleton in H. discriminate.
  - apply (along_explicit Fixtures.host Fixtures.wildcardRegistry
             Fixtures.basePath "M.ts" "foo" "P.ts" "foo" ["P.ts::foo"]
             {| ResolvedExport.originalModule := "P.ts";
                ResolvedExport.originalName := "foo";
                ResolvedExport.reExportChain := [] |}).
    + do 2 eexists. repeat split; reflexivity.
    + apply along_direct. eexists. split; reflexivity.
Defined.

(** ** Registries as built *)

Section RegistryInvariants.
Variable host : Host.
Variable P : string -> ExportEntry.t -> Prop.

Lemma set_entries (registry : ExportRegistry) key entry :
  (forall k e, JsMap.get k registry = Some e -> P k e) ->
  P key entry ->
  forall k e, JsMap.get k (JsMap.set key entry registry) = Some e -> P k e.
Proof.
  intros Hall Hnew k e. rewrite get_set.
  destruct (String.eqb k key) eqn:E.
  - apply String.eqb_eq in E. intros [= <-]. by subst.
  - apply Hall.
Qed.

Hypothesis named_ok :
  forall modulePath moduleSpecifier sourceFile importMap namedExport,
    P (namedExportEntry host modulePath moduleSpecifier sourceFile importMap
         namedExport).1
      (namedExportEntry host modulePath moduleSpecifier sourceFile importMap
         namedExport).2.
Hypothesis star_ok :
  forall modulePath resolvedPath,
    resolvedPath ≠ "" ->
    P (mkKey modulePath "*") (starEntry modulePath resolvedPath).
Hypothesis direct_ok :
  forall modulePath name, P (mkKey modulePath name) (directEntry modulePath name).

Lemma truthy_Some o s : truthy o = Some s -> o = Some s /\ s ≠ "".
Proof.
  destruct o as [s'|]; simpl; [|done].
  destruct (String.eqb s' "") eqn:E; [done|].
  apply String.eqb_neq in E. by intros [= ->].
Qed.

(** A property every written entry has is a property of every entry of
    the registry after a file is processed. *)
Lemma extractExportsFromFile_entries sourceFile modulePath
    (registry : ExportRegistry) :
  (forall k e, JsMap.get k registry = Some e -> P k e) ->
  forall k e,
    JsMap.get k (extractExportsFromFile host sourceFile modulePath registry)
    = Some e -> P k e.
Proof.
  intros Hall. unfold extractExportsFromFile, registerDeclarations,
    processExportDeclarations.
  apply (fold_left_invariant
           (fun r => forall k e, JsMap.get k r = Some e -> P k e)).
  - assert (forall k e,
              JsMap.get k
                (fold_left
                   (fun registry exportDecl =>
                      processExportDeclaration host exportDecl modulePath
                        registry sourceFile (buildImportMap host sourceFile))
                   (SourceFile.getExportDeclarations sourceFile) registry)
              = Some e -> P k e) as Hdecls.
    { apply (fold_left_invariant
               (fun r => forall k e, JsMap.get k r = Some e -> P k e));
        [done|].
      intros acc exportDecl Hacc. unfold processExportDeclaration.
      destruct (if ExportDeclaration.isNamespaceExport exportDecl
                then _ else _) as [specifier|].
      - destruct (truthy (resolveModulePath _ _ _)) as [p|] eqn:Hp; [|done].
        apply set_entries; [done|]. apply star_ok.
        by destruct (truthy_Some _ _ Hp).
      - apply (fold_left_invariant
                 (fun r => forall k e, JsMap.get k r = Some e -> P k e));
          [done|].
        intros acc' namedExport Hacc'.
        pose proof (named_ok modulePath
                      (ExportDeclaration.getModuleSpecifierValue exportDecl)
                      sourceFile (buildImportMap host sourceFile) namedExport)
          as Hnamed.
        destruct (namedExportEntry _ _ _ _ _ _) as [key entry].
        by apply set_entries. }
    destruct (0 <? _)%nat; [|done]. unfold registerDefaultExport.
    destruct (negb _); [|done]. by apply set_entries.
  - intros acc [name declarations] Hacc. simpl.
    destruct (JsMap.has _ acc); [done|].
    destruct (existsb _ _); [|done]. by apply set_entries.
Qed.

Lemma buildExportRegistry_entries files basePath :
  forall k e,
    JsMap.get k (buildExportRegistry host files basePath) = Some e -> P k e.
Proof.
  unfold buildExportRegistry.
  apply (fold_left_invariant
           (fun r => forall k e, JsMap.get k r = Some e -> P k e)); [done|].
  intros acc [filePath sourceFile] Hacc.
  by apply extractExportsFromFile_entries.
Qed.
End RegistryInvariants.

Lemma orElse_nonempty (o : option string) (d : string) :
  d ≠ "" -> orElse o d ≠ "".
Proof.
  intros Hd. unfold orElse. destruct (truthy o) as [s|] eqn:E; [|done].
  by destruct (truthy_Some _ _ E).
Qed.

Lemma truthy_nonempty (s : string) : s ≠ "" -> truthy (Some s) = Some s.
Proof. intros H. simpl. apply String.eqb_neq in H. by rewrite H. Qed.

(** X2. In a registry built by [buildExportRegistry], every entry sits
    under the key made of its own [module] and [name]. *)
Theorem buildExportRegistry_keys (host : Host) (files : JsMap SourceFile.t)
    (basePath key : string) (entry : ExportEntry.t) :
  JsMap.get key (buildExportRegistry host files basePath) = Some entry ->
  key = mkKey (ExportEntry.module entry) (ExportEntry.name entry).
Proof.
  apply (buildExportRegistry_entries host
           (fun k e => k = mkKey (ExportEntry.module e) (ExportEntry.name e))).
  - intros modulePath moduleSpecifier sourceFile importMap namedExport.
    unfold namedExportEntry.
    destruct (truthy moduleSpecifier); [done|].
    by destruct (match JsMap.get _ importMap with
                 | Some _ => _ | None => _ end) as [[src srcName]|].
  - done.
  - done.
Qed.

Lemma buildExportRegistry_keys_witness :
  "barrel.ts::X"
  = mkKey (ExportEntry.module
             {| ExportEntry.module := "barrel.ts";
                ExportEntry.name := "X";
                ExportEntry.isReExport := true;
                ExportEntry.sourceModule := Some "/p/A.ts";
                ExportEntry.sourceName := Some "X" |})
          (ExportEntry.name
             {| ExportEntry.module := "barrel.ts";
                ExportEntry.name := "X";
                ExportEntry.isReExport := true;
                ExportEntry.sourceModule := Some "/p/A.ts";
                ExportEntry.sourceName := Some "X" |}).
Proof.
  apply (buildExportRegistry_keys Fixtures.host Fixtures.barrelFiles
           Fixtures.basePath).
  reflexivity.
Defined.

(** X3. In a registry built by [buildExportRegistry], a re-export entry
    always carries a non-empty source module, and a direct entry carries
    neither source module nor source name: the resolver never meets a
    re-export it cannot follow for want of a source. *)
Theorem buildExportRegistry_wellformed (host : Host)
    (files : JsMap SourceFile.t) (basePath key : string)
    (entry : ExportEntry.t) :
  JsMap.get key (buildExportRegistry host files basePath) = Some entry ->
  if ExportEntry.isReExport entry
  then exists src, ExportEntry.sourceModule entry = Some src /\
                   truthy (ExportEntry.sourceModule entry) = Some src
  else ExportEntry.sourceModule entry = None /\
       ExportEntry.sourceName entry = None.
Proof.
  apply (buildExportRegistry_entries host
           (fun _ e =>
              if ExportEntry.isReExport e
              then exists src, ExportEntry.sourceModule e = Some src /\
                               truthy (ExportEntry.sourceModule e) = Some src
              else ExportEntry.sourceModule e = None /\
                   ExportEntry.sourceName e = None)).
  - intros modulePath moduleSpecifier sourceFile importMap namedExport.
    unfold namedExportEntry.
    destruct (truthy moduleSpecifier) as [specifier|] eqn:Hspec.
    + simpl. eexists. split; [done|].
      apply truthy_nonempty, orElse_nonempty.
      by destruct (truthy_Some _ _ Hspec).
    + destruct (JsMap.get _ importMap) as [info|]; [|done].
      destruct (truthy (ImportInfo.sourceModule info)) as [src|] eqn:Hsrc;
        [|done].
      simpl. exists src. split; [done|].
      apply truthy_nonempty. by destruct (truthy_Some _ _ Hsrc).
  - intros modulePath resolvedPath Hne. simpl. exists resolvedPath.
    split; [done|]. apply String.eqb_neq in Hne. by rewrite Hne.
  - done.
Qed.

Lemma buildExportRegistry_wellformed_witness :
  exists src,
    Some "/p/A.ts" = Some src /\ truthy (Some "/p/A.ts") = Some src.
Proof.
  apply (buildExportRegistry_wellformed Fixtures.host Fixtures.barrelFiles
           Fixtures.basePath "barrel.ts::X"
           {| ExportEntry.module := "barrel.ts";
              ExportEntry.name := "X";
              ExportEntry.isReExport := true;
              ExportEntry.sourceModule := Some "/p/A.ts";
              ExportEntry.sourceName := Some "X" |}).
  reflexivity.
Defined.

(** ** Specifier resolution *)

Lemma firstCandidate_Some sourceFile resolved exts candidate :
  firstCandidate sourceFile resolved exts = Some candidate ->
  projectHas sourceFile candidate = true /\
  exists ext, ext ∈ exts /\ candidate = resolved +:+ ext.
Proof.
  induction exts as [|ext exts IH]; simpl; [done|].
  destruct (projectHas sourceFile (resolved +:+ ext)) eqn:E.
  - intros [= <-]. split; [done|]. exists ext. split; [|done].
    apply list_elem_of_here.
  - intros H. destruct (IH H) as (Hhas & ext' & Hin & ->).
    split; [done|]. exists ext'. split; [|done].
    by apply list_elem_of_further.
Qed.

Lemma firstCandidate_None sourceFile resolved exts :
  firstCandidate sourceFile resolved exts = None <->
  forall ext, ext ∈ exts -> projectHas sourceFile (resolved +:+ ext) = false.
Proof.
  induction exts as [|ext exts IH]; simpl.
  - split; [|done]. intros _ ext H. by apply not_elem_of_nil in H.
  - destruct (projectHas sourceFile (resolved +:+ ext)) eqn:E.
    + split; [done|]. intros H.
      rewrite (H ext (list_elem_of_here _ _)) in E. done.
    + rewrite IH. split.
      * intros H ext' Hin. apply elem_of_cons in Hin as [->|Hin]; auto.
      * intros H ext' Hin. apply H. by apply list_elem_of_further.
Qed.

(** X4. [resolveModulePath] answers only for a specifier that starts with
    a dot, and only with a path of the project: the resolved specifier
    itself or the resolved specifier followed by [.ts], [.tsx],
    [/index.ts] or [/index.tsx]. It answers nothing exactly when the
    specifier does not start with a dot or none of these five paths is in
    the project. On a specifier that starts with a dot, [resolveImportPath]
    of the consumer tracer gives the same answer. *)
Theorem resolveModulePath_project (host : Host) (sourceFile : SourceFile.t)
    (specifier : string) :
  let resolved :=
    resolve host (dirname host (SourceFile.getFilePath sourceFile))
      specifier in
  (forall path,
     resolveModulePath host sourceFile specifier = Some path ->
     startsWithDot specifier = true /\
     projectHas sourceFile path = true /\
     (path = resolved \/
      exists ext, ext ∈ extensions /\ path = resolved +:+ ext)) /\
  (resolveModulePath host sourceFile specifier = None <->
   startsWithDot specifier = false \/
   (projectHas sourceFile resolved = false /\
    forall ext, ext ∈ extensions ->
                projectHas sourceFile (resolved +:+ ext) = false)) /\
  (startsWithDot specifier = true ->
   resolveImportPath host sourceFile specifier
   = resolveModulePath host sourceFile specifier).
Proof.
  intros resolved. unfold resolveModulePath, resolveImportPath.
  fold resolved.
  destruct (startsWithDot specifier) eqn:Hdot; cbn [negb].
  - destruct (firstCandidate sourceFile resolved extensions)
      as [candidate|] eqn:Hfirst.
    + apply firstCandidate_Some in Hfirst as (Hhas & ext & Hin & ->).
      split_and!; [|split; [done|]|done].
      * intros path [= <-]. split_and!; [done|done|]. right. by exists ext.
      * intros [?|[_ Hnone]]; [done|]. rewrite (Hnone ext Hin) in Hhas. done.
    + pose proof (proj1 (firstCandidate_None _ _ _) Hfirst) as Hnone.
      destruct (projectHas sourceFile resolved) eqn:Hres.
      * split_and!; [|split; [done|]|done].
        -- intros path [= <-]. split_and!; auto.
        -- intros [?|[? _]]; done.
      * split_and!; [done| |done]. split; [|done]. intros _. by right.
  - split_and!; [done| |done]. split; [|done]. intros _. by left.
Qed.

Lemma resolveModulePath_project_witness :
  startsWithDot "./B" = true /\
  projectHas
    (Fixtures.sourceFile Fixtures.chainProject "/p/A.ts" [] [] [])
    "/p/B.ts" = true /\
  ("/p/B.ts" = "/p/B" \/
   exists ext, ext ∈ extensions /\ "/p/B.ts" = "/p/B" +:+ ext).
Proof.
  apply (proj1 (resolveModulePath_project Fixtures.host
                  (Fixtures.sourceFile Fixtures.chainProject "/p/A.ts"
                     [] [] []) "./B") "/p/B.ts").
  reflexivity.
Defined.

(** ** Import-then-export *)

Section ImportMapFacts.
Variable host : Host.
Variable sourceFile : SourceFile.t.

(** Every binding of the import map takes its source module from the
    resolution of the specifier of some import declaration of the file. *)
Lemma buildImportMap_sources localName info :
  JsMap.get localName (buildImportMap host sourceFile) = Some info ->
  exists importDecl,
    importDecl ∈ SourceFile.getImportDeclarations sourceFile /\
    ImportInfo.sourceModule info
    = resolveModulePath host sourceFile
        (ImportDeclaration.getModuleSpecifierValue importDecl).
Proof.
  unfold buildImportMap.
  set (Q := fun (decls : list ImportDeclaration.t)
                (m : JsMap ImportInfo.t) =>
              forall k i, JsMap.get k m = Some i ->
                exists d, d ∈ decls /\
                  ImportInfo.sourceModule i
                  = resolveModulePath host sourceFile
                      (ImportDeclaration.getModuleSpecifierValue d)).
  assert (forall decls seen m,
            Q seen m ->
            Q (seen ++ decls)%list
              (fold_left (addImportDeclaration host sourceFile) decls m))
    as Hloop.
  { induction decls as [|d decls IH]; intros seen m Hm; simpl.
    - by rewrite app_nil_r.
    - replace (seen ++ d :: decls)%list with ((seen ++ [d]) ++ decls)%list
        by by rewrite <- app_assoc.
      apply IH. unfold addImportDeclaration.
      assert (forall k v (m0 : JsMap ImportInfo.t),
                Q (seen ++ [d])%list m0 ->
                ImportInfo.sourceModule v
                = resolveModulePath host sourceFile
                    (ImportDeclaration.getModuleSpecifierValue d) ->
                Q (seen ++ [d])%list (JsMap.set k v m0)) as Hset.
      { intros k v m0 Hm0 Hv k' i. rewrite get_set.
        destruct (String.eqb k' k); [|apply Hm0].
        intros [= <-]. exists d. split; [set_solver|done]. }
      assert (Q (seen ++ [d])%list m) as Hm'.
      { intros k i Hget. destruct (Hm _ _ Hget) as (d' & Hin & Heq).
        exists d'. split; [set_solver|done]. }
      set (m1 := match ImportDeclaration.getDefaultImport d with
                 | Some _ => _ | None => _ end).
      assert (Q (seen ++ [d])%list m1) as Hm1.
      { unfold m1. destruct (ImportDeclaration.getDefaultImport d); [|done].
        by apply Hset. }
      set (m2 := fold_left _ (ImportDeclaration.getNamedImports d) m1).
      assert (Q (seen ++ [d])%list m2) as Hm2.
      { unfold m2. apply fold_left_invariant; [done|].
        intros acc x Hacc. by apply Hset. }
      destruct (ImportDeclaration.getNamespaceImport d); [|done].
      by apply Hset. }
  intros Hget.
  assert (Q [] []) as Hnil by (intros k i Hk; done).
  exact (Hloop (SourceFile.getImportDeclarations sourceFile) [] [] Hnil
           _ _ Hget).
Qed.
End ImportMapFacts.

(** X5. When no import declaration of a file resolves to a module of the
    project (all of them name packages, say), every name the file exports
    with [export { X }] or [export { X as Y }], without [from], is
    registered as a direct export: an imported package binding is never
    taken for a re-export. *)
Theorem processExportDeclaration_package_binding (host : Host)
    (exportDecl : ExportDeclaration.t) (modulePath : string)
    (registry : ExportRegistry) (sourceFile : SourceFile.t)
    (namedExport : ExportSpecifier.t) :
  (forall importDecl,
     importDecl ∈ SourceFile.getImportDeclarations sourceFile ->
     resolveModulePath host sourceFile
       (ImportDeclaration.getModuleSpecifierValue importDecl) = None) ->
  truthy (ExportDeclaration.getModuleSpecifierValue exportDecl) = None ->
  namedExport ∈ ExportDeclaration.getNamedExports exportDecl ->
  exists entry,
    JsMap.get (mkKey modulePath
                 (orElse (ExportSpecifier.getAliasNode namedExport)
                         (ExportSpecifier.getName namedExport)))
      (processExportDeclaration host exportDecl modulePath registry
         sourceFile (buildImportMap host sourceFile)) = Some entry /\
    ExportEntry.isReExport entry = false.
Proof.
  intros Himports Hspec Hin. unfold processExportDeclaration.
  replace (if ExportDeclaration.isNamespaceExport exportDecl
           then truthy (ExportDeclaration.getModuleSpecifierValue exportDecl)
           else None) with (@None string)
    by (rewrite Hspec; by destruct (ExportDeclaration.isNamespaceExport _)).
  assert (forall x,
            let written :=
              namedExportEntry host modulePath
                (ExportDeclaration.getModuleSpecifierValue exportDecl)
                sourceFile (buildImportMap host sourceFile) x in
            written.1
            = mkKey modulePath
                (orElse (ExportSpecifier.getAliasNode x)
                        (ExportSpecifier.getName x)) /\
            ExportEntry.isReExport written.2 = false) as Hwritten.
  { intros x. unfold namedExportEntry. rewrite Hspec.
    destruct (JsMap.get (ExportSpecifier.getName x)
                (buildImportMap host sourceFile)) as [info|] eqn:Hinfo;
      [|done].
    destruct (buildImportMap_sources _ _ _ _ Hinfo) as (d & Hd & Hsrc).
    rewrite (Himports _ Hd) in Hsrc. by rewrite Hsrc. }
  apply list_elem_of_split in Hin as (l1 & l2 & ->).
  rewrite fold_left_app. simpl.
  apply (fold_left_invariant
           (fun r => exists entry, JsMap.get _ r = Some entry /\ _)).
  - destruct (Hwritten namedExport) as [Hkey Hdirect].
    destruct (namedExportEntry _ _ _ _ _ _) as [key entry]. simpl in *.
    subst key. exists entry. by rewrite get_set_eq.
  - intros acc x (entry & Hget & Hdirect).
    destruct (Hwritten x) as [Hkey Hdirect'].
    destruct (namedExportEntry _ _ _ _ _ x) as [key entry']. simpl in *.
    rewrite get_set. destruct (String.eqb _ key); eauto.
Qed.

Lemma processExportDeclaration_package_binding_witness :
  exists entry,
    JsMap.get "M.ts::lodashMap"
      (processExportDeclaration Fixtures.host
         (Fixtures.exportNamed "map" (Some "lodashMap") None) "M.ts" []
         Fixtures.bindingFile
         (buildImportMap Fixtures.host Fixtures.bindingFile)) = Some entry /\
    ExportEntry.isReExport entry = false.
Proof.
  apply (processExportDeclaration_package_binding Fixtures.host
           (Fixtures.exportNamed "map" (Some "lodashMap") None) "M.ts" []
           Fixtures.bindingFile
           {| ExportSpecifier.getName := "map";
              ExportSpecifier.getAliasNode := Some "lodashMap" |}).
  - intros importDecl Hin. apply list_elem_of_singleton in Hin.
    by subst importDecl.
  - reflexivity.
  - apply list_elem_of_here.
Defined.

(** ** The consumer map *)

Section ConsumerMapFacts.
Variable host : Host.
Variable registry : ExportRegistry.
Variable basePath : string.

(** The lookups of the map after [recordConsumer]. *)
Lemma recordConsumer_get importedModule exportName consumerModule
    (consumers : ConsumerMap) k :
  JsMap.get k
    (recordConsumer host importedModule exportName consumerModule registry
       basePath consumers)
  = if String.eqb importedModule consumerModule then JsMap.get k consumers
    else
      match resolveExport host registry basePath importedModule exportName
      with
      | None => JsMap.get k consumers
      | Some resolved =>
          if String.eqb k (mkKey (ResolvedExport.originalModule resolved)
                                 (ResolvedExport.originalName resolved))
          then Some (default [] (JsMap.get k consumers)
                     ++ [{| Consumer.module := consumerModule;
                            Consumer.via := viaOf resolved |}])%list
          else JsMap.get k consumers
      end.
Proof.
  destruct (String.eqb importedModule consumerModule) eqn:Eself.
  { unfold recordConsumer. by rewrite Eself. }
  destruct (resolveExport host registry basePath importedModule exportName)
    as [resolved|] eqn:Hres.
  2:{ unfold recordConsumer. by rewrite Eself, Hres. }
  apply String.eqb_neq in Eself.
  destruct (String.eqb k _) eqn:Ek.
  - apply String.eqb_eq in Ek. subst k. by apply recordConsumer_appends.
  - apply String.eqb_neq in Ek. unfold recordConsumer.
    apply String.eqb_neq in Eself. rewrite Eself, Hres.
    set (key := mkKey _ _) in *. unfold JsMap.has.
    destruct (JsMap.get key consumers) as [recorded|] eqn:Hget; simpl.
    + rewrite Hget. by rewrite get_set_ne.
    + rewrite get_set_eq. by rewrite !get_set_ne.
Qed.

Section Scan.
Variable consumerModule : string.
Variable Q : string -> Consumer.t -> Prop.
Hypothesis recorded_ok :
  forall k c, recordedBy host registry basePath consumerModule k c -> Q k c.

Local Abbreviation all := (fun (consumers : ConsumerMap) =>
  forall k l c, JsMap.get k consumers = Some l -> c ∈ l -> Q k c).

Lemma recordConsumer_all importedModule exportName (consumers : ConsumerMap) :
  all consumers ->
  all (recordConsumer host importedModule exportName consumerModule registry
         basePath consumers).
Proof.
  intros Hall k l c. rewrite recordConsumer_get.
  destruct (String.eqb importedModule consumerModule) eqn:Eself;
    [apply Hall|].
  destruct (resolveExport _ _ _ _ _) as [resolved|] eqn:Hres; [|apply Hall].
  destruct (String.eqb k _) eqn:Ek; [|apply Hall].
  intros [= <-] Hin. apply elem_of_app in Hin as [Hin|Hin].
  - destruct (JsMap.get k consumers) as [l0|] eqn:Hget; simpl in Hin.
    + by eapply Hall.
    + by apply not_elem_of_nil in Hin.
  - apply list_elem_of_singleton in Hin. subst c. apply recorded_ok.
    apply String.eqb_eq in Ek. apply String.eqb_neq in Eself.
    by exists importedModule, exportName, resolved.
Qed.

Lemma processImportDeclaration_all importDecl files (consumers : ConsumerMap)
    sourceFile :
  all consumers ->
  all (processImportDeclaration host importDecl consumerModule registry files
         basePath consumers sourceFile).
Proof.
  intros Hall. unfold processImportDeclaration.
  destruct (negb (startsWithDot _)); [done|].
  destruct (truthy (resolveImportPath _ _ _)) as [resolvedPath|]; [|done].
  destruct (negb (JsMap.has _ _)); [done|].
  set (c1 := match ImportDeclaration.getDefaultImport importDecl with
             | Some _ => _ | None => _ end).
  assert (all c1) as H1.
  { unfold c1. destruct (ImportDeclaration.getDefaultImport importDecl);
      [|done]. by apply recordConsumer_all. }
  set (c2 := fold_left _ (ImportDeclaration.getNamedImports importDecl) c1).
  assert (all c2) as H2.
  { unfold c2. apply (fold_left_invariant all); [done|].
    intros acc x Hacc. by apply recordConsumer_all. }
  destruct (ImportDeclaration.getNamespaceImport importDecl); [|done].
  unfold processNamespaceUsages.
  apply (fold_left_invariant all); [done|].
  intros acc x Hacc.
  destruct (PropertyAccessExpression.getExpression x); [|done].
  destruct (String.eqb _ _); [|done]. by apply recordConsumer_all.
Qed.

Lemma processImportsInFile_all sourceFile files (consumers : ConsumerMap) :
  all consumers ->
  all (processImportsInFile host sourceFile consumerModule registry files
         basePath consumers).
Proof.
  intros Hall. unfold processImportsInFile.
  apply (fold_left_invariant all); [done|].
  intros acc x Hacc. by apply processImportDeclaration_all.
Qed.
End Scan.

(** Every record of the map [findConsumers] builds was recorded for the
    module of a scanned file. *)
Lemma findConsumers_recordedBy allFiles consumerFiles k l c :
  JsMap.get k (findConsumers host allFiles registry basePath consumerFiles)
  = Some l ->
  c ∈ l ->
  exists filePath sourceFile,
    (filePath, sourceFile) ∈ default allFiles consumerFiles /\
    recordedBy host registry basePath (relative host basePath filePath) k c.
Proof.
  unfold findConsumers.
  set (scan := default allFiles consumerFiles).
  set (Q := fun (seen : JsMap SourceFile.t) (consumers : ConsumerMap) =>
              forall k l c, JsMap.get k consumers = Some l -> c ∈ l ->
                exists filePath sourceFile,
                  (filePath, sourceFile) ∈ seen /\
                  recordedBy host registry basePath
                    (relative host basePath filePath) k c).
  assert (forall todo seen consumers,
            Q seen consumers ->
            Q (seen ++ todo)%list
              (fold_left
                 (fun consumers '(filePath, sourceFile) =>
                    processImportsInFile host sourceFile
                      (relative host basePath filePath) registry allFiles
                      basePath consumers) todo consumers)) as Hloop.
  { induction todo as [|[filePath sourceFile] todo IH];
      intros seen consumers Hseen; simpl.
    - by rewrite app_nil_r.
    - replace (seen ++ (filePath, sourceFile) :: todo)%list
        with ((seen ++ [(filePath, sourceFile)]) ++ todo)%list
        by by rewrite <- app_assoc.
      apply IH.
      set (Q' := fun k c =>
                   exists filePath0 (sourceFile0 : SourceFile.t),
                     (filePath0, sourceFile0)
                       ∈ (seen ++ [(filePath, sourceFile)])%list /\
                     recordedBy host registry basePath
                       (relative host basePath filePath0) k c).
      assert (forall k0 c0,
                recordedBy host registry basePath
                  (relative host basePath filePath) k0 c0 -> Q' k0 c0)
        as Hnew.
      { intros k0 c0 Hrec. exists filePath, sourceFile.
        split; [set_solver|done]. }
      assert (forall k0 l0 c0,
                JsMap.get k0 consumers = Some l0 -> c0 ∈ l0 -> Q' k0 c0)
        as Hold.
      { intros k0 l0 c0 Hget Hin.
        destruct (Hseen _ _ _ Hget Hin) as (f & sf & Hf & Hrec).
        exists f, sf. split; [set_solver|done]. }
      exact (processImportsInFile_all _ Q' Hnew sourceFile allFiles
               consumers Hold). }
  intros Hget Hin.
  assert (Q [] []) as Hnil by (intros ? ? ? ?; done).
  exact (Hloop scan [] [] Hnil _ _ _ Hget Hin).
Qed.
End ConsumerMapFacts.


(** X6. Every consumer [findConsumers] records has the module path of a
    scanned file, relative to the base path: with [consumerFiles] given,
    no file outside of it is ever named as a consumer. *)
Theorem findConsumers_scanned_only (host : Host)
    (allFiles : JsMap SourceFile.t) (registry : ExportRegistry)
    (basePath : string) (consumerFiles : option (JsMap SourceFile.t))
    (key : string) (recorded : list Consumer.t) (consumer : Consumer.t) :
  JsMap.get key (findConsumers host allFiles registry basePath consumerFiles)
  = Some recorded ->
  consumer ∈ recorded ->
  exists filePath sourceFile,
    (filePath, sourceFile) ∈ default allFiles consumerFiles /\
    Consumer.module consumer = relative host basePath filePath.
Proof.
  intros Hget Hin.
  destruct (findConsumers_recordedBy _ _ _ _ _ _ _ _ Hget Hin)
    as (filePath & sourceFile & Hfile & (im & n & r & _ & _ & _ & ->)).
  by exists filePath, sourceFile.
Qed.

Lemma findConsumers_scanned_only_witness :
  exists filePath sourceFile,
    (filePath, sourceFile) ∈ Fixtures.barrelFiles /\
    "A.ts" = relative Fixtures.host Fixtures.basePath filePath.
Proof.
  apply (findConsumers_scanned_only Fixtures.host Fixtures.barrelFiles
           Fixtures.barrelRegistry Fixtures.basePath None "A.ts::X"
           [{| Consumer.module := "A.ts";
               Consumer.via := Some ["barrel.ts"] |}]
           {| Consumer.module := "A.ts";
              Consumer.via := Some ["barrel.ts"] |}).
  - reflexivity.
  - apply list_elem_of_here.
Defined.



Lemma extendsRecords_refl (consumers : ConsumerMap) :
  extendsRecords consumers consumers.
Proof. intros k l H. exists []. by rewrite app_nil_r. Qed.

Lemma extendsRecords_trans (c1 c2 c3 : ConsumerMap) :
  extendsRecords c1 c2 -> extendsRecords c2 c3 -> extendsRecords c1 c3.
Proof.
  intros H12 H23 k l H1.
  destruct (H12 _ _ H1) as (a & H2). destruct (H23 _ _ H2) as (b & H3).
  exists (a ++ b)%list. by rewrite app_assoc.
Qed.

Lemma recordConsumer_extends (host : Host) (registry : ExportRegistry)
    (basePath importedModule exportName consumerModule : string)
    (consumers : ConsumerMap) :
  extendsRecords consumers
    (recordConsumer host importedModule exportName consumerModule registry
       basePath consumers).
Proof.
  intros k l Hget. rewrite recordConsumer_get.
  destruct (String.eqb importedModule consumerModule);
    [by apply extendsRecords_refl|].
  destruct (resolveExport _ _ _ _ _) as [resolved|];
    [|by apply extendsRecords_refl].
  destruct (String.eqb k _); [|by apply extendsRecords_refl].
  rewrite Hget. simpl. by eexists.
Qed.

Lemma fold_left_extends {B} (f : ConsumerMap -> B -> ConsumerMap)
    (l : list B) (consumers : ConsumerMap) :
  (forall acc x, extendsRecords acc (f acc x)) ->
  extendsRecords consumers (fold_left f l consumers).
Proof.
  intros Hstep.
  apply (fold_left_invariant (extendsRecords consumers)).
  - apply extendsRecords_refl.
  - intros acc x Hacc. eapply extendsRecords_trans; [exact Hacc|apply Hstep].
Qed.

(** X8. Scanning the imports of a file only adds to the consumer map:
    every list of records is still there afterwards under the same key,
    with its records in the same order, ahead of whatever the file added. *)
Theorem processImportsInFile_appends (host : Host) (sourceFile : SourceFile.t)
    (consumerModule : string) (registry : ExportRegistry)
    (files : JsMap SourceFile.t) (basePath : string) (consumers : ConsumerMap)
    (key : string) (recorded : list Consumer.t) :
  JsMap.get key consumers = Some recorded ->
  exists added,
    JsMap.get key
      (processImportsInFile host sourceFile consumerModule registry files
         basePath consumers)
    = Some (recorded ++ added)%list.
Proof.
  revert key recorded. fold (extendsRecords consumers
    (processImportsInFile host sourceFile consumerModule registry files
       basePath consumers)).
  unfold processImportsInFile. apply fold_left_extends.
  intros acc importDecl. unfold processImportDeclaration.
  destruct (negb (startsWithDot _)); [apply extendsRecords_refl|].
  destruct (truthy (resolveImportPath _ _ _)) as [resolvedPath|];
    [|apply extendsRecords_refl].
  destruct (negb (JsMap.has _ _)); [apply extendsRecords_refl|].
  set (c1 := match ImportDeclaration.getDefaultImport importDecl with
             | Some _ => _ | None => _ end).
  assert (extendsRecords acc c1) as H1.
  { unfold c1. destruct (ImportDeclaration.getDefaultImport importDecl);
      [apply recordConsumer_extends|apply extendsRecords_refl]. }
  set (c2 := fold_left _ (ImportDeclaration.getNamedImports importDecl) c1).
  assert (extendsRecords acc c2) as H2.
  { eapply extendsRecords_trans; [exact H1|]. unfold c2.
    apply fold_left_extends. intros acc' x. apply recordConsumer_extends. }
  destruct (ImportDeclaration.getNamespaceImport importDecl); [|done].
  eapply extendsRecords_trans; [exact H2|].
  unfold processNamespaceUsages. apply fold_left_extends.
  intros acc' x.
  destruct (PropertyAccessExpression.getExpression x);
    [|apply extendsRecords_refl].
  destruct (String.eqb _ _); [|apply extendsRecords_refl].
  apply recordConsumer_extends.
Qed.

Lemma processImportsInFile_appends_witness :
  exists added,
    JsMap.get "A.ts::X"
      (processImportsInFile Fixtures.host
         (Fixtures.sourceFile Fixtures.twiceProject "/p/D.ts"
            [Fixtures.importNamedAs "X" (Some "X2") "./barrel"] [] [])
         "D.ts" Fixtures.twiceRegistry Fixtures.twiceFiles Fixtures.basePath
         [("A.ts::X", [{| Consumer.module := "E.ts";
                          Consumer.via := None |}])])
    = Some ([{| Consumer.module := "E.ts"; Consumer.via := None |}]
            ++ added)%list.
Proof.
  apply (processImportsInFile_appends Fixtures.host
           (Fixtures.sourceFile Fixtures.twiceProject "/p/D.ts"
              [Fixtures.importNamedAs "X" (Some "X2") "./barrel"] [] [])
           "D.ts" Fixtures.twiceRegistry Fixtures.twiceFiles Fixtures.basePath
           [("A.ts::X", [{| Consumer.module := "E.ts";
                            Consumer.via := None |}])]).
  reflexivity.
Defined.

(** ** Which record deduplication keeps *)

Lemma find_snoc {A} (f : A -> bool) (l : list A) (x : A) :
  List.find f (l ++ [x])
  = match List.find f l with
    | Some y => Some y
    | None => if f x then Some x else None
    end.
Proof.
  induction l as [|y l IH]; simpl; [done|].
  by destruct (f y).
Qed.

Lemma fold_left_snoc {A B} (f : A -> B -> A) (l : list B) (x : B) (a : A) :
  fold_left f (l ++ [x]) a = f (fold_left f l a) x.
Proof. by rewrite fold_left_app. Qed.

(** The [seen] map of [deduplicateConsumers] holds, for every consumer
    module, the preferred record of the module. *)
Lemma dedup_loop_preferred (recorded : list Consumer.t) (modulePath : string) :
  JsMap.get modulePath (fold_left dedupStep recorded [])
  = preferredRecord modulePath recorded.
Proof.
  revert modulePath.
  induction recorded as [|c recorded IH] using rev_ind; intros m; [done|].
  rewrite fold_left_snoc.
  set (seen := fold_left dedupStep recorded []) in *.
  unfold preferredRecord. rewrite !find_snoc.
  pose proof (IH m) as IHm. pose proof (IH (Consumer.module c)) as IHc.
  unfold preferredRecord in IHm, IHc.
  unfold dedupStep, hasVia in *.
  destruct (String.eqb (Consumer.module c) m) eqn:Em.
  - apply String.eqb_eq in Em. subst m. clear IHm.
    destruct (List.find
                (fun c0 => String.eqb (Consumer.module c0) (Consumer.module c)
                           && match Consumer.via c0 with
                              | Some _ => true | None => false end)
                recorded) as [x|] eqn:Hfirst.
    + rewrite IHc. apply find_some in Hfirst as [_ Hx].
      apply andb_prop in Hx as [_ Hx].
      destruct (Consumer.via x); [|done].
      destruct (Consumer.via c); simpl; by rewrite IHc.
    + destruct (List.find
                  (fun c0 => String.eqb (Consumer.module c0)
                               (Consumer.module c)) recorded)
        as [y|] eqn:Hany.
      * rewrite IHc.
        pose proof (find_none _ _ Hfirst) as Hnone.
        apply find_some in Hany as [Hy Hmod].
        specialize (Hnone _ Hy). simpl in Hnone. rewrite Hmod in Hnone.
        simpl in Hnone.
        destruct (Consumer.via y); [done|].
        destruct (Consumer.via c); simpl.
        -- by rewrite get_set_eq.
        -- by rewrite IHc.
      * rewrite IHc. rewrite get_set_eq. simpl.
        by destruct (Consumer.via c).
  - simpl.
    assert (JsMap.get m
              (match JsMap.get (Consumer.module c) seen with
               | Some existing =>
                   match Consumer.via c with
                   | Some _ =>
                       match Consumer.via existing with
                       | Some _ => seen
                       | None => JsMap.set (Consumer.module c) c seen
                       end
                   | None => seen
                   end
               | None => JsMap.set (Consumer.module c) c seen
               end) = JsMap.get m seen) as ->.
    { apply String.eqb_neq in Em.
      destruct (JsMap.get (Consumer.module c) seen) as [existing|].
      - destruct (Consumer.via c); [|done].
        destruct (Consumer.via existing); [done|]. by apply get_set_ne.
      - by apply get_set_ne. }
    rewrite IHm.
    destruct (List.find _ recorded); [done|].
    by destruct (List.find _ recorded).
Qed.

Lemma elem_get {V} (m : JsMap V) k v :
  NoDup (JsMap.keys m) -> (k, v) ∈ m -> JsMap.get k m = Some v.
Proof.
  induction m as [|[k' v'] m IH]; intros Hnd Hin.
  - by apply not_elem_of_nil in Hin.
  - simpl in Hnd. apply NoDup_cons in Hnd as [Hk' Hnd]. simpl.
    apply elem_of_cons in Hin as [Heq|Hin].
    + injection Heq as -> ->. by rewrite String.eqb_refl.
    + destruct (String.eqb k k') eqn:E.
      * apply String.eqb_eq in E. subst k'. exfalso. apply Hk'.
        apply list_elem_of_fmap. by exists (k, v).
      * by apply IH.
Qed.

(** X9. [deduplicateConsumers] keeps, for every consumer module, the
    first record of the module that has [via] and, when none has, the
    first record of the module; it keeps nothing else. *)
Theorem deduplicateConsumers_preferred (host : Host)
    (recorded : list Consumer.t) (kept : Consumer.t) :
  kept ∈ deduplicateConsumers host recorded <->
  preferredRecord (Consumer.module kept) recorded = Some kept.
Proof.
  unfold deduplicateConsumers. rewrite arraySort_Permutation.
  rewrite <- dedup_loop_preferred.
  set (seen := fold_left dedupStep recorded []).
  assert (seenInvariant recorded seen) as (Hnd & Hsound & _).
  { apply (dedup_loop_invariant [] [] recorded). split_and!.
    - apply NoDup_nil_2.
    - intros k c Hin. by apply not_elem_of_nil in Hin.
    - intros c Hin. by apply not_elem_of_nil in Hin. }
  split.
  - intros Hin. apply list_elem_of_fmap in Hin as ([k c] & -> & Hin).
    simpl. destruct (Hsound _ _ Hin) as [-> _]. by apply elem_get.
  - intros Hget. by eapply get_Some_value.
Qed.

Lemma deduplicateConsumers_preferred_witness :
  {| Consumer.module := "D.ts"; Consumer.via := Some ["barrel.ts"] |}
  ∈ deduplicateConsumers Fixtures.host
      [{| Consumer.module := "D.ts"; Consumer.via := None |};
       {| Consumer.module := "D.ts"; Consumer.via := Some ["barrel.ts"] |};
       {| Consumer.module := "D.ts"; Consumer.via := Some ["other.ts"] |}].
Proof.
  apply (proj2 (deduplicateConsumers_preferred Fixtures.host _ _)).
  reflexivity.
Defined.

(** ** Rows of the output *)

Section OutputRows.
Variable host : Host.
Variable registry : ExportRegistry.
Variable consumers : ConsumerMap.
Variable basePath : string.

Local Abbreviation step := (outputStep host registry consumers basePath).
Local Abbreviation inv := (outputInvariant host registry basePath).

Lemma outputStep_invariant state entry :
  entry ∈ JsMap.values registry ->
  inv state ->
  inv (step state entry) /\
  state.2 ⊆ (step state entry).2 /\
  (ExportEntry.name entry ≠ "*" ->
   forall resolved,
     resolveExport host registry basePath (ExportEntry.module entry)
       (ExportEntry.name entry) = Some resolved ->
     mkKey (ResolvedExport.originalModule resolved)
           (ResolvedExport.originalName resolved) ∈ (step state entry).2).
Proof.
  destruct state as [output processed]. intros Hentry (Hnd & Hkeys & Hrows).
  simpl in *. unfold outputStep.
  destruct (String.eqb (ExportEntry.name entry) "*") eqn:Estar.
  { apply String.eqb_eq in Estar. split_and!; [done|done|done]. }
  apply String.eqb_neq in Estar.
  destruct (resolveExport host registry basePath _ _) as [resolved|] eqn:Hres.
  2:{ split_and!; [done|done|]. intros _ r. done. }
  destruct (decide _) as [Hin|Hnew].
  { split_and!; [done|done|]. intros _ r [= <-]. done. }
  simpl. split_and!.
  - split_and!; simpl.
    + rewrite fmap_app. simpl. apply NoDup_app. split_and!; [done| |].
      * intros k Hk Hk'. apply list_elem_of_singleton in Hk'. subst k.
        apply Hnew, Hkeys. exact Hk.
      * apply NoDup_singleton.
    + intros key. rewrite fmap_app. simpl. rewrite elem_of_app.
      rewrite elem_of_union, elem_of_singleton, list_elem_of_singleton.
      rewrite Hkeys. unfold rowKey at 3. simpl. tauto.
    + intros row Hrow. apply elem_of_app in Hrow as [Hrow|Hrow];
        [by apply Hrows|].
      apply list_elem_of_singleton in Hrow. subst row. simpl.
      by exists entry, resolved.
  - set_solver.
  - intros _ r [= <-]. set_solver.
Qed.

Lemma outputLoop_invariant entries state :
  (forall entry, entry ∈ entries -> entry ∈ JsMap.values registry) ->
  inv state ->
  inv (fold_left step entries state) /\
  state.2 ⊆ (fold_left step entries state).2 /\
  (forall entry, entry ∈ entries ->
     ExportEntry.name entry ≠ "*" ->
     forall resolved,
       resolveExport host registry basePath (ExportEntry.module entry)
         (ExportEntry.name entry) = Some resolved ->
       mkKey (ResolvedExport.originalModule resolved)
             (ResolvedExport.originalName resolved)
       ∈ (fold_left step entries state).2).
Proof.
  revert state. induction entries as [|entry entries IH];
    intros state Hsub Hinv; simpl.
  - split_and!; [done|done|]. intros e He. by apply not_elem_of_nil in He.
  - destruct (outputStep_invariant state entry) as (Hinv' & Hmono & Hhere);
      [apply Hsub, list_elem_of_here|done|].
    destruct (IH (step state entry)) as (Hinv'' & Hmono' & Hrest);
      [intros e He; by apply Hsub, list_elem_of_further|done|].
    split_and!; [done|set_solver|].
    intros e He Hname r Hres. apply elem_of_cons in He as [->|He].
    + apply Hmono'. by apply Hhere.
    + by eapply Hrest.
Qed.

(** The state the loop of [buildDependencyOutput] ends in. *)
Lemma buildDependencyOutput_state :
  exists output processed,
    buildDependencyOutput host registry consumers basePath ≡ₚ output /\
    inv (output, processed) /\
    (forall entry, entry ∈ JsMap.values registry ->
       ExportEntry.name entry ≠ "*" ->
       forall resolved,
         resolveExport host registry basePath (ExportEntry.module entry)
           (ExportEntry.name entry) = Some resolved ->
         mkKey (ResolvedExport.originalModule resolved)
               (ResolvedExport.originalName resolved) ∈ processed).
Proof.
  unfold buildDependencyOutput.
  destruct (outputLoop_invariant (JsMap.values registry) ([], ∅))
    as (Hinv & _ & Hall); [done| |].
  { split_and!; simpl.
    - apply NoDup_nil_2.
    - intros key. set_solver.
    - intros row Hrow. by apply not_elem_of_nil in Hrow. }
  destruct (fold_left _ _ _) as [output processed].
  exists output, processed. split_and!; [|done|done].
  apply arraySort_Permutation.
Qed.
End OutputRows.

(** X10. No two rows of the output have the same key
    [module::name]: every original export is reported once, however many
    re-exporting aliases lead to it. *)
Theorem buildDependencyOutput_unique_rows (host : Host)
    (registry : ExportRegistry) (consumers : ConsumerMap) (basePath : string) :
  NoDup (rowKey <$> buildDependencyOutput host registry consumers basePath).
Proof.
  destruct (buildDependencyOutput_state host registry consumers basePath)
    as (output & processed & Hperm & (Hnd & _ & _) & _).
  by rewrite Hperm.
Qed.

(** X11. Every row of the output is an export the registry holds as a
    direct declaration, and it is the original export of some registry
    entry that is not a wildcard sentinel: re-exports never get a row of
    their own. *)
Theorem buildDependencyOutput_rows_original (host : Host)
    (registry : ExportRegistry) (consumers : ConsumerMap) (basePath : string)
    (row : ExportDependencyInfo.t) :
  row ∈ buildDependencyOutput host registry consumers basePath ->
  declares registry (ExportDependencyInfo.module row)
    (ExportDependencyInfo.name row) /\
  exists entry resolved,
    entry ∈ JsMap.values registry /\
    ExportEntry.name entry ≠ "*" /\
    resolveExport host registry basePath (ExportEntry.module entry)
      (ExportEntry.name entry) = Some resolved /\
    ExportDependencyInfo.module row = ResolvedExport.originalModule resolved /\
    ExportDependencyInfo.name row = ResolvedExport.originalName resolved.
Proof.
  destruct (buildDependencyOutput_state host registry consumers basePath)
    as (output & processed & Hperm & (_ & _ & Hrows) & _).
  rewrite Hperm. intros Hin.
  destruct (Hrows _ Hin) as (entry & resolved & He & Hname & Hres & Hm & Hn).
  split; [|by exists entry, resolved].
  simpl in *. rewrite Hm, Hn. by eapply resolveExport_original.
Qed.

Lemma buildDependencyOutput_rows_original_witness :
  declares Fixtures.twiceRegistry "A.ts" "X".
Proof.
  apply (buildDependencyOutput_rows_original Fixtures.host
           Fixtures.twiceRegistry Fixtures.twiceConsumers Fixtures.basePath
           {| ExportDependencyInfo.module := "A.ts";
              ExportDependencyInfo.name := "X";
              ExportDependencyInfo.consumerCount := 1;
              ExportDependencyInfo.consumers :=
                [{| Consumer.module := "D.ts";
                    Consumer.via := Some ["barrel.ts"] |}] |}).
  vm_compute. apply list_elem_of_here.
Defined.

(** X12. Every registry entry that is not a wildcard sentinel and
    resolves has the row of its original export in the output, whether or
    not anything consumes it; and a row under whose key the consumer map
    holds nothing has [consumerCount] 0 and no consumers. *)
Theorem buildDependencyOutput_complete (host : Host)
    (registry : ExportRegistry) (consumers : ConsumerMap) (basePath : string) :
  (forall entry resolved,
     entry ∈ JsMap.values registry ->
     ExportEntry.name entry ≠ "*" ->
     resolveExport host registry basePath (ExportEntry.module entry)
       (ExportEntry.name entry) = Some resolved ->
     exists row,
       row ∈ buildDependencyOutput host registry consumers basePath /\
       rowKey row = mkKey (ResolvedExport.originalModule resolved)
                          (ResolvedExport.originalName resolved)) /\
  (forall row,
     row ∈ buildDependencyOutput host registry consumers basePath ->
     JsMap.get (rowKey row) consumers = None ->
     ExportDependencyInfo.consumerCount row = 0 /\
     ExportDependencyInfo.consumers row = []).
Proof.
  split.
  - intros entry resolved He Hname Hres.
    destruct (buildDependencyOutput_state host registry consumers basePath)
      as (output & processed & Hperm & (_ & Hkeys & _) & Hall).
    pose proof (Hall _ He Hname _ Hres) as Hin.
    apply Hkeys in Hin. simpl in Hin.
    apply list_elem_of_fmap in Hin as (row & Hkey & Hrow).
    exists row. split; [by rewrite Hperm|done].
  - intros row Hrow Hnone.
    destruct (buildDependencyOutput_rows _ _ _ _ _ Hrow) as [Hcons Hcount].
    unfold rowKey in Hnone. rewrite Hnone in Hcons, Hcount. simpl in *.
    by rewrite Hcons, Hcount.
Qed.

Lemma buildDependencyOutput_complete_witness :
  exists row,
    row ∈ buildDependencyOutput Fixtures.host Fixtures.chainRegistry []
            Fixtures.basePath /\
    rowKey row = mkKey "C.ts" "foo".
Proof.
  apply (proj1 (buildDependencyOutput_complete Fixtures.host
                  Fixtures.chainRegistry [] Fixtures.basePath)
           {| ExportEntry.module := "A.ts";
              ExportEntry.name := "foo";
              ExportEntry.isReExport := true;
              ExportEntry.sourceModule := Some "/p/B.ts";
              ExportEntry.sourceName := Some "foo" |}
           {| ResolvedExport.originalModule := "C.ts";
              ResolvedExport.originalName := "foo";
              ResolvedExport.reExportChain := ["A.ts"; "B.ts"] |}).
  - vm_compute. apply list_elem_of_here.
  - discriminate.
  - reflexivity.
Defined.

(** ** Order of the output *)

Section SortedFacts.
Context {A : Type}.
Variable compareFn : A -> A -> Z.
Hypothesis compareFn_total :
  forall x y, (compareFn x y <= 0)%Z \/ (compareFn y x <= 0)%Z.

Local Abbreviation notAfter := (fun x y => (compareFn x y <= 0)%Z).

Lemma sortInsert_HdRel (y x : A) (l : list A) :
  (compareFn y x <= 0)%Z -> HdRel notAfter y l ->
  HdRel notAfter y (sortInsert compareFn x l).
Proof.
  intros Hyx Hhd. destruct l as [|z l]; simpl.
  - by apply HdRel_cons.
  - destruct (compareFn x z <=? 0)%Z; [by apply HdRel_cons|].
    apply HdRel_cons. by inversion Hhd.
Qed.

Lemma sortInsert_Sorted (x : A) (l : list A) :
  Sorted notAfter l -> Sorted notAfter (sortInsert compareFn x l).
Proof.
  induction l as [|y l IH]; intros Hsorted; simpl.
  - apply Sorted_cons; [apply Sorted_nil|apply HdRel_nil].
  - destruct (compareFn x y <=? 0)%Z eqn:E.
    + apply Sorted_cons; [done|]. apply HdRel_cons. by apply Z.leb_le.
    + apply Z.leb_gt in E. inversion Hsorted as [|? ? Hl Hhd]; subst.
      apply Sorted_cons; [by apply IH|].
      apply sortInsert_HdRel; [|done].
      destruct (compareFn_total x y); [lia|done].
Qed.

(** With a comparator that orders any two elements one way or the other,
    the sort leaves every element followed by one that is not before it. *)
Lemma arraySort_Sorted (l : list A) :
  Sorted notAfter (arraySort compareFn l).
Proof.
  induction l as [|x l IH]; simpl; [apply Sorted_nil|].
  by apply sortInsert_Sorted.
Qed.
End SortedFacts.

Lemma sgn_antisym_total (compareFn : string -> string -> Z) :
  (forall a b, Z.sgn (compareFn b a) = (- Z.sgn (compareFn a b))%Z) ->
  forall a b, (compareFn a b <= 0)%Z \/ (compareFn b a <= 0)%Z.
Proof.
  intros Hanti a b. specialize (Hanti a b).
  destruct (Z.sgn_spec (compareFn a b)) as [[? ?]|[[? ?]|[? ?]]];
    destruct (Z.sgn_spec (compareFn b a)) as [[? ?]|[[? ?]|[? ?]]]; lia.
Qed.

Lemma Sorted_weaken {A : Type} (R R' : A -> A -> Prop) (l : list A) :
  (forall a b, R a b -> R' a b) -> Sorted R l -> Sorted R' l.
Proof.
  intros Himpl. induction 1 as [|x l Hsorted IH Hhd]; constructor; [done|].
  destruct Hhd; constructor. by apply Himpl.
Qed.

(** X13. When [localeCompare] is a consistent comparator (comparing two
    strings the other way round gives the opposite sign), the rows of the
    output are in ascending order of module, then name: a row is followed
    by one whose module compares after its own, or whose module compares
    equal and whose name does not compare before its own. In every row
    the consumers are in ascending order of module: each one is followed
    by one whose module does not compare before its own. *)
Theorem buildDependencyOutput_sorted (host : Host)
    (registry : ExportRegistry) (consumers : ConsumerMap) (basePath : string) :
  (forall a b,
     Z.sgn (localeCompare host b a) = (- Z.sgn (localeCompare host a b))%Z) ->
  Sorted (fun a b =>
            (localeCompare host (ExportDependencyInfo.module a)
               (ExportDependencyInfo.module b) < 0)%Z \/
            (localeCompare host (ExportDependencyInfo.module a)
               (ExportDependencyInfo.module b) = 0%Z /\
             (localeCompare host (ExportDependencyInfo.name a)
                (ExportDependencyInfo.name b) <= 0)%Z))
    (buildDependencyOutput host registry consumers basePath) /\
  (forall row,
     row ∈ buildDependencyOutput host registry consumers basePath ->
     Sorted (fun a b =>
               (localeCompare host (Consumer.module a) (Consumer.module b)
                <= 0)%Z)
       (ExportDependencyInfo.consumers row)).
Proof.
  intros Hanti. pose proof (sgn_antisym_total _ Hanti) as Htotal. split.
  - apply (Sorted_weaken (fun a b => (compareRows host a b <= 0)%Z)).
    { intros x y. unfold compareRows.
      destruct (Z.eqb_spec (localeCompare host (ExportDependencyInfo.module x)
                              (ExportDependencyInfo.module y)) 0)
        as [Heq|Hne]; cbn [negb]; lia. }
    unfold buildDependencyOutput. destruct (fold_left _ _ _) as [output ?].
    apply arraySort_Sorted. intros x y. unfold compareRows.
    pose proof (Hanti (ExportDependencyInfo.module x)
                  (ExportDependencyInfo.module y)) as Hm.
    pose proof (Htotal (ExportDependencyInfo.name x)
                  (ExportDependencyInfo.name y)) as Hn.
    destruct (Z.sgn_spec (localeCompare host (ExportDependencyInfo.module x)
                            (ExportDependencyInfo.module y)))
      as [[? ?]|[[? ?]|[? ?]]];
      destruct (Z.sgn_spec (localeCompare host (ExportDependencyInfo.module y)
                              (ExportDependencyInfo.module x)))
        as [[? ?]|[[? ?]|[? ?]]]; try lia;
      repeat match goal with
             | |- context [(?z =? 0)%Z] => destruct (Z.eqb_spec z 0)
             end; simpl; lia.
  - intros row Hrow.
    destruct (buildDependencyOutput_rows _ _ _ _ _ Hrow) as [-> _].
    unfold deduplicateConsumers. apply arraySort_Sorted.
    intros x y. apply Htotal.
Qed.

Lemma compareCodeUnits_antisym (a b : string) :
  Z.sgn (Posix.compareCodeUnits b a)
  = (- Z.sgn (Posix.compareCodeUnits a b))%Z.
Proof.
  unfold Posix.compareCodeUnits. rewrite (String.compare_antisym a b).
  by destruct (String.compare b a).
Qed.

Lemma buildDependencyOutput_sorted_witness :
  Sorted (fun a b =>
            (localeCompare Fixtures.host (ExportDependencyInfo.module a)
               (ExportDependencyInfo.module b) < 0)%Z \/
            (localeCompare Fixtures.host (ExportDependencyInfo.module a)
               (ExportDependencyInfo.module b) = 0%Z /\
             (localeCompare Fixtures.host (ExportDependencyInfo.name a)
                (ExportDependencyInfo.name b) <= 0)%Z))
    (buildDependencyOutput Fixtures.host Fixtures.wildcardRegistry []
       Fixtures.basePath).
Proof.
  apply (buildDependencyOutput_sorted Fixtures.host Fixtures.wildcardRegistry
           [] Fixtures.basePath).
  intros a b. apply compareCodeUnits_antisym.
Defined.

(** ** Splitting keys *)

Lemma append_cons (c : ascii) (s t : string) :
  String c s +:+ t = String c (s +:+ t).
Proof. reflexivity. Qed.

Lemma append_empty_l (s : string) : "" +:+ s = s.
Proof. reflexivity. Qed.

Lemma append_empty_r (s : string) : s +:+ "" = s.
Proof.
  induction s as [|c s IH]; [done|]. by rewrite append_cons, IH.
Qed.

Lemma append_assoc (s t u : string) : (s +:+ t) +:+ u = s +:+ (t +:+ u).
Proof.
  induction s as [|c s IH]; [done|]. by rewrite !append_cons, IH.
Qed.

Lemma prefix_append (s t : string) : String.prefix s (s +:+ t) = true.
Proof.
  induction s as [|c s IH]; [by destruct t|].
  rewrite append_cons. simpl. destruct (ascii_dec c c); [done|congruence].
Qed.

Lemma splitColonsGo_nonempty (cur s : string) : splitColonsGo cur s ≠ [].
Proof.
  assert ((forall cur, splitColonsGo cur s ≠ []) /\
          (forall c cur, splitColonsGo cur (String c s) ≠ [])) as [H _];
    [|apply H].
  clear cur. induction s as [|c' s [IH1 IH2]].
  - split; intros; done.
  - split; [intros cur; apply IH2|].
    intros c cur. simpl.
    destruct (Ascii.eqb c ":" && Ascii.eqb c' ":"); [done|]. apply IH2.
Qed.

(** A string that holds the separator splits in two pieces at least:
    [key.split('::')[1]] is there. *)
Lemma splitColonsGo_second (cur before after : string) :
  exists first second rest,
    splitColonsGo cur (before +:+ "::" +:+ after) = first :: second :: rest.
Proof.
  revert cur. induction before as [|c before IH]; intros cur.
  - rewrite append_empty_l. change ("::" +:+ after) with
      (String ":" (String ":" after)). simpl.
    destruct (splitColonsGo "" after) as [|second rest] eqn:E.
    + by apply splitColonsGo_nonempty in E.
    + by exists cur, second, rest.
  - rewrite append_cons.
    destruct (before +:+ "::" +:+ after) as [|c' s''] eqn:E.
    { destruct before; discriminate. }
    simpl. destruct (Ascii.eqb c ":" && Ascii.eqb c' ":").
    + destruct (splitColonsGo "" s'') as [|second rest] eqn:E'.
      * by apply splitColonsGo_nonempty in E'.
      * by exists cur, second, rest.
    + apply IH.
Qed.

Lemma prefix_split (p key : string) :
  String.prefix p key = true -> exists rest, key = p +:+ rest.
Proof.
  revert key. induction p as [|c p IH]; intros key H.
  - by exists key.
  - destruct key as [|c' key]; [done|]. simpl in H.
    destruct (ascii_dec c c') as [<-|]; [|done].
    destruct (IH _ H) as (rest & ->). by exists rest.
Qed.

Lemma splitColons_second (modulePath key : string) :
  String.prefix (modulePath +:+ "::") key = true ->
  exists first second rest, splitColons key = first :: second :: rest.
Proof.
  intros Hprefix. apply prefix_split in Hprefix as (after & ->).
  rewrite append_assoc. apply splitColonsGo_second.
Qed.

Lemma splitColonsGo_noColon (cur s : string) :
  noColon s = true -> splitColonsGo cur s = [cur +:+ s].
Proof.
  revert cur. induction s as [|c s IH]; intros cur Hs.
  - by rewrite append_empty_r.
  - simpl in Hs. apply andb_prop in Hs as [Hc Hs].
    destruct s as [|c' s].
    + done.
    + change (splitColonsGo cur (String c (String c' s)))
        with (if Ascii.eqb c ":" && Ascii.eqb c' ":"
              then cur :: splitColonsGo "" s
              else splitColonsGo (cur +:+ String c "") (String c' s)).
      apply negb_true_iff in Hc. rewrite Hc. cbn [andb].
      rewrite (IH _ Hs). by rewrite append_assoc.
Qed.

(** The key of a module path and a name without colons splits into the
    two. *)
Lemma splitColons_mkKey (modulePath exportName : string) :
  noColon modulePath = true -> noColon exportName = true ->
  splitColons (mkKey modulePath exportName) = [modulePath; exportName].
Proof.
  intros Hm Hn. unfold splitColons, mkKey.
  assert (forall cur,
            splitColonsGo cur (modulePath +:+ "::" +:+ exportName)
            = [cur +:+ modulePath; exportName]) as H; [|apply H].
  induction modulePath as [|c m IH]; intros cur.
  - rewrite append_empty_l, append_empty_r.
    change ("::" +:+ exportName) with (String ":" (String ":" exportName)).
    simpl. by rewrite splitColonsGo_noColon.
  - simpl in Hm. apply andb_prop in Hm as [Hc Hm].
    apply negb_true_iff in Hc. rewrite append_cons.
    destruct (m +:+ "::" +:+ exportName) as [|c' s''] eqn:E.
    { destruct m; discriminate. }
    change (splitColonsGo cur (String c (String c' s'')))
      with (if Ascii.eqb c ":" && Ascii.eqb c' ":"
            then cur :: splitColonsGo "" s''
            else splitColonsGo (cur +:+ String c "") (String c' s'')).
    rewrite Hc. cbn [andb]. rewrite (IH Hm). by rewrite append_assoc.
Qed.

(** ** Enumerating the exports of a module *)

Section EnumerationFacts.
Variable host : Host.
Variable registry : ExportRegistry.
Variable basePath : string.

Local Abbreviation enumFrom := (getAllExportsFrom host registry basePath).
Local Abbreviation srcModules := (sourceModulesOf host registry basePath).

Lemma getAllExportsFrom_mono fuel fuel' modulePath visited x :
  enumFrom fuel modulePath visited = Some x ->
  fuel <= fuel' ->
  enumFrom fuel' modulePath visited = Some x.
Proof.
  revert fuel' modulePath visited x.
  induction fuel as [|fuel IH]; intros fuel' m visited x H Hle; [done|].
  destruct fuel' as [|fuel']; [lia|].
  assert (fuel <= fuel') as Hle' by lia.
  simpl in *. destruct (decide _); [done|].
  destruct (JsMap.get (mkKey m "*") registry) as [star|]; [|done].
  destruct (truthy (ExportEntry.sourceModule star)) as [src|]; [|done].
  destruct (enumFrom fuel _ _) as [r|] eqn:E; [|done].
  by rewrite (IH _ _ _ _ E Hle').
Qed.

Lemma getAllExportsFrom_candidates fuel m visited :
  m ∈ srcModules ->
  unvisited srcModules visited < fuel ->
  is_Some (enumFrom fuel m visited).
Proof.
  revert m visited.
  induction fuel as [|fuel IH]; intros m visited Hm Hlt; [lia|].
  simpl. destruct (decide _) as [|Hnew]; [by eexists|].
  pose proof (unvisited_add_lt _ _ _ Hm Hnew) as Hdec.
  destruct (JsMap.get (mkKey m "*") registry) as [star|] eqn:Hstar;
    [|by eexists].
  destruct (truthy (ExportEntry.sourceModule star)) as [src|] eqn:Hsrc;
    [|by eexists].
  destruct (IH (relative host basePath src) ({[m]} ∪ visited))
    as [[r v'] ->]; [by eapply source_module_candidate|lia|by eexists].
Qed.

Lemma getAllExportsFrom_total modulePath visited :
  is_Some (enumFrom (enumerateFuel registry) modulePath visited).
Proof.
  unfold enumerateFuel.
  remember (S (length registry)) as fuel eqn:Efuel. simpl.
  destruct (decide _) as [|Hnew]; [by eexists|].
  destruct (JsMap.get (mkKey modulePath "*") registry) as [star|] eqn:Hstar;
    [|by eexists].
  destruct (truthy (ExportEntry.sourceModule star)) as [src|] eqn:Hsrc;
    [|by eexists].
  destruct (getAllExportsFrom_candidates fuel (relative host basePath src)
              ({[modulePath]} ∪ visited)) as [[r v'] ->]; [| |by eexists].
  - by eapply source_module_candidate.
  - pose proof (unvisited_le_length srcModules ({[modulePath]} ∪ visited)).
    pose proof (length_omap_le
      (fun entry => relative host basePath <$>
                    truthy (ExportEntry.sourceModule entry))
      (JsMap.values registry)) as Hlen.
    unfold JsMap.values in Hlen. rewrite length_fmap in Hlen.
    unfold sourceModulesOf, JsMap.values in *. lia.
Qed.

Lemma getAllExportsWith_run fuel visited modulePath result visited' :
  enumFrom fuel modulePath visited = Some (result, visited') ->
  getAllExportsWith host registry basePath visited modulePath = result.
Proof.
  intros H. unfold getAllExportsWith.
  destruct (getAllExportsFrom_total modulePath visited) as [y Hy].
  destruct (Nat.le_ge_cases fuel (enumerateFuel registry)) as [Hle|Hle].
  - by rewrite (getAllExportsFrom_mono _ _ _ _ _ H Hle).
  - pose proof (getAllExportsFrom_mono _ _ _ _ _ Hy Hle) as Hy'.
    rewrite H in Hy'. injection Hy' as <-. by rewrite Hy.
Qed.

(** The map of a call in terms of the map of the call on the wildcard's
    source. *)
Lemma getAllExportsWith_unfold visited modulePath :
  modulePath ∉ visited ->
  getAllExportsWith host registry basePath visited modulePath
  = let result :=
      fold_left (directExportStep host registry basePath modulePath)
        (JsMap.keys registry) [] in
    match JsMap.get (mkKey modulePath "*") registry with
    | Some starEntry =>
        match truthy (ExportEntry.sourceModule starEntry) with
        | Some src =>
            fold_left (starExportStep modulePath)
              (getAllExportsWith host registry basePath
                 ({[modulePath]} ∪ visited) (relative host basePath src))
              result
        | None => result
        end
    | None => result
    end.
Proof.
  intros Hnew. simpl.
  destruct (JsMap.get (mkKey modulePath "*") registry) as [star|] eqn:Hstar.
  2:{ apply (getAllExportsWith_run 1 _ _ _ ({[modulePath]} ∪ visited)).
      simpl. rewrite decide_False by done. by rewrite Hstar. }
  destruct (truthy (ExportEntry.sourceModule star)) as [src|] eqn:Hsrc.
  2:{ apply (getAllExportsWith_run 1 _ _ _ ({[modulePath]} ∪ visited)).
      simpl. rewrite decide_False by done. by rewrite Hstar, Hsrc. }
  destruct (getAllExportsFrom_total (relative host basePath src)
              ({[modulePath]} ∪ visited)) as [[r v'] Hr].
  rewrite (getAllExportsWith_run _ _ _ _ _ Hr).
  apply (getAllExportsWith_run (S (enumerateFuel registry)) _ _ _ v').
  remember (enumerateFuel registry) as fuel.
  simpl. rewrite decide_False by done. by rewrite Hstar, Hsrc, Hr.
Qed.

Section Listed.
Variable Q : string -> ResolvedExport.t -> Prop.
Hypothesis resolved_ok :
  forall m n r,
    n ≠ "*" -> resolveExport host registry basePath m n = Some r -> Q n r.
Hypothesis prepend_ok : forall m n r, Q n r -> Q n (prependChain m r).

Local Abbreviation all := (fun (result : JsMap ResolvedExport.t) =>
  forall n r, (n, r) ∈ result -> Q n r).

Lemma set_all (result : JsMap ResolvedExport.t) n r :
  all result -> Q n r -> all (JsMap.set n r result).
Proof.
  intros Hall Hnew n' r' Hin.
  induction result as [|[n0 r0] result IH]; simpl in Hin.
  - apply list_elem_of_singleton in Hin. by injection Hin as -> ->.
  - destruct (String.eqb n n0) eqn:E.
    + apply String.eqb_eq in E. subst n0.
      apply elem_of_cons in Hin as [Heq|Hin].
      * by injection Heq as -> ->.
      * apply Hall. by apply list_elem_of_further.
    + apply elem_of_cons in Hin as [Heq|Hin].
      * apply Hall. rewrite Heq. apply list_elem_of_here.
      * apply IH; [|done]. intros n1 r1 H1. apply Hall.
        by apply list_elem_of_further.
Qed.

Lemma directExportStep_all modulePath (result : JsMap ResolvedExport.t) key :
  all result -> all (directExportStep host registry basePath modulePath
                       result key).
Proof.
  intros Hall. unfold directExportStep.
  destruct (negb _); [done|].
  destruct (splitColons key) as [|first [|exportName rest]]; [done|done|].
  destruct (String.eqb exportName "*") eqn:E; [done|].
  apply String.eqb_neq in E.
  destruct (resolveExport _ _ _ _ _) as [r|] eqn:Hres; [|done].
  apply set_all; [done|]. by eapply resolved_ok.
Qed.

Lemma starExportStep_all modulePath (result : JsMap ResolvedExport.t) n r :
  all result -> Q n r -> all (starExportStep modulePath result (n, r)).
Proof.
  intros Hall Hnew. simpl. destruct (negb _); [|done].
  apply set_all; [done|]. by apply prepend_ok.
Qed.

Lemma getAllExportsFrom_all fuel modulePath visited result visited' :
  enumFrom fuel modulePath visited = Some (result, visited') -> all result.
Proof.
  revert modulePath visited result visited'.
  induction fuel as [|fuel IH]; intros m visited result v' H; [done|].
  simpl in H. destruct (decide _) as [Hvisited|Hnew].
  { injection H as <- <-. intros n r Hin. by apply not_elem_of_nil in Hin. }
  assert (all (fold_left (directExportStep host registry basePath m)
                 (JsMap.keys registry) [])) as Hdirect.
  { apply (fold_left_invariant all).
    - intros n r Hin. by apply not_elem_of_nil in Hin.
    - intros acc key Hacc. by apply directExportStep_all. }
  destruct (JsMap.get (mkKey m "*") registry) as [star|];
    [|by injection H as <- <-].
  destruct (truthy (ExportEntry.sourceModule star)) as [src|];
    [|by injection H as <- <-].
  destruct (enumFrom fuel _ _) as [[starExports v0]|] eqn:E; [|done].
  injection H as <- <-.
  pose proof (IH _ _ _ _ E) as Hstar. clear E IH.
  revert Hdirect.
  generalize (fold_left (directExportStep host registry basePath m)
                (JsMap.keys registry) []).
  induction starExports as [|[n0 r0] l IHl]; intros acc Hacc; simpl; [done|].
  apply IHl.
  - intros n r Hin. apply Hstar. by apply list_elem_of_further.
  - apply (starExportStep_all m acc n0 r0); [done|].
    apply Hstar, list_elem_of_here.
Qed.
End Listed.

(** The keys of a map returned by the enumeration are pairwise distinct. *)
Lemma getAllExportsFrom_NoDup fuel modulePath visited result visited' :
  enumFrom fuel modulePath visited = Some (result, visited') ->
  NoDup (JsMap.keys result).
Proof.
  destruct fuel as [|fuel]; [done|]. simpl.
  destruct (decide _) as [Hvisited|Hnew].
  { intros [= <- <-]. apply NoDup_nil_2. }
  assert (NoDup (JsMap.keys
                   (fold_left (directExportStep host registry basePath
                                 modulePath) (JsMap.keys registry) [])))
    as Hdirect.
  { apply (fold_left_invariant (fun r => NoDup (JsMap.keys r)));
      [apply NoDup_nil_2|].
    intros acc key Hacc. unfold directExportStep.
    destruct (negb _); [done|].
    destruct (splitColons key) as [|first [|exportName rest]]; [done|done|].
    destruct (String.eqb exportName "*"); [done|].
    destruct (resolveExport _ _ _ _ _); [|done]. by apply keys_set_NoDup. }
  destruct (JsMap.get (mkKey modulePath "*") registry) as [star|];
    [|by intros [= <- <-]].
  destruct (truthy (ExportEntry.sourceModule star)) as [src|];
    [|by intros [= <- <-]].
  destruct (enumFrom fuel _ _) as [[starExports v0]|]; [|done].
  intros [= <- <-].
  apply (fold_left_invariant (fun r => NoDup (JsMap.keys r))); [done|].
  intros acc [n r] Hacc. simpl. destruct (negb _); [|done].
  by apply keys_set_NoDup.
Qed.

(** What the loop over the registry keys leaves: under every name, the
    resolution of the name in the module. *)
Lemma directExports_resolved modulePath keys (result : JsMap ResolvedExport.t) :
  (forall n r, JsMap.get n result = Some r ->
               resolveExport host registry basePath modulePath n = Some r) ->
  forall n r,
    JsMap.get n (fold_left (directExportStep host registry basePath
                              modulePath) keys result) = Some r ->
    resolveExport host registry basePath modulePath n = Some r.
Proof.
  intros Hresult.
  apply (fold_left_invariant
           (fun acc => forall n r, JsMap.get n acc = Some r ->
              resolveExport host registry basePath modulePath n = Some r));
    [done|].
  intros acc key Hacc n r. unfold directExportStep.
  destruct (negb _); [apply Hacc|].
  destruct (splitColons key) as [|first [|exportName rest]];
    [apply Hacc|apply Hacc|].
  destruct (String.eqb exportName "*"); [apply Hacc|].
  destruct (resolveExport host registry basePath modulePath exportName)
    as [r'|] eqn:Hres; [|apply Hacc].
  rewrite get_set. destruct (String.eqb n exportName) eqn:E; [|apply Hacc].
  apply String.eqb_eq in E. subst. by intros [= <-].
Qed.

Lemma directExports_listed modulePath keys (result : JsMap ResolvedExport.t)
    key first exportName rest resolved :
  (forall n r, JsMap.get n result = Some r ->
               resolveExport host registry basePath modulePath n = Some r) ->
  key ∈ keys ->
  String.prefix (modulePath +:+ "::") key = true ->
  splitColons key = first :: exportName :: rest ->
  exportName ≠ "*" ->
  resolveExport host registry basePath modulePath exportName = Some resolved ->
  JsMap.get exportName
    (fold_left (directExportStep host registry basePath modulePath) keys
       result) = Some resolved.
Proof.
  intros Hresult Hin Hprefix Hsplit Hname Hres.
  apply list_elem_of_split in Hin as (l1 & l2 & ->).
  rewrite fold_left_app. simpl.
  set (acc1 := fold_left _ l1 result).
  assert (JsMap.get exportName
            (directExportStep host registry basePath modulePath acc1 key)
          = Some resolved) as Hhere.
  { unfold directExportStep. rewrite Hprefix, Hsplit. simpl.
    apply String.eqb_neq in Hname. rewrite Hname, Hres.
    apply get_set_eq. }
  revert Hhere.
  generalize (directExportStep host registry basePath modulePath acc1 key).
  induction l2 as [|k l2 IH]; intros acc Hacc; simpl; [done|].
  apply IH. unfold directExportStep.
  destruct (negb _); [done|].
  destruct (splitColons k) as [|f [|x rs]]; [done|done|].
  destruct (String.eqb x "*"); [done|].
  destruct (resolveExport host registry basePath modulePath x)
    as [r'|] eqn:Hres'; [|done].
  rewrite get_set. destruct (String.eqb exportName x) eqn:E; [|done].
  apply String.eqb_eq in E. subst. congruence.
Qed.

(** Names set before the wildcard is merged keep their resolution. *)
Lemma starExports_keep modulePath starExports
    (result : JsMap ResolvedExport.t) n r :
  JsMap.get n result = Some r ->
  JsMap.get n (fold_left (starExportStep modulePath) starExports result)
  = Some r.
Proof.
  revert result. induction starExports as [|[n0 r0] l IH];
    intros result Hget; simpl; [done|].
  apply IH. destruct (JsMap.has n0 result) eqn:Hhas; simpl; [done|].
  rewrite get_set_ne; [done|]. intros ->.
  apply has_false in Hhas. congruence.
Qed.
End EnumerationFacts.

Lemma starExports_inherit (modulePath : string)
    (starExports result : JsMap ResolvedExport.t) (n : string)
    (r : ResolvedExport.t) :
  JsMap.get n result = None ->
  JsMap.get n starExports = Some r ->
  JsMap.get n (fold_left (starExportStep modulePath) starExports result)
  = Some (prependChain modulePath r).
Proof.
  revert result. induction starExports as [|[n0 r0] l IH];
    intros result Hnone Hget; simpl in *; [done|].
  destruct (String.eqb n n0) eqn:E.
  - apply String.eqb_eq in E. subst n0. injection Hget as ->.
    apply has_false in Hnone. rewrite Hnone. simpl.
    apply starExports_keep, get_set_eq.
  - apply String.eqb_neq in E. apply IH; [|done].
    destruct (negb (JsMap.has n0 result)); [|done].
    rewrite get_set_ne; [done|]. by intros ->.
Qed.

(** X14. [getAllExportsFromModule] terminates: on every registry, for
    every module and every [visited] set, the recursion through wildcards
    answers within [enumerateFuel] nested calls, with the same answer for
    any larger bound, and [getAllExportsFromModule] returns the map of
    that run. A module already visited yields the empty map. *)
Theorem getAllExportsFromModule_terminates (host : Host)
    (registry : ExportRegistry) (basePath : string) :
  (forall modulePath visited,
     exists answer,
       forall fuel, enumerateFuel registry <= fuel ->
         getAllExportsFrom host registry basePath fuel modulePath visited
         = Some answer) /\
  (forall modulePath,
     exists visited',
       forall fuel, enumerateFuel registry <= fuel ->
         getAllExportsFrom host registry basePath fuel modulePath ∅
         = Some (getAllExportsFromModule host registry basePath modulePath,
                 visited')) /\
  (forall fuel modulePath visited,
     modulePath ∈ visited ->
     getAllExportsFrom host registry basePath (S fuel) modulePath visited
     = Some ([], visited)).
Proof.
  split_and!.
  - intros m visited.
    destruct (getAllExportsFrom_total host registry basePath m visited)
      as [answer Hanswer].
    exists answer. intros fuel Hle. by eapply getAllExportsFrom_mono.
  - intros m. unfold getAllExportsFromModule.
    destruct (getAllExportsFrom_total host registry basePath m ∅)
      as [[r visited'] Hanswer].
    exists visited'. intros fuel Hle. rewrite Hanswer.
    by eapply getAllExportsFrom_mono.
  - intros fuel m visited Hin. simpl. by rewrite decide_True.
Qed.

Lemma getAllExportsFromModule_terminates_witness :
  getAllExportsFrom Fixtures.host Fixtures.barrelStarRegistry
    Fixtures.basePath 1 "S.ts" {["S.ts"]}
  = Some ([], {["S.ts"]}).
Proof.
  apply (proj2 (proj2 (getAllExportsFromModule_terminates Fixtures.host
                         Fixtures.barrelStarRegistry Fixtures.basePath))).
  set_solver.
Defined.

(** X15. Every export [getAllExportsFromModule] lists is filed under a
    name other than the wildcard sentinel [*], once, and is an export the
    registry holds as a direct declaration. *)
Theorem getAllExportsFromModule_listed (host : Host)
    (registry : ExportRegistry) (basePath modulePath : string) :
  NoDup (JsMap.keys
           (getAllExportsFromModule host registry basePath modulePath)) /\
  (forall name resolved,
     JsMap.get name
       (getAllExportsFromModule host registry basePath modulePath)
     = Some resolved ->
     name ≠ "*" /\
     declares registry (ResolvedExport.originalModule resolved)
       (ResolvedExport.originalName resolved)).
Proof.
  unfold getAllExportsFromModule.
  destruct (getAllExportsFrom_total host registry basePath modulePath ∅)
    as [[result visited'] Hrun].
  rewrite Hrun. split.
  - by eapply getAllExportsFrom_NoDup.
  - intros name resolved Hget.
    apply (getAllExportsFrom_all host registry basePath
             (fun n r => n ≠ "*" /\
                declares registry (ResolvedExport.originalModule r)
                  (ResolvedExport.originalName r))
             ) with (fuel := enumerateFuel registry) (modulePath := modulePath)
                    (visited := ∅) (result := result) (visited' := visited').
    + intros m n r Hn Hres. split; [done|].
      by eapply resolveExport_original.
    + intros m n r H. exact H.
    + done.
    + clear -Hget. induction result as [|[k v] result IH]; [done|].
      simpl in Hget. destruct (String.eqb name k) eqn:E.
      * apply String.eqb_eq in E. injection Hget as ->. subst.
        apply list_elem_of_here.
      * apply list_elem_of_further. by apply IH.
Qed.

Lemma getAllExportsFromModule_listed_witness :
  "bar" ≠ "*" /\ declares Fixtures.barrelStarRegistry "P.ts" "bar".
Proof.
  apply (proj2 (getAllExportsFromModule_listed Fixtures.host
                  Fixtures.barrelStarRegistry Fixtures.basePath "S.ts")
           "bar"
           {| ResolvedExport.originalModule := "P.ts";
              ResolvedExport.originalName := "bar";
              ResolvedExport.reExportChain := ["S.ts"] |}).
  reflexivity.
Defined.

(** X16. In the enumeration of a module, a name with a registry key of
    its own is listed with the resolution [resolveExport] gives for it,
    whatever the module's wildcard brings under the same name; a name
    the loop over the keys leaves unset and the enumeration of the
    wildcard's source lists is listed with what the source lists, the
    module put in front of the chain. (Module path and name are taken
    without colons, so that the key splits back into the two.) *)
Theorem getAllExportsFromModule_shadowing (host : Host)
    (registry : ExportRegistry) (basePath modulePath : string) :
  (forall exportName resolved,
     noColon modulePath = true -> noColon exportName = true ->
     exportName ≠ "*" ->
     is_Some (JsMap.get (mkKey modulePath exportName) registry) ->
     resolveExport host registry basePath modulePath exportName
     = Some resolved ->
     JsMap.get exportName
       (getAllExportsFromModule host registry basePath modulePath)
     = Some resolved) /\
  (forall name resolved sourcePath,
     wildcardFrom host registry basePath modulePath sourcePath ->
     JsMap.get name
       (fold_left (directExportStep host registry basePath modulePath)
          (JsMap.keys registry) []) = None ->
     JsMap.get name
       (getAllExportsWith host registry basePath {[modulePath]} sourcePath)
     = Some resolved ->
     JsMap.get name
       (getAllExportsFromModule host registry basePath modulePath)
     = Some (prependChain modulePath resolved)).
Proof.
  assert (getAllExportsFromModule host registry basePath modulePath
          = getAllExportsWith host registry basePath ∅ modulePath) as ->
    by reflexivity.
  rewrite getAllExportsWith_unfold by set_solver.
  replace ({[modulePath]} ∪ ∅ : gset string)
    with ({[modulePath]} : gset string) by set_solver.
  split.
  - intros exportName resolved Hm Hn Hname [entry Hentry] Hres.
    assert (JsMap.get exportName
              (fold_left (directExportStep host registry basePath modulePath)
                 (JsMap.keys registry) []) = Some resolved) as Hdirect.
    { eapply (directExports_listed host registry basePath modulePath
                (JsMap.keys registry) [] (mkKey modulePath exportName)
                modulePath exportName []); try done.
      - by eapply get_Some_key.
      - unfold mkKey. rewrite <- append_assoc. apply prefix_append.
      - by apply splitColons_mkKey. }
    simpl. destruct (JsMap.get (mkKey modulePath "*") registry) as [star|];
      [|done].
    destruct (truthy (ExportEntry.sourceModule star)); [|done].
    by apply starExports_keep.
  - intros name resolved sourcePath (star & src & Hstar & Hsrc & <-)
      Hnone Hget.
    simpl. rewrite Hstar, Hsrc. by apply starExports_inherit.
Qed.

Lemma getAllExportsFromModule_shadowing_witness :
  JsMap.get "foo"
    (getAllExportsFromModule Fixtures.host Fixtures.barrelStarRegistry
       Fixtures.basePath "S.ts")
  = Some {| ResolvedExport.originalModule := "Q.ts";
            ResolvedExport.originalName := "foo";
            ResolvedExport.reExportChain := ["S.ts"] |}.
Proof.
  apply (proj1 (getAllExportsFromModule_shadowing Fixtures.host
                  Fixtures.barrelStarRegistry Fixtures.basePath "S.ts")
           "foo").
  - reflexivity.
  - reflexivity.
  - discriminate.
  - by eexists.
  - reflexivity.
Defined.

(** ** Splitting and joining paths *)

Section SeparatorFacts.
Variable sep : ascii.

Lemma splitOnGo_nonempty (cur s : string) : splitOnGo sep cur s ≠ [].
Proof.
  revert cur. induction s as [|c s IH]; intros cur; simpl; [done|].
  destruct (Ascii.eqb c sep); [done|apply IH].
Qed.

Lemma joinWith_cons (piece : string) (rest : list string) :
  rest ≠ [] ->
  joinWith sep (piece :: rest)
  = piece +:+ String sep "" +:+ joinWith sep rest.
Proof. by destruct rest. Qed.

Lemma joinWith_splitOnGo (cur s : string) :
  joinWith sep (splitOnGo sep cur s) = cur +:+ s.
Proof.
  revert cur. induction s as [|c s IH]; intros cur; simpl.
  - by rewrite append_empty_r.
  - destruct (Ascii.eqb c sep) eqn:E.
    + apply Ascii.eqb_eq in E. subst c.
      rewrite joinWith_cons by apply splitOnGo_nonempty.
      by rewrite IH.
    + rewrite IH. by rewrite append_assoc.
Qed.

Lemma joinWith_app (a b : list string) :
  a ≠ [] -> b ≠ [] ->
  joinWith sep (a ++ b)
  = joinWith sep a +:+ String sep "" +:+ joinWith sep b.
Proof.
  induction a as [|x a IH]; intros Ha Hb; [done|].
  destruct a as [|y a].
  - simpl app. by rewrite joinWith_cons.
  - change ((x :: y :: a) ++ b)%list with (x :: ((y :: a) ++ b))%list.
    rewrite joinWith_cons by done. rewrite IH by done.
    rewrite (joinWith_cons x (y :: a)) by done.
    by rewrite !append_assoc.
Qed.

Lemma splitOnGo_pieces (cur s piece : string) :
  allChars (fun c => negb (Ascii.eqb c sep)) cur = true ->
  piece ∈ splitOnGo sep cur s ->
  allChars (fun c => negb (Ascii.eqb c sep)) piece = true.
Proof.
  revert cur. induction s as [|c s IH]; intros cur Hcur Hin; simpl in Hin.
  - apply list_elem_of_singleton in Hin. by subst.
  - destruct (Ascii.eqb c sep) eqn:E.
    + apply elem_of_cons in Hin as [->|Hin]; [done|]. by apply (IH "").
    + apply (IH (cur +:+ String c "")); [|done].
      clear -Hcur E. induction cur as [|c' cur IH]; simpl.
      * by rewrite E.
      * simpl in Hcur. apply andb_prop in Hcur as [-> Hcur]. by apply IH.
Qed.

Lemma commonPartsFrom_prefix (parts : list (list string)) (i n : nat)
    (p : list string) :
  p ∈ parts ->
  exists rest, drop i p = (commonPartsFrom parts i n ++ rest)%list.
Proof.
  intros Hp. revert i. induction n as [|n IH]; intros i; simpl.
  - by exists (drop i p).
  - destruct parts as [|first parts']; [by apply not_elem_of_nil in Hp|].
    destruct (first !! i) as [segment|]; [|by exists (drop i p)].
    destruct (forallb _ _) eqn:Hall; [|by exists (drop i p)].
    destruct (IH (S i)) as (rest & Hrest). exists rest.
    rewrite forallb_forall in Hall.
    specialize (Hall p (proj1 (list_elem_of_In _ _) Hp)).
    apply bool_decide_eq_true in Hall.
    rewrite (drop_S _ _ _ Hall). by rewrite Hrest.
Qed.

Lemma commonPartsFrom_same (parts : list (list string)) (l : list string)
    (i n : nat) :
  parts ≠ [] -> (forall p, p ∈ parts -> p = l) ->
  i + n = length l ->
  commonPartsFrom parts i n = drop i l.
Proof.
  intros Hne Hall. revert i. induction n as [|n IH]; intros i Hlen; simpl.
  - rewrite drop_ge; [done|lia].
  - destruct parts as [|first parts']; [done|].
    assert (first = l) as -> by apply Hall, list_elem_of_here.
    destruct (lookup_lt_is_Some_2 l i) as [segment Hseg]; [lia|].
    rewrite Hseg.
    assert (forallb (fun p => bool_decide (p !! i = Some segment))
              (l :: parts') = true) as ->.
    { apply forallb_forall. intros p Hp.
      apply list_elem_of_In in Hp. rewrite (Hall p Hp).
      by apply bool_decide_eq_true. }
    rewrite IH by lia. by rewrite (drop_S _ _ _ Hseg).
Qed.

Lemma minLength_same (parts : list (list string)) (l : list string) :
  parts ≠ [] -> (forall p, p ∈ parts -> p = l) ->
  minLength parts = length l.
Proof.
  intros Hne Hall. destruct parts as [|first rest]; [done|]. simpl.
  rewrite (Hall first (list_elem_of_here _ _)).
  assert (forall p, p ∈ rest -> p = l) as Hrest
    by (intros p Hp; by apply Hall, list_elem_of_further).
  clear -Hrest. induction rest as [|q rest IH]; simpl; [done|].
  rewrite (Hrest q (list_elem_of_here _ _)). rewrite Nat.min_id.
  apply IH. intros p Hp. by apply Hrest, list_elem_of_further.
Qed.
End SeparatorFacts.

(** X17. Splitting a string at a separator character and joining the
    pieces with the separator gives the string back, and no piece holds
    the separator. *)
Theorem joinWith_splitOn (sep : ascii) (s : string) :
  joinWith sep (splitOn sep s) = s /\
  (forall piece, piece ∈ splitOn sep s ->
     allChars (fun c => negb (Ascii.eqb c sep)) piece = true).
Proof.
  split.
  - unfold splitOn. by rewrite joinWith_splitOnGo.
  - intros piece. by apply splitOnGo_pieces.
Qed.

(** X18. What [findCommonAncestor] returns is an ancestor of every path
    it is given: unless it falls back on ["/"], each path is the result
    itself or starts with the result followed by the separator. *)
Theorem findCommonAncestor_ancestor (sep : ascii) (paths : list string)
    (p : string) :
  p ∈ paths ->
  findCommonAncestor sep paths = "/" \/
  p = findCommonAncestor sep paths \/
  String.prefix (findCommonAncestor sep paths +:+ String sep "") p = true.
Proof.
  intros Hp. destruct paths as [|q [|q' paths]].
  - by apply not_elem_of_nil in Hp.
  - apply list_elem_of_singleton in Hp. subst. by right; left.
  - unfold findCommonAncestor.
    set (parts := splitOn sep <$> q :: q' :: paths).
    destruct (commonPartsFrom_prefix parts 0 (minLength parts)
                (splitOn sep p)) as (rest & Hrest).
    { apply list_elem_of_fmap. by exists p. }
    rewrite drop_0 in Hrest.
    set (common := commonPartsFrom parts 0 (minLength parts)) in *.
    destruct (String.eqb (joinWith sep common) "") eqn:E; [by left|].
    right. apply String.eqb_neq in E.
    assert (common ≠ []) as Hcommon by (intros Heq; by rewrite Heq in E).
    pose proof (joinWith_splitOnGo sep "" p) as Hjoin.
    fold (splitOn sep p) in Hjoin. rewrite Hrest, append_empty_l in Hjoin.
    destruct rest as [|piece rest].
    + left. by rewrite app_nil_r in Hjoin.
    + right. rewrite joinWith_app in Hjoin by done. rewrite <- Hjoin.
      rewrite <- append_assoc. apply prefix_append.
Qed.

Lemma findCommonAncestor_ancestor_witness :
  findCommonAncestor "/" ["/p/exports"; "/p/consumers/app"] = "/" \/
  "/p/consumers/app" = findCommonAncestor "/" ["/p/exports"; "/p/consumers/app"] \/
  String.prefix
    (findCommonAncestor "/" ["/p/exports"; "/p/consumers/app"] +:+ "/")
    "/p/consumers/app" = true.
Proof.
  apply (findCommonAncestor_ancestor "/" ["/p/exports"; "/p/consumers/app"]
           "/p/consumers/app").
  set_solver.
Defined.

(** X19. Given the same non-empty path any number of times, once at
    least, [findCommonAncestor] returns that path. *)
Theorem findCommonAncestor_same (sep : ascii) (paths : list string)
    (p : string) :
  paths ≠ [] -> (forall q, q ∈ paths -> q = p) -> p ≠ "" ->
  findCommonAncestor sep paths = p.
Proof.
  intros Hne Hall Hp. destruct paths as [|q [|q' paths]]; [done| |].
  - simpl. apply Hall, list_elem_of_here.
  - unfold findCommonAncestor.
    set (parts := splitOn sep <$> q :: q' :: paths).
    assert (parts ≠ []) as Hparts by done.
    assert (forall l, l ∈ parts -> l = splitOn sep p) as Hsame.
    { intros l Hl. apply list_elem_of_fmap in Hl as (x & -> & Hx).
      by rewrite (Hall x Hx). }
    rewrite (minLength_same parts _ Hparts Hsame).
    rewrite (commonPartsFrom_same parts (splitOn sep p) 0 _ Hparts Hsame)
      by lia.
    rewrite drop_0. unfold splitOn. rewrite joinWith_splitOnGo.
    rewrite append_empty_l. apply String.eqb_neq in Hp. by rewrite Hp.
Qed.

Lemma findCommonAncestor_same_witness :
  findCommonAncestor "/" ["/p/fixtures"; "/p/fixtures"] = "/p/fixtures".
Proof.
  apply (findCommonAncestor_same "/" ["/p/fixtures"; "/p/fixtures"]).
  - discriminate.
  - intros q Hq. set_solver.
  - discriminate.
Defined.

Lemma joinWith_splitOn_witness :
  allChars (fun c => negb (Ascii.eqb c "/")) "util" = true.
Proof.
  apply (proj2 (joinWith_splitOn "/" "src/util/a.ts") "util").
  set_solver.
Defined.

(** ** Node identifiers and labels *)

Lemma mapChars_app (f : ascii -> string) (s t : string) :
  mapChars f (s +:+ t) = mapChars f s +:+ mapChars f t.
Proof.
  induction s as [|c s IH]; [done|].
  rewrite append_cons. simpl. by rewrite IH, append_assoc.
Qed.

Lemma mapChars_id (f : ascii -> string) (s : string) :
  allChars (fun c => bool_decide (f c = String c "")) s = true ->
  mapChars f s = s.
Proof.
  induction s as [|c s IH]; [done|]. simpl. intros H.
  apply andb_prop in H as [Hc Hs]. apply bool_decide_eq_true in Hc.
  by rewrite Hc, (IH Hs).
Qed.

Lemma isAlphaNumeric_underscore : isAlphaNumeric underscoreUnit = false.
Proof. reflexivity. Qed.

Lemma sanitizeNodeId_app (s t : CodeUnits) :
  sanitizeNodeId (s ++ t) = (sanitizeNodeId s ++ sanitizeNodeId t)%list.
Proof. unfold sanitizeNodeId. apply fmap_app. Qed.

Lemma sanitizeNodeId_id (str : CodeUnits) :
  forallb (fun u => isAlphaNumeric u || (u =? underscoreUnit)%N) str = true ->
  sanitizeNodeId str = str.
Proof.
  unfold sanitizeNodeId. induction str as [|u str IH]; [done|].
  cbn [forallb fmap list_fmap]. intros H.
  apply andb_prop in H as [Hu Hstr]. rewrite (IH Hstr). f_equal.
  destruct (isAlphaNumeric u); [done|].
  cbn [orb] in Hu. apply N.eqb_eq in Hu. by subst.
Qed.

Lemma sanitizeNodeId_units (str : CodeUnits) :
  forallb (fun u => isAlphaNumeric u || (u =? underscoreUnit)%N)
    (sanitizeNodeId str) = true.
Proof.
  unfold sanitizeNodeId. induction str as [|u str IH]; [done|].
  cbn [forallb fmap list_fmap]. rewrite IH, andb_true_r.
  destruct (isAlphaNumeric u) eqn:E; [by rewrite E|done].
Qed.

(** X20. [sanitizeNodeId] gives a string of as many code units, each an
    ASCII letter, a digit or the underscore; it leaves a string of such
    code units as it is, so sanitizing twice is sanitizing once. The
    identifier of an export is the identifier of its module, two
    underscores and the sanitized name. *)
Theorem sanitizeNodeId_safe (str : CodeUnits) :
  length (sanitizeNodeId str) = length str /\
  forallb (fun u => isAlphaNumeric u || (u =? underscoreUnit)%N)
    (sanitizeNodeId str) = true /\
  (forallb (fun u => isAlphaNumeric u || (u =? underscoreUnit)%N) str = true ->
   sanitizeNodeId str = str) /\
  sanitizeNodeId (sanitizeNodeId str) = sanitizeNodeId str /\
  (forall name,
     getExportNodeId str name
     = (getModuleNodeId str ++ [underscoreUnit; underscoreUnit]
        ++ sanitizeNodeId name)%list).
Proof.
  split_and!.
  - unfold sanitizeNodeId. apply length_fmap.
  - apply sanitizeNodeId_units.
  - apply sanitizeNodeId_id.
  - apply sanitizeNodeId_id, sanitizeNodeId_units.
  - intros name. unfold getExportNodeId, getModuleNodeId.
    by rewrite !sanitizeNodeId_app.
Qed.

(** The code units of [a_ts]. *)
Lemma sanitizeNodeId_safe_witness :
  sanitizeNodeId [97; 95; 116; 115]%N = [97; 95; 116; 115]%N.
Proof.
  apply (proj1 (proj2 (proj2 (sanitizeNodeId_safe [97; 95; 116; 115]%N)))).
  reflexivity.
Defined.

Lemma quotesGuarded_cons (guarded : bool) (c : ascii) (s : string) :
  quotesGuarded guarded (String c s)
  = (if Ascii.eqb c quoteChar then guarded else true)
    && quotesGuarded (Ascii.eqb c backslashChar) s.
Proof. reflexivity. Qed.

Lemma escapeQuotes_guarded (guarded : bool) (s : string) :
  quotesGuarded guarded
    (mapChars (fun c => if Ascii.eqb c quoteChar
                        then String backslashChar (String quoteChar "")
                        else String c "") s) = true.
Proof.
  revert guarded. induction s as [|c s IH]; intros guarded; [done|].
  simpl. destruct (Ascii.eqb c quoteChar) eqn:E.
  - rewrite !append_cons, append_empty_l, !quotesGuarded_cons.
    change (Ascii.eqb backslashChar quoteChar) with false.
    change (Ascii.eqb quoteChar quoteChar) with true.
    change (Ascii.eqb backslashChar backslashChar) with true.
    by rewrite IH.
  - rewrite append_cons, append_empty_l, quotesGuarded_cons.
    by rewrite E, IH.
Qed.

Lemma escapeLineFeeds_guarded (guarded : bool) (s : string) :
  quotesGuarded guarded s = true ->
  quotesGuarded guarded
    (mapChars (fun c => if Ascii.eqb c lineFeedChar
                        then String backslashChar (String "n"%char "")
                        else String c "") s) = true.
Proof.
  revert guarded. induction s as [|c s IH]; intros guarded H; [done|].
  rewrite quotesGuarded_cons in H. apply andb_prop in H as [Hc Hs]. simpl.
  destruct (Ascii.eqb c lineFeedChar) eqn:E.
  - apply Ascii.eqb_eq in E. subst c.
    rewrite !append_cons, append_empty_l, !quotesGuarded_cons.
    change (Ascii.eqb backslashChar quoteChar) with false.
    change (Ascii.eqb "n"%char quoteChar) with false.
    change (Ascii.eqb "n"%char backslashChar) with false.
    change (Ascii.eqb lineFeedChar backslashChar) with false in Hs.
    by rewrite (IH _ Hs).
  - rewrite append_cons, append_empty_l, quotesGuarded_cons.
    by rewrite Hc, (IH _ Hs).
Qed.

Lemma escapeLineFeeds_none (s : string) :
  allChars (fun c => negb (Ascii.eqb c lineFeedChar))
    (mapChars (fun c => if Ascii.eqb c lineFeedChar
                        then String backslashChar (String "n"%char "")
                        else String c "") s) = true.
Proof.
  induction s as [|c s IH]; [done|]. simpl.
  destruct (Ascii.eqb c lineFeedChar) eqn:E.
  - rewrite !append_cons, append_empty_l. simpl.
    change (Ascii.eqb backslashChar lineFeedChar) with false.
    by rewrite IH.
  - rewrite append_cons, append_empty_l. simpl. by rewrite E, IH.
Qed.

(** X21. The string [escapeString] gives holds no line feed, and every
    double quote in it comes right after a backslash; a string with
    neither double quote nor line feed is left as it is; and escaping a
    concatenation is concatenating the escapes. *)
Theorem escapeString_escaped (str : string) :
  allChars (fun c => negb (Ascii.eqb c lineFeedChar)) (escapeString str)
  = true /\
  quotesGuarded false (escapeString str) = true /\
  (allChars (fun c => negb (Ascii.eqb c quoteChar)
                      && negb (Ascii.eqb c lineFeedChar)) str = true ->
   escapeString str = str) /\
  (forall other,
     escapeString (str +:+ other) = escapeString str +:+ escapeString other).
Proof.
  unfold escapeString. split_and!.
  - apply escapeLineFeeds_none.
  - apply escapeLineFeeds_guarded, escapeQuotes_guarded.
  - intros Hclean.
    assert (forall (test : ascii -> bool) (f : ascii -> string),
              (forall c, test c = true -> f c = String c "") ->
              forall s, allChars test s = true -> mapChars f s = s) as Hid.
    { intros test f Hf. induction s as [|c s IH]; [done|]. simpl.
      intros H. apply andb_prop in H as [Hc Hs].
      by rewrite (Hf _ Hc), (IH Hs). }
    rewrite (Hid (fun c => negb (Ascii.eqb c quoteChar)
                           && negb (Ascii.eqb c lineFeedChar))
               (fun c => if Ascii.eqb c quoteChar then _ else _)
               ltac:(intros c Hc; apply andb_prop in Hc as [Hq _];
                     apply negb_true_iff in Hq; by rewrite Hq) str Hclean).
    apply (Hid (fun c => negb (Ascii.eqb c quoteChar)
                         && negb (Ascii.eqb c lineFeedChar))); [|done].
    intros c Hc. apply andb_prop in Hc as [_ Hl].
    apply negb_true_iff in Hl. by rewrite Hl.
  - intros other. by rewrite !mapChars_app.
Qed.

Lemma escapeString_escaped_witness : escapeString "a.ts" = "a.ts".
Proof.
  apply (proj1 (proj2 (proj2 (escapeString_escaped "a.ts")))).
  reflexivity.
Defined.

(** X22. The short name of a module holds no slash, and the module path
    is that name, or some directory, a slash and that name. *)
Theorem getShortModuleName_last (module : string) :
  allChars (fun c => negb (Ascii.eqb c "/")) (getShortModuleName module)
  = true /\
  (module = getShortModuleName module \/
   exists directory,
     module = directory +:+ "/" +:+ getShortModuleName module).
Proof.
  unfold getShortModuleName.
  pose proof (joinWith_splitOnGo "/" "" module) as Hjoin.
  fold (splitOn "/" module) in Hjoin. rewrite append_empty_l in Hjoin.
  pose proof (splitOnGo_nonempty "/" "" module) as Hne.
  fold (splitOn "/" module) in Hne.
  pose proof (fun piece => splitOnGo_pieces "/" "" module piece eq_refl)
    as Hpieces.
  fold (splitOn "/" module) in Hpieces.
  destruct (splitOn "/" module) as [|name directories _] using rev_ind;
    [done|].
  rewrite last_snoc. simpl. split.
  - apply Hpieces. set_solver.
  - destruct directories as [|top directories].
    + left. by rewrite <- Hjoin.
    + right. exists (joinWith "/" (top :: directories)).
      rewrite <- Hjoin at 1. by rewrite joinWith_app.
Qed.

(** ** Default and inline exports *)

Lemma exportedDeclarations_keep (sourceFile : SourceFile.t)
    (modulePath : string) (exported : list (string * list string))
    (registry : ExportRegistry) (k : string) :
  JsMap.has k registry = true ->
  JsMap.get k
    (fold_left (registerExportedDeclaration sourceFile modulePath) exported
       registry)
  = JsMap.get k registry.
Proof.
  revert registry. induction exported as [|x l IH]; intros registry Hk;
    simpl; [done|].
  rewrite IH.
  - by apply registerExportedDeclaration_keeps.
  - unfold JsMap.has. by rewrite registerExportedDeclaration_keeps.
Qed.

(** X23. After [extractExportsFromFile], a module with an export
    assignment has an entry under [module::default], the direct one
    unless the export declarations or the registry it started from had
    already set the key; and every name whose exported declarations
    include one of the file itself has an entry under [module::name]. *)
Theorem extractExportsFromFile_declared (host : Host)
    (sourceFile : SourceFile.t) (modulePath : string)
    (registry : ExportRegistry) :
  ((0 < SourceFile.getExportAssignments sourceFile)%nat ->
   exists entry,
     JsMap.get (mkKey modulePath "default")
       (extractExportsFromFile host sourceFile modulePath registry)
     = Some entry /\
     (JsMap.get (mkKey modulePath "default")
        (processExportDeclarations host sourceFile modulePath registry)
      = None ->
      entry = directEntry modulePath "default")) /\
  (forall name declarations,
     (name, declarations) ∈ SourceFile.getExportedDeclarations sourceFile ->
     SourceFile.getFilePath sourceFile ∈ declarations ->
     is_Some (JsMap.get (mkKey modulePath name)
                (extractExportsFromFile host sourceFile modulePath registry))).
Proof.
  unfold extractExportsFromFile, registerDeclarations.
  set (afterDecls := processExportDeclarations host sourceFile modulePath
                       registry).
  split.
  - intros Hassign. apply Nat.ltb_lt in Hassign. rewrite Hassign.
    unfold registerDefaultExport.
    destruct (JsMap.has (mkKey modulePath "default") afterDecls) eqn:Hhas;
      simpl.
    + rewrite exportedDeclarations_keep by done.
      apply has_true in Hhas as [entry Hentry]. exists entry.
      split; [done|]. congruence.
    + rewrite exportedDeclarations_keep.
      * rewrite get_set_eq. by eexists.
      * unfold JsMap.has. by rewrite get_set_eq.
  - intros name declarations Hin Hlocal.
    set (afterDefault := if (0 <? _)%nat then _ else _).
    apply list_elem_of_split in Hin as (l1 & l2 & ->).
    rewrite fold_left_app. simpl.
    set (before := fold_left _ l1 afterDefault).
    assert (JsMap.has (mkKey modulePath name)
              (registerExportedDeclaration sourceFile modulePath before
                 (name, declarations)) = true) as Hhas.
    { simpl. destruct (JsMap.has (mkKey modulePath name) before) eqn:E;
        [done|].
      assert (existsb (fun declFilePath =>
                         String.eqb declFilePath
                           (SourceFile.getFilePath sourceFile)) declarations
              = true) as ->.
      { apply existsb_exists. exists (SourceFile.getFilePath sourceFile).
        split; [by apply list_elem_of_In|apply String.eqb_refl]. }
      unfold JsMap.has. by rewrite get_set_eq. }
    rewrite exportedDeclarations_keep by done. by apply has_true.
Qed.

Lemma extractExportsFromFile_declared_witness :
  exists entry,
    JsMap.get "D.ts::default"
      (extractExportsFromFile Fixtures.host Fixtures.defaultFile "D.ts" [])
    = Some entry /\
    (JsMap.get "D.ts::default"
       (processExportDeclarations Fixtures.host Fixtures.defaultFile "D.ts"
          []) = None ->
     entry = directEntry "D.ts" "default").
Proof.
  apply (proj1 (extractExportsFromFile_declared Fixtures.host
                  Fixtures.defaultFile "D.ts" [])).
  simpl. lia.
Defined.

(** ** What an import declaration is attributed to *)

Lemma fold_left_fmap {A B C} (f : A -> C -> A) (g : B -> C) (l : list B)
    (a : A) :
  fold_left (fun acc x => f acc (g x)) l a = fold_left f (g <$> l) a.
Proof.
  revert a. induction l as [|x l IH]; intros a; simpl; [done|]. apply IH.
Qed.

(** X24. What an import declaration adds to the consumer map depends on
    its specifier, on whether it has a default import, on the names it
    imports and on its namespace import, not on the local names: two
    declarations that differ only in the aliases of the named imports and
    in the name of the default binding add the same records. *)
Theorem processImportDeclaration_aliases (host : Host)
    (first second : ImportDeclaration.t) (consumerModule : string)
    (registry : ExportRegistry) (files : JsMap SourceFile.t)
    (basePath : string) (consumers : ConsumerMap) (sourceFile : SourceFile.t) :
  ImportDeclaration.getModuleSpecifierValue first
  = ImportDeclaration.getModuleSpecifierValue second ->
  (is_Some (ImportDeclaration.getDefaultImport first) <->
   is_Some (ImportDeclaration.getDefaultImport second)) ->
  ImportSpecifier.getName <$> ImportDeclaration.getNamedImports first
  = ImportSpecifier.getName <$> ImportDeclaration.getNamedImports second ->
  ImportDeclaration.getNamespaceImport first
  = ImportDeclaration.getNamespaceImport second ->
  processImportDeclaration host first consumerModule registry files basePath
    consumers sourceFile
  = processImportDeclaration host second consumerModule registry files
      basePath consumers sourceFile.
Proof.
  intros Hspec Hdefault Hnames Hspace. unfold processImportDeclaration.
  rewrite Hspec, Hspace.
  destruct (negb (startsWithDot _)); [done|].
  destruct (truthy (resolveImportPath _ _ _)) as [resolvedPath|]; [|done].
  destruct (negb (JsMap.has _ _)); [done|].
  set (record := fun consumers importedName =>
                   recordConsumer host (relative host basePath resolvedPath)
                     importedName consumerModule registry basePath consumers).
  change (fun consumers0 namedImport =>
            recordConsumer host (relative host basePath resolvedPath)
              (ImportSpecifier.getName namedImport) consumerModule registry
              basePath consumers0)
    with (fun consumers0 namedImport =>
            record consumers0 (ImportSpecifier.getName namedImport)).
  rewrite !(fold_left_fmap record ImportSpecifier.getName). rewrite Hnames.
  assert (match ImportDeclaration.getDefaultImport first with
          | Some _ => record consumers "default"
          | None => consumers
          end
          = match ImportDeclaration.getDefaultImport second with
            | Some _ => record consumers "default"
            | None => consumers
            end) as Hsame.
  { destruct (ImportDeclaration.getDefaultImport first) as [x|];
      destruct (ImportDeclaration.getDefaultImport second) as [y|];
      try done.
    - destruct (proj1 Hdefault (mk_is_Some _ _ eq_refl)) as [? ?]. done.
    - destruct (proj2 Hdefault (mk_is_Some _ _ eq_refl)) as [? ?]. done. }
  unfold record in Hsame. by rewrite Hsame.
Qed.

Lemma processImportDeclaration_aliases_witness :
  processImportDeclaration Fixtures.host
    (Fixtures.importNamedAs "X" (Some "X2") "./barrel") "D.ts"
    Fixtures.twiceRegistry Fixtures.twiceFiles Fixtures.basePath []
    (Fixtures.sourceFile Fixtures.twiceProject "/p/D.ts" [] [] [])
  = processImportDeclaration Fixtures.host
      (Fixtures.importNamed "X" "./barrel") "D.ts"
      Fixtures.twiceRegistry Fixtures.twiceFiles Fixtures.basePath []
      (Fixtures.sourceFile Fixtures.twiceProject "/p/D.ts" [] [] []).
Proof.
  apply processImportDeclaration_aliases; reflexivity.
Defined.

(** X25. A namespace import is attributed through the member accesses on
    its name alone: the records [processNamespaceUsages] adds are those of
    [recordConsumer] on the property names of the accesses whose
    expression is the namespace identifier, in their order; with no such
    access, nothing is recorded. *)
Theorem processNamespaceUsages_accesses (host : Host)
    (sourceFile : SourceFile.t)
    (namespaceName importedModule consumerModule : string)
    (registry : ExportRegistry) (basePath : string) (consumers : ConsumerMap) :
  processNamespaceUsages host sourceFile namespaceName importedModule
    consumerModule registry basePath consumers
  = fold_left
      (fun consumers propertyName =>
         recordConsumer host importedModule propertyName consumerModule
           registry basePath consumers)
      (PropertyAccessExpression.getName <$>
       List.filter
         (fun propAccess =>
            bool_decide (PropertyAccessExpression.getExpression propAccess
                         = Some namespaceName))
         (SourceFile.getPropertyAccessExpressions sourceFile))
      consumers /\
  ((forall propAccess,
      propAccess ∈ SourceFile.getPropertyAccessExpressions sourceFile ->
      PropertyAccessExpression.getExpression propAccess
      ≠ Some namespaceName) ->
   processNamespaceUsages host sourceFile namespaceName importedModule
     consumerModule registry basePath consumers = consumers).
Proof.
  unfold processNamespaceUsages.
  assert (forall l consumers0,
            fold_left
              (fun consumers propAccess =>
                 match PropertyAccessExpression.getExpression propAccess with
                 | Some identifier =>
                     if String.eqb identifier namespaceName
                     then recordConsumer host importedModule
                            (PropertyAccessExpression.getName propAccess)
                            consumerModule registry basePath consumers
                     else consumers
                 | None => consumers
                 end) l consumers0
            = fold_left
                (fun consumers propertyName =>
                   recordConsumer host importedModule propertyName
                     consumerModule registry basePath consumers)
                (PropertyAccessExpression.getName <$>
                 List.filter
                   (fun propAccess =>
                      bool_decide
                        (PropertyAccessExpression.getExpression propAccess
                         = Some namespaceName)) l)
                consumers0) as Hloop.
  { induction l as [|x l IH]; intros consumers0; simpl; [done|].
    destruct (PropertyAccessExpression.getExpression x) as [identifier|].
    - destruct (String.eqb identifier namespaceName) eqn:E.
      + apply String.eqb_eq in E. subst.
        rewrite bool_decide_eq_true_2 by done. simpl. apply IH.
      + apply String.eqb_neq in E.
        rewrite bool_decide_eq_false_2 by congruence. apply IH.
    - rewrite bool_decide_eq_false_2 by done. apply IH. }
  split; [apply Hloop|].
  intros Hnone. rewrite Hloop.
  assert (List.filter
            (fun propAccess =>
               bool_decide (PropertyAccessExpression.getExpression propAccess
                            = Some namespaceName))
            (SourceFile.getPropertyAccessExpressions sourceFile) = []) as ->;
    [|done].
  induction (SourceFile.getPropertyAccessExpressions sourceFile)
    as [|x l IH]; simpl; [done|].
  rewrite bool_decide_eq_false_2 by (apply Hnone, list_elem_of_here).
  apply IH. intros y Hy. by apply Hnone, list_elem_of_further.
Qed.

Lemma processNamespaceUsages_accesses_witness :
  processNamespaceUsages Fixtures.host Fixtures.namespaceFile "B" "A.ts"
    "N.ts" Fixtures.twiceRegistry Fixtures.basePath [] = [].
Proof.
  apply (proj2 (processNamespaceUsages_accesses Fixtures.host
                  Fixtures.namespaceFile "B" "A.ts" "N.ts"
                  Fixtures.twiceRegistry Fixtures.basePath [])).
  intros propAccess Hin.
  apply elem_of_cons in Hin as [->|Hin]; [discriminate|].
  apply list_elem_of_singleton in Hin. subst. discriminate.
Defined.
